(** * nutils: sparse assembly, offset planning and postponed integrals

    A shallow embedding of [nutils/sample.py] (the [Sample.integrate_sparse]
    offset planner and assembler, the [Integral] algebra,
    [eval_integrals_sparse] and [_convert]) together with the coordinate-sparse
    merge algebra of [nutils.sparse] that the sample module drives.

    Further down follow the construction and the point indices of a
    [Sample], the remaining methods of [Integral], the command line
    interface of [nutils/cli.py] and the array expressions of
    [lower/_ir.py].

    Python exceptions are values of [exn]; code that can raise returns a
    [result].  The assembly code asks the function evaluator for sizes and
    values and the parallel module for shared buffers; these requests are
    recorded, in order, in a trace that is threaded through the
    computation. *)

From Stdlib Require Import ZArith List Lia Bool Sorted Permutation.
From Stdlib Require Import SpecFloat DecimalString.
From stdpp Require Import base list strings.

Open Scope Z_scope.

(** ** Python results and exceptions *)

Module Py.

Inductive exn : Type :=
| Exception (msg : string)
| KeyError (key : string)
| AssertionError (msg : string)
| IndexError
| ValueError (msg : string).

Inductive result (A : Type) : Type :=
| Ok (a : A)
| Raise (e : exn).

Arguments Ok {A} a.
Arguments Raise {A} e.

Definition bind {A B} (r : result A) (k : A -> result B) : result B :=
  match r with
  | Ok a => k a
  | Raise e => Raise e
  end.

(** [for x in xs: acc = body(acc, x)], stopping at the first exception. *)
Fixpoint for_each {A S} (body : S -> A -> result S) (xs : list A) (acc : S)
  : result S :=
  match xs with
  | [] => Ok acc
  | x :: xs' => bind (body acc x) (for_each body xs')
  end.

(** A list comprehension whose items may raise: the items in order, or
    the first exception. *)
Fixpoint sequence {A} (rs : list (result A)) : result (list A) :=
  match rs with
  | [] => Ok []
  | r :: rs' => bind r (fun a => bind (sequence rs') (fun l => Ok (a :: l)))
  end.

(** [list(enumerate(xs))]. *)
Definition enumerate {A} (xs : list A) : list (nat * A) :=
  imap (fun i x => (i, x)) xs.

(** [l[:k]] with Python's reading of a negative bound. *)
Definition slice_to {A} (k : Z) (l : list A) : list A :=
  if k <? 0 then take (Z.to_nat (Z.of_nat (length l) + k)) l
  else take (Z.to_nat k) l.

End Py.

Import Py.

(** ** Unsigned 64-bit counters ([numpy.uint64]) *)

Module U64.

Definition modulus : Z := 2 ^ 64.

(** Storing an integer in a [uint64] array keeps its low 64 bits. *)
Definition wrap (z : Z) : Z := z mod modulus.

Definition add (a b : Z) : Z := wrap (a + b).

(** [numpy.cumsum(v, out=v)] on a [uint64] row: the inclusive running sum,
    each partial sum wrapped to 64 bits. *)
Fixpoint cumsum_from (acc : Z) (v : list Z) : list Z :=
  match v with
  | [] => []
  | x :: v' => let s := add acc x in s :: cumsum_from s v'
  end.

Definition cumsum (v : list Z) : list Z := cumsum_from 0 v.

(** [(v[1:] < v[:-1]).any()]. *)
Fixpoint any_decrease (v : list Z) : bool :=
  match v with
  | a :: ((b :: _) as v') => (b <? a) || any_decrease v'
  | _ => false
  end.

End U64.

(** ** The coordinate-sparse record format and its merge algebra

    [nutils/sparse.py] is driven by [sample.py] and exercised by
    [tests/test_sparse.py], but is itself absent from the sources: the
    definitions of this module follow sections 3, 4.1 and 4.2 of the
    specification, and are run on the inputs of the tests further down. *)

Module sparse.

(** An index tuple [(i_0, ..., i_{d-1})]. *)
Definition index : Type := list nat.

(** Lexicographic comparison of index tuples, axis 0 most significant. *)
Fixpoint lex_compare (a b : index) : comparison :=
  match a, b with
  | [], [] => Eq
  | [], _ :: _ => Lt
  | _ :: _, [] => Gt
  | x :: a', y :: b' =>
      match Nat.compare x y with
      | Eq => lex_compare a' b'
      | c => c
      end
  end.

Definition lex_lt (a b : index) : Prop := lex_compare a b = Lt.

(** The arithmetic of a declared value type. *)
Class Scalar (V : Type) : Type := {
  vzero : V;
  vadd : V -> V -> V;
  viszero : V -> bool
}.

(** Signed 64-bit integers ([numpy.int64]): sums wrap around. *)
Definition int64_wrap (z : Z) : Z := (z + 2 ^ 63) mod 2 ^ 64 - 2 ^ 63.

#[export] Instance int64_scalar : Scalar Z := {|
  vzero := 0;
  vadd := fun a b => int64_wrap (a + b);
  viszero := fun a => a =? 0
|}.

(** Binary64 floating values, as specified by [SpecFloat]. *)
Definition float64 : Type := spec_float.
Definition prec : Z := 53.
Definition emax : Z := 1024.

#[export] Instance float64_scalar : Scalar float64 := {|
  vzero := S754_zero false;
  vadd := SFadd prec emax;
  viszero := fun f => match f with S754_zero _ => true | _ => false end
|}.

(** Modelled from the spec: the SparseRecord collection of section 3 (the
    record layout declared by [sparse.dtype], absent from the sources): an
    ordered sequence of [(index tuple, value)] records of one value type,
    tagged with the declared per-axis extents. *)
Record data (V : Type) : Type := mk_data {
  extents : list nat;
  records : list (index * V)
}.

Arguments mk_data {V} extents records.
Arguments extents {V} d.
Arguments records {V} d.

(** [rank(data)] of section 4.1: the number of index fields. *)
Definition rank {V} (d : data V) : nat := length (extents d).

(** [index_columns] and [values] of section 4.1. *)
Definition indices {V} (d : data V) : list index := map fst (records d).
Definition values {V} (d : data V) : list V := map snd (records d).

Section MergeAlgebra.

Context {V : Type} `{Scalar V}.

(** *** dedup: external merge of sorted runs *)

(** Insert one record in a run that is sorted with distinct index tuples,
    summing on key collision. *)
Fixpoint insert_sum (k : index) (v : V) (run : list (index * V))
  : list (index * V) :=
  match run with
  | [] => [(k, v)]
  | (k', v') :: rest =>
      match lex_compare k k' with
      | Lt => (k, v) :: run
      | Eq => (k', vadd v' v) :: rest
      | Gt => (k', v') :: insert_sum k v rest
      end
  end.

(** Sort one chunk into a run. *)
Definition sort_chunk (chunk : list (index * V)) : list (index * V) :=
  foldl (fun run kv => insert_sum (fst kv) (snd kv) run) [] chunk.

(** Merge two sorted runs, summing on key collision. *)
Fixpoint merge_runs (r1 : list (index * V)) : list (index * V) -> list (index * V) :=
  fix merge_into (r2 : list (index * V)) : list (index * V) :=
    match r1, r2 with
    | [], _ => r2
    | _, [] => r1
    | (k1, v1) :: r1', (k2, v2) :: r2' =>
        match lex_compare k1 k2 with
        | Lt => (k1, v1) :: merge_runs r1' r2
        | Eq => (k1, vadd v1 v2) :: merge_runs r1' r2'
        | Gt => (k2, v2) :: merge_into r2'
        end
    end.

(** Cut the input into chunks of [n] records ([n >= 1]). *)
Fixpoint chunks_fuel (fuel n : nat) (l : list (index * V))
  : list (list (index * V)) :=
  match fuel, l with
  | S fuel', _ :: _ => take n l :: chunks_fuel fuel' n (drop n l)
  | _, _ => []
  end.

Definition chunks (n : nat) (l : list (index * V)) : list (list (index * V)) :=
  chunks_fuel (length l) (Nat.max 1 n) l.

Definition dedup_records (chunk : nat) (l : list (index * V))
  : list (index * V) :=
  foldl merge_runs [] (map sort_chunk (chunks chunk l)).

(** Modelled from the spec: [dedup] of section 4.2 ([sparse.dedup], absent
    from the sources).  Records are grouped by index tuple and their values
    summed; the input is processed in chunks of [chunk] records, each chunk
    sorted into a run and the runs merged, summing on key collision.  The
    [inplace] flag only decides whose buffer holds the result. *)
Definition dedup_data (chunk : nat) (d : data V) (inplace : bool) : data V :=
  mk_data (extents d) (dedup_records chunk (records d)).

(** Modelled from the spec: [prune] of section 4.2 ([sparse.prune], absent
    from the sources): drops the records whose value is the value type's
    zero and keeps the others in order. *)
Definition prune_data (d : data V) (inplace : bool) : data V :=
  mk_data (extents d) (filter (fun kv => viszero (snd kv) = false) (records d)).

(** *** Dense arrays *)

Record ndarray : Type := mk_ndarray {
  ashape : list nat;
  aflat : list V   (* row-major *)
}.

(** Every coordinate of a tensor of the given shape, in row-major order. *)
Fixpoint coords (shp : list nat) : list index :=
  match shp with
  | [] => [[]]
  | n :: shp' => flat_map (fun i => map (cons i) (coords shp')) (seq 0 n)
  end.

Fixpoint lookup_index (k : index) (l : list (index * V)) : option V :=
  match l with
  | [] => None
  | (k', v) :: l' =>
      match lex_compare k k' with
      | Eq => Some v
      | _ => lookup_index k l'
      end
  end.

(** Modelled from the spec: [to_dense] of section 4.2 ([sparse.toarray],
    absent from the sources): [dedup(data)] materialized into a
    zero-initialized dense tensor of the declared shape. *)
Definition toarray_data (chunk : nat) (d : data V) : ndarray :=
  let merged := dedup_records chunk (records d) in
  mk_ndarray (extents d)
    (map (fun c => default vzero (lookup_index c merged)) (coords (extents d))).

(** *** block *)

(** A rank-[d] nested arrangement of leaves; a leaf is a collection or the
    absent marker. *)
#[warnings="-register-all"] Inductive structure : Type :=
| Leaf (d : option (data V))
| Nested (items : list structure).

(** The leaves of the items of a sequence, item [j] at position [i + j]
    of the axis the sequence runs along. *)
Definition along_axis {A B} (f : A -> list (list nat * B))
  : nat -> list A -> list (list nat * B) :=
  fix go (i : nat) (ts : list A) :=
    match ts with
    | [] => []
    | t :: ts' => map (fun pd => (i :: fst pd, snd pd)) (f t) ++ go (S i) ts'
    end.

(** The leaves in row-major traversal order, each with its position along
    every axis. *)
Fixpoint leaves (s : structure) : list (list nat * option (data V)) :=
  match s with
  | Leaf d => [([], d)]
  | Nested items => along_axis leaves 0%nat items
  end.

(** The extents along axis [k] declared by the present leaves at position
    [p] of that axis. *)
Definition group_extents (ls : list (list nat * option (data V))) (k p : nat)
  : list (option nat) :=
  flat_map (fun pd =>
    match snd pd with
    | Some d => if decide (fst pd !! k = Some p) then [extents d !! k] else []
    | None => []
    end) ls.

(** The agreed extent of a group; a group without a present leaf, or whose
    leaves disagree, is a construction error. *)
Definition group_extent (ls : list (list nat * option (data V))) (k p : nat)
  : result nat :=
  match group_extents ls k p with
  | [] => Raise (ValueError "block: group without a present leaf")
  | Some e :: es =>
      if forallb (fun e' => bool_decide (e' = Some e)) es then Ok e
      else Raise (ValueError "block: leaves disagree in extent")
  | None :: _ => Raise (ValueError "block: leaf of lower rank")
  end.

(** Number of positions along axis [k]. *)
Definition npositions (ls : list (list nat * option (data V))) (k : nat) : nat :=
  foldr Nat.max 0%nat
    (map (fun pd => match fst pd !! k with Some p => S p | None => 0%nat end) ls).

(** The rank of the arrangement: its nesting depth. *)
Definition depth (ls : list (list nat * option (data V))) : nat :=
  match ls with
  | [] => 1%nat
  | pd :: _ => length (fst pd)
  end.

Definition sum_list (l : list nat) : nat := foldr Nat.add 0%nat l.

(** Shift an index tuple by the extents of the preceding groups. *)
Definition shift_index (exts : list (list nat)) (pos : list nat) (i : index)
  : index :=
  imap (fun k ik =>
    match exts !! k, pos !! k with
    | Some row, Some p => (sum_list (take p row) + ik)%nat
    | _, _ => ik
    end) i.

(** Modelled from the spec: [block] of section 4.2 ([sparse.block], absent
    from the sources).  Every group of leaves sharing a position along an
    axis must hold a present leaf, and its present leaves must agree on
    that axis' extent; the output extent of an axis is the sum of its
    groups' extents; the leaves are concatenated in traversal order, the
    indices of each offset by the extents of the preceding groups. *)
Definition block (s : structure) : result (data V) :=
  let ls := leaves s in
  let d := depth ls in
  bind (sequence (map (fun k =>
          sequence (map (group_extent ls k) (seq 0 (npositions ls k))))
          (seq 0 d)))
    (fun exts =>
       Ok (mk_data (map sum_list exts)
             (flat_map (fun pd =>
                match snd pd with
                | Some leaf =>
                    map (fun kv => (shift_index exts (fst pd) (fst kv), snd kv))
                        (records leaf)
                | None => []
                end) ls))).

End MergeAlgebra.

Arguments ndarray V : clear implicits.
Arguments structure V : clear implicits.

(** *** Collections of either declared value type *)

Inductive valuetype : Type := vt_int | vt_float.

(** A sparse collection as [sample.py] handles it: the records together
    with their declared value type. *)
Inductive t : Type :=
| IntData (d : data Z)
| FloatData (d : data float64).

Inductive dense : Type :=
| IntArray (a : ndarray Z)
| FloatArray (a : ndarray float64).

Definition dtype (x : t) : valuetype :=
  match x with IntData _ => vt_int | FloatData _ => vt_float end.

(** Modelled from the spec: [shape(data)] and [rank(data)] of section 4.1
    ([sparse.shape] and [sparse.ndim], absent from the sources), read off
    the descriptor. *)
Definition shape (x : t) : list nat :=
  match x with IntData d => extents d | FloatData d => extents d end.

Definition ndim (x : t) : nat := length (shape x).

(** Modelled from the spec: [sparse.dedup], [sparse.prune] and
    [sparse.toarray] (absent from the sources) on a collection of either
    value type: the operations of section 4.2 in that type's arithmetic. *)
Definition dedup (chunk : nat) (x : t) (inplace : bool) : t :=
  match x with
  | IntData d => IntData (dedup_data chunk d inplace)
  | FloatData d => FloatData (dedup_data chunk d inplace)
  end.

Definition prune (x : t) (inplace : bool) : t :=
  match x with
  | IntData d => IntData (prune_data d inplace)
  | FloatData d => FloatData (prune_data d inplace)
  end.

Definition toarray (chunk : nat) (x : t) : dense :=
  match x with
  | IntData d => IntArray (toarray_data chunk d)
  | FloatData d => FloatArray (toarray_data chunk d)
  end.

Definition dense_shape (a : dense) : list nat :=
  match a with IntArray a => ashape a | FloatArray a => ashape a end.

Definition dense_size (a : dense) : nat :=
  match a with IntArray a => length (aflat a) | FloatArray a => length (aflat a) end.

(** Modelled from the spec: [sparse.empty(shape)] is absent from the
    sources; the caller's comment (initialize with zeros to set shape)
    makes it the collection without records of the given shape, of the
    default (floating) value type. *)
Definition empty (shp : list nat) : t := FloatData (mk_data shp []).

(** The widening order on value types: integer below floating. *)
Definition vt_le (a b : valuetype) : bool :=
  match a, b with
  | vt_float, vt_int => false
  | _, _ => true
  end.

Definition vt_join (a b : valuetype) : valuetype :=
  match a, b with
  | vt_int, vt_int => vt_int
  | _, _ => vt_float
  end.

Definition result_type (datas : list t) : valuetype :=
  foldr (fun x => vt_join (dtype x)) vt_int datas.

(** Widening of an integer value to binary64. *)
Definition of_int (z : Z) : float64 := binary_normalize prec emax z 0 false.

(** The integer a binary64 value stands for, when it stands for one: the
    number of [S754_finite s m e] is [m * 2 ^ e], negated when [s]. *)
Definition to_int (x : float64) : option Z :=
  match x with
  | S754_zero _ => Some 0
  | S754_finite s m e =>
      let n := if s then Z.neg m else Z.pos m in
      if 0 <=? e then Some (n * 2 ^ e)
      else if n mod 2 ^ (- e) =? 0 then Some (n / 2 ^ (- e)) else None
  | _ => None
  end.

(** A widening of 64-bit integers is lossless when the widened value
    determines the integer. *)
Definition widens_losslessly (widen : Z -> float64) : Prop :=
  forall a b, int64_wrap a = a -> int64_wrap b = b -> widen a = widen b -> a = b.

Definition as_float (x : t) : data float64 :=
  match x with
  | IntData d =>
      mk_data (extents d) (map (fun kv => (fst kv, of_int (snd kv))) (records d))
  | FloatData d => d
  end.

Definition as_int (x : t) : option (data Z) :=
  match x with IntData d => Some d | FloatData _ => None end.

(** Modelled from the spec: [add] of section 4.2 ([sparse.add], absent from
    the sources): all inputs must declare the same shape; the records are
    concatenated in input order, neither merged nor sorted, in the smallest
    value type every input widens to. *)
Definition add (datas : list t) : result t :=
  match datas with
  | [] => Raise (ValueError "add: nothing to add")
  | x :: _ =>
      if forallb (fun y => bool_decide (shape y = shape x)) datas then
        match result_type datas with
        | vt_int =>
            Ok (IntData (mk_data (shape x)
                  (flat_map (fun y => from_option records [] (as_int y)) datas)))
        | vt_float =>
            Ok (FloatData (mk_data (shape x)
                  (flat_map (fun y => records (as_float y)) datas)))
        end
      else Raise (ValueError "add: shapes differ")
  end.

End sparse.

(** ** Collaborators of the sample module *)

(** A [Sample] is a singleton object: equal descriptions are the same
    sample.  The transformation chains and the point sets stay with the
    topology layer, which is addressed through the sample and an element
    number. *)
Record Sample : Type := mk_Sample {
  sample_id : nat;
  nelems : nat;     (* len(transforms[0]) *)
  ndims : nat       (* transforms[0].fromdims *)
}.

#[export] Instance Sample_eq_dec : EqDecision Sample.
Proof. solve_decision. Defined.

(** What [sample.py] uses of [nutils.function], [nutils.points] and
    [numpy.einsum]. *)
Class FunctionCollaborator : Type := {
  Func : Type;                       (* function.Array *)
  Block : Type;                      (* an (index, value) pair of function.blocks *)
  EvalArgs : Type;                   (* the [arguments] dictionary *)
  fshape : Func -> list nat;         (* func.shape *)
  iszero : Func -> bool;             (* function.iszero *)
  simplified : Func -> Func;         (* function.simplified *)
  fadd : Func -> Func -> Func;       (* f + g *)
  fneg : Func -> Func;               (* -f *)
  dependencies : list Func -> list Func;  (* function.Tuple(fs).dependencies *)
  argument_name : Func -> option string;  (* func._name if isinstance(func, function.Argument) *)
  nderiv : Func -> nat;              (* func._nderiv *)
  prepare_eval : nat -> Func -> Func;    (* function.asarray(func).prepare_eval(ndims=...) *)
  blocks : Func -> list Block;       (* function.blocks(func) *)
  block_shape : Block -> Sample -> nat -> EvalArgs -> list N;
    (* the shape of the block's value on an element: intdata.shape[1:] *)
  block_index : Block -> Sample -> nat -> EvalArgs -> nat -> nat -> nat;
    (* entry [k] of the index array of axis [idim] on an element *)
  block_integral : Block -> Sample -> nat -> EvalArgs -> nat -> sparse.float64
    (* numpy.einsum('p,p...->...', points.weights, intdata), by flat position *)
}.

(** What the assembly asks of its collaborators, in order. *)
Inductive event : Type :=
| SizeEval (s : Sample) (ielem nblocks : nat)
    (* sizefunc.eval on one element, returning the counts of all blocks *)
| ShEmpty (n : Z) (shp : list nat)
    (* parallel.shempty(n, dtype=sparse.dtype(shp)) *)
| BlockEval (s : Sample) (ielem nblocks : nat).
    (* valueindexfunc.eval on one element *)

(** Computations that may raise and that leave a trace of collaborator
    calls. *)
Module Traced.

Definition M (A : Type) : Type := list event -> result A * list event.

Definition ret {A} (a : A) : M A := fun tr => (Ok a, tr).

Definition bind {A B} (m : M A) (k : A -> M B) : M B :=
  fun tr =>
    match m tr with
    | (Ok a, tr') => k a tr'
    | (Raise e, tr') => (Raise e, tr')
    end.

Definition emit (e : event) : M unit := fun tr => (Ok tt, tr ++ [e]).

Definition lift {A} (r : result A) : M A := fun tr => (r, tr).

Fixpoint for_each {A S} (body : S -> A -> M S) (xs : list A) (acc : S) : M S :=
  match xs with
  | [] => ret acc
  | x :: xs' => bind (body acc x) (for_each body xs')
  end.

End Traced.

Notation "x <- m ;; k" := (Traced.bind m (fun x => k))
  (at level 100, m at next level, right associativity).
Notation "e1 ;;; e2" := (Traced.bind e1 (fun _ => e2))
  (at level 100, right associativity).

(** ** [nutils/sample.py] *)

Module sample.

Section Sample.

Context `{FC : FunctionCollaborator}.

(** *** [Sample.integrate_sparse] *)

Definition _prepare_funcs (self : Sample) (funcs : list Func) : list Func :=
  map (prepare_eval (ndims self)) funcs.

(** [blocks = [(ifunc, ind, f) for ifunc, func in enumerate(funcs)
               for ind, f in function.blocks(func)]]. *)
Definition all_blocks (funcs : list Func) : list (nat * Block) :=
  flat_map (fun ifunc_func => map (pair (fst ifunc_func)) (blocks (snd ifunc_func)))
           (enumerate funcs).

Definition product (l : list N) : N := foldr N.mul 1%N l.

(** [f.size] on one element: the number of entries of the block's value. *)
Definition block_size (b : Block) (self : Sample) (ielem : nat) (arguments : EvalArgs)
  : Z :=
  Z.of_N (product (block_shape b self ielem arguments)).

(** [sizefunc = function.stack([f.size for ifunc, ind, f in blocks])] and
    its evaluation on one element: the counts of all blocks at once. *)
Definition sizefunc_eval (bs : list (nat * Block)) (self : Sample) (ielem : nat)
    (arguments : EvalArgs) : list Z :=
  map (fun ib => block_size (snd ib) self ielem arguments) bs.

(** [offsets[:,j] = col] on a [uint64] table. *)
Definition set_column (j : nat) (col : list Z) (offsets : list (list Z))
  : list (list Z) :=
  zip_with (fun row x => <[j := U64.wrap x]> row) offsets col.

(** First step: the block sizes are evaluated into columns [1..nelems] of
    a zero-initialized [nblocks x (nelems+1)] table. *)
Definition size_pass (self : Sample) (bs : list (nat * Block)) (arguments : EvalArgs)
  : Traced.M (list (list Z)) :=
  let offsets := replicate (length bs) (replicate (S (nelems self)) 0) in
  match bs with
  | [] => Traced.ret offsets
  | _ :: _ =>
      Traced.for_each
        (fun offsets ielem =>
           Traced.emit (SizeEval self ielem (length bs)) ;;;
           Traced.ret (set_column (S ielem) (sizefunc_eval bs self ielem arguments) offsets))
        (seq 0 (nelems self)) offsets
  end.

(** One turn of the second loop, for block [iblock] of function [ifunc]. *)
Definition accumulate_row (st : list (list Z) * list Z) (ib : nat * nat)
  : result (list (list Z) * list Z) :=
  let (offsets, nvals) := st in
  let (iblock, ifunc) := ib in
  match offsets !! iblock, nvals !! ifunc with
  | Some v, Some n =>
      let v := U64.cumsum (<[0%nat := n]> v) in
      if U64.any_decrease v then Raise (Exception "integer overflow")
      else Ok (<[iblock := v]> offsets, <[ifunc := default 0 (last v)]> nvals)
  | _, _ => Raise IndexError
  end.

(** Second step: the block sizes are accumulated to form offsets, the
    blocks of one function forming consecutive intervals; [nvals] holds
    the length of every function's array. *)
Definition offset_pass (offsets : list (list Z)) (block2func : list nat)
    (nfuncs : nat) : result (list (list Z) * list Z) :=
  Py.for_each accumulate_row (enumerate block2func) (offsets, replicate nfuncs 0).

Definition record : Type := sparse.index * sparse.float64.

(** [datas = [parallel.shempty(n, dtype=sparse.dtype(funcs[ifunc].shape))
              for ifunc, n in enumerate(nvals)]]. *)
Definition allocate (funcs : list Func) (nvals : list Z)
  : Traced.M (list (list record)) :=
  Traced.for_each
    (fun datas ifunc_n =>
       let shp := default [] (fshape <$> funcs !! fst ifunc_n) in
       Traced.emit (ShEmpty (snd ifunc_n) shp) ;;;
       Traced.ret (datas ++ [replicate (Z.to_nat (snd ifunc_n))
                                      (replicate (length shp) 0%nat, S754_zero false)]))
    (enumerate nvals) [].

(** The multi-index of flat position [j] in a row-major tensor. *)
Fixpoint unravel (shp : list N) (j : N) : list N :=
  match shp with
  | [] => []
  | _ :: shp' => (j / product shp')%N :: unravel shp' (j mod product shp')%N
  end.

(** The records one element contributes for one block. *)
Definition local_records (b : Block) (self : Sample) (ielem : nat)
    (arguments : EvalArgs) : list record :=
  let shp := block_shape b self ielem arguments in
  map (fun j =>
         (imap (fun idim k => block_index b self ielem arguments idim (N.to_nat k))
               (unravel shp (N.of_nat j)),
          block_integral b self ielem arguments j))
      (seq 0 (N.to_nat (product shp))).

(** [datas[ifunc][start:stop].reshape(intdata.shape[1:])] followed by the
    assignment of values and indices: the slice must hold exactly the
    entries of the local tensor. *)
Definition write_slice (start stop : Z) (new : list record) (buf : list record)
  : result (list record) :=
  let len := Z.of_nat (length buf) in
  let lo := Z.min start len in
  let hi := Z.min stop len in
  if Z.max 0 (hi - lo) =? Z.of_nat (length new)
  then Ok (take (Z.to_nat lo) buf ++ new ++ drop (Z.to_nat hi) buf)
  else Raise (ValueError "cannot reshape array").

Definition fill_block (self : Sample) (arguments : EvalArgs)
    (offsets : list (list Z)) (ielem : nat)
    (datas : list (list record)) (ib : nat * (nat * Block))
  : result (list (list record)) :=
  let iblock := fst ib in
  let ifunc := fst (snd ib) in
  match offsets !! iblock, datas !! ifunc with
  | Some row, Some buf =>
      match row !! ielem, row !! S ielem with
      | Some start, Some stop =>
          Py.bind (write_slice start stop
                     (local_records (snd (snd ib)) self ielem arguments) buf)
                  (fun buf' => Ok (<[ifunc := buf']> datas))
      | _, _ => Raise IndexError
      end
  | _, _ => Raise IndexError
  end.

(** The second element loop; [parallel.ctxrange] hands out the elements,
    taken here in increasing order. *)
Definition fill (self : Sample) (arguments : EvalArgs) (bs : list (nat * Block))
    (offsets : list (list Z)) (datas : list (list record))
  : Traced.M (list (list record)) :=
  Traced.for_each
    (fun datas ielem =>
       Traced.emit (BlockEval self ielem (length bs)) ;;;
       Traced.lift (Py.for_each (fill_block self arguments offsets ielem)
                                (enumerate bs) datas))
    (seq 0 (nelems self)) datas.

Definition integrate_sparse (self : Sample) (funcs : list Func)
    (arguments : EvalArgs) : Traced.M (list sparse.t) :=
  let funcs := _prepare_funcs self funcs in
  let bs := all_blocks funcs in
  let block2func := map fst bs in
  offsets <- size_pass self bs arguments ;;
  planned <- Traced.lift (offset_pass offsets block2func (length funcs)) ;;
  datas <- allocate funcs (snd planned) ;;
  datas <- fill self arguments bs (fst planned) datas ;;
  Traced.ret (zip_with (fun func buf => sparse.FloatData (sparse.mk_data (fshape func) buf))
                       funcs datas).

End Sample.

(** *** [Integral]: postponed integration *)

Module Integral.

Section Integral.

Context `{FC : FunctionCollaborator}.

(** A Python [dict] keyed by samples: insertion ordered, one entry per
    key. *)
Definition dict : Type := list (Sample * Func).

Fixpoint dict_get (k : Sample) (d : dict) : option Func :=
  match d with
  | [] => None
  | (k', v) :: d' => if decide (k = k') then Some v else dict_get k d'
  end.

(** [d[k] = v]. *)
Fixpoint dict_set (k : Sample) (v : Func) (d : dict) : dict :=
  match d with
  | [] => [(k, v)]
  | (k', v') :: d' =>
      if decide (k = k') then (k', v) :: d' else (k', v') :: dict_set k v d'
  end.

(** The annotation [types.frozendict[strictsample, function.simplified]]:
    the items are collected in a dictionary, every value simplified. *)
Definition frozendict (items : list (Sample * Func)) : dict :=
  foldl (fun d kv => dict_set (fst kv) (simplified (snd kv)) d) [] items.

Record t : Type := mk {
  _integrands : dict;
  shape : list nat
}.

Definition __init__ (integrands : list (Sample * Func)) (shp : list nat)
  : result t :=
  let integrands := frozendict integrands in
  if forallb (fun kv => bool_decide (fshape (snd kv) = shp)) integrands
  then Ok (mk (filter (fun kv => iszero (snd kv) = false) integrands) shp)
  else Raise (AssertionError "incompatible shapes").

Definition ndim (self : t) : nat := length (shape self).

(** The loop body of [__add__]:
    [try: integrands[di] += integrand
     except KeyError: integrands[di] = integrand]. *)
Definition add_term (integrands : dict) (kv : Sample * Func) : dict :=
  match dict_get (fst kv) integrands with
  | Some f => dict_set (fst kv) (fadd f (snd kv)) integrands
  | None => dict_set (fst kv) (snd kv) integrands
  end.

Definition __add__ (self other : t) : result t :=
  if bool_decide (shape self = shape other) then
    __init__ (foldl add_term (_integrands self) (_integrands other)) (shape self)
  else Raise (AssertionError "").

Definition __neg__ (self : t) : result t :=
  __init__ (map (fun kv => (fst kv, fneg (snd kv))) (_integrands self)) (shape self).

Definition __sub__ (self other : t) : result t :=
  Py.bind (__neg__ other) (__add__ self).

(** The set of argument shapes under which [name] occurs among the
    dependencies of the integrands. *)
Definition argshapes (self : t) (name : string) : list (list nat) :=
  remove_dups
    (flat_map
       (fun func =>
          match argument_name func with
          | Some n =>
              if decide (n = name)
              then [slice_to (Z.of_nat (length (fshape func)) - Z.of_nat (nderiv func))
                             (fshape func)]
              else []
          | None => []
          end)
       (dependencies (map snd (_integrands self)))).

Definition _argshape (self : t) (name : string) : result (list nat) :=
  match argshapes self name with
  | [] => Raise (KeyError name)
  | [shp] => Ok shp
  | _ :: _ :: _ => Raise (AssertionError "inconsistent shapes for argument")
  end.

(** [try: self._argshape(name)
     except KeyError: return False
     else: return True]. *)
Definition contains (self : t) (name : string) : result bool :=
  match _argshape self name with
  | Ok _ => Ok true
  | Raise (KeyError _) => Ok false
  | Raise e => Raise e
  end.

End Integral.

End Integral.

(** *** [eval_integrals_sparse] and [_convert] *)

(** The linear-algebra backend behind [matrix.fromsparse]. *)
Class MatrixCollaborator : Type := {
  Matrix : Type;
  fromsparse : sparse.t -> bool -> Matrix
}.

Section Eval.

Context `{FC : FunctionCollaborator} `{MC : MatrixCollaborator}.

(** [sparse.chunksize], the process-wide chunk budget of [dedup], counted
    in records. *)
Variable chunksize : nat.

Fixpoint gather_item (k : Sample) (v : nat) (gathered : list (Sample * list nat))
  : list (Sample * list nat) :=
  match gathered with
  | [] => [(k, [v])]
  | (k', vs) :: rest =>
      if decide (k = k') then (k', vs ++ [v]) :: rest
      else (k', vs) :: gather_item k v rest
  end.

(** Modelled from the spec: [util.gather] is absent from the sources;
    section 4.7 has it group the (Integral, Sample) obligations by Sample
    so that each Sample is visited once, here in order of first
    appearance. *)
Definition gather (items : list (Sample * nat)) : list (Sample * list nat) :=
  foldl (fun g kv => gather_item (fst kv) (snd kv) g) [] items.

(** [integrals[iint]._integrands[sample]]. *)
Definition integrand_of (integrals : list Integral.t) (s : Sample) (iint : nat)
  : result Func :=
  match integrals !! iint with
  | Some integral =>
      match Integral.dict_get s (Integral._integrands integral) with
      | Some f => Ok f
      | None => Raise (KeyError "sample")
      end
  | None => Raise IndexError
  end.

(** [retvals[iint].append(retval)]. *)
Definition append_to (retvals : list (list sparse.t)) (ir : nat * sparse.t)
  : result (list (list sparse.t)) :=
  match retvals !! fst ir with
  | Some l => Ok (<[fst ir := l ++ [snd ir]]> retvals)
  | None => Raise IndexError
  end.

(** The seed of the result lists: one empty collection of the declared
    shape per integral. *)
Definition seed (integrals : list Integral.t) : list (list sparse.t) :=
  map (fun integral => [sparse.empty (Integral.shape integral)]) integrals.

(** The (Sample, Integral) obligations, in the order
    [for iint, integral in enumerate(integrals) for di in integral._integrands]. *)
Definition obligations (integrals : list Integral.t) : list (Sample * nat) :=
  flat_map (fun ii => map (fun di => (fst di, fst ii)) (Integral._integrands (snd ii)))
           (enumerate integrals).

(** One turn of the loop over the gathered samples. *)
Definition visit (integrals : list Integral.t) (arguments : EvalArgs)
    (retvals : list (list sparse.t)) (g : Sample * list nat)
  : Traced.M (list (list sparse.t)) :=
  funcs <- Traced.lift (Py.sequence (map (integrand_of integrals (fst g)) (snd g))) ;;
  results <- integrate_sparse (fst g) funcs arguments ;;
  Traced.lift (Py.for_each append_to (zip (snd g) results) retvals).

Definition eval_integrals_sparse (integrals : list Integral.t) (arguments : EvalArgs)
  : Traced.M (list sparse.t) :=
  retvals <- Traced.for_each (visit integrals arguments)
                             (gather (obligations integrals)) (seed integrals) ;;
  Traced.lift (Py.sequence (map sparse.add retvals)).

(** What an assembled integral becomes. *)
Inductive converted : Type :=
| Array (a : sparse.dense)      (* a scalar or a dense numpy vector *)
| BackendMatrix (m : Matrix)    (* a nutils matrix *)
| SparseData (d : sparse.t).    (* a deduplicated and pruned sparse object *)

Definition _convert (data : sparse.t) (inplace : bool) : converted :=
  let ndim := sparse.ndim data in
  if (ndim <? 2)%nat then Array (sparse.toarray chunksize data)
  else if (ndim =? 2)%nat then BackendMatrix (fromsparse data inplace)
  else SparseData (sparse.prune (sparse.dedup chunksize data inplace) true).

Definition eval_integrals (integrals : list Integral.t) (arguments : EvalArgs)
  : Traced.M (list converted) :=
  retvals <- eval_integrals_sparse integrals arguments ;;
  Traced.ret (map (fun retval => _convert retval true) retvals).

(** [Sample.integrate]. *)
Definition integrate (self : Sample) (funcs : list Func) (arguments : EvalArgs)
  : Traced.M (list converted) :=
  datas <- integrate_sparse self funcs arguments ;;
  Traced.ret (map (fun data => _convert data true) datas).

End Eval.

End sample.

(** ** A small concrete collaborator

    Integrands [c * phi] with an integer coefficient: the sum adds
    coefficients, an integrand is zero when its coefficient is, and its
    blocks are given by the shape of their value on each element. *)

Module Toy.

Record func : Type := mk_func {
  shp : list nat;
  coef : Z;
  arg : option (string * nat);            (* an Argument node: name, _nderiv *)
  deps : list (string * list nat * nat);  (* the Arguments it depends on *)
  blks : list (list (list N))             (* per block, per element: shape *)
}.

Definition argument (name : string) (s : list nat) (nd : nat) : func :=
  mk_func s 1 (Some (name, nd)) [] [].

Definition term (s : list nat) (c : Z) (ds : list (string * list nat * nat))
    (bs : list (list (list N))) : func :=
  mk_func s c None ds bs.

#[export] Instance functions : FunctionCollaborator := {|
  Func := func;
  Block := list (list N);
  EvalArgs := unit;
  fshape := shp;
  iszero := fun f => coef f =? 0;
  simplified := fun f => f;
  fadd := fun f g => mk_func (shp f) (coef f + coef g) None (deps f ++ deps g) (blks f ++ blks g);
  fneg := fun f => mk_func (shp f) (- coef f) None (deps f) (blks f);
  dependencies := fun fs =>
    flat_map (fun f => f :: map (fun d => argument (fst (fst d)) (snd (fst d)) (snd d)) (deps f)) fs;
  argument_name := fun f => fst <$> arg f;
  nderiv := fun f => from_option snd 0%nat (arg f);
  prepare_eval := fun _ f => f;
  blocks := blks;
  block_shape := fun b _ ielem _ => default [0%N] (b !! ielem);
  block_index := fun _ _ ielem _ _ k => (ielem + k)%nat;
  block_integral := fun _ _ _ _ _ => sparse.of_int 1
|}.

#[export] Instance matrices : sample.MatrixCollaborator := {|
  sample.Matrix := sparse.t;
  sample.fromsparse := fun d _ => d
|}.

(** Two elements, used by the examples below. *)
Definition two_elements : Sample := mk_Sample 0 2 1.
Definition one_element : Sample := mk_Sample 1 1 1.

End Toy.

(** ** Example inputs

    The collections of [tests/test_sparse.py] and a few integrands of the
    concrete collaborator. *)

Module Examples.

Import sparse.

Definition rank1 {V} (n : nat) (l : list (nat * V)) : data V :=
  mk_data [n] (map (fun iv => ([iv.1], iv.2)) l).

(** [vector.setUp]: [self.data], of shape [(5,)], integer valued. *)
Definition vector : data Z :=
  rank1 5 [(4%nat, 10); (4%nat, 20); (3%nat, 1); (2%nat, 30); (1%nat, 40); (2%nat, 50); (3%nat, -1); (0%nat, 0); (0%nat, 60)].

(** [test_dedup]. *)
Definition vector_dedup : data Z :=
  rank1 5 [(0%nat, 60); (1%nat, 40); (2%nat, 80); (3%nat, 0); (4%nat, 30)].

(** The binary64 number 0.5. *)
Definition half : float64 := S754_finite false 4503599627370496 (-53).

(** [test_add_float]: [other], floating valued. *)
Definition other : data float64 :=
  rank1 5 [(1%nat, of_int (-40)); (2%nat, half)].

Definition vector_plus_other : data float64 :=
  rank1 5 [(4%nat, of_int 10); (4%nat, of_int 20); (3%nat, of_int 1); (2%nat, of_int 30); (1%nat, of_int 40);
           (2%nat, of_int 50); (3%nat, of_int (-1)); (0%nat, of_int 0); (0%nat, of_int 60);
           (1%nat, of_int (-40)); (2%nat, half)].

(** [test_block]: [B = C], of shape [(3,)]. *)
Definition B : data Z := rank1 3 [(1%nat, 10)].

Definition vector_block : data Z :=
  rank1 11 [(4%nat, 10); (4%nat, 20); (3%nat, 1); (2%nat, 30); (1%nat, 40); (2%nat, 50); (3%nat, -1); (0%nat, 0); (0%nat, 60);
            (6%nat, 10); (9%nat, 10)].

(** A rank-3 collection whose duplicates cancel. *)
Definition cube : data Z :=
  mk_data [2; 2; 2]%nat [([1; 0; 1]%nat, 5); ([0; 1; 1]%nat, 7); ([1; 0; 1]%nat, -5)].

(** Integrands of the concrete collaborator: [f1] has two blocks of 2+2
    and 1+3 records on the two elements, [f2] one block of 4+2 records and
    depends on the argument [u]; [huge] asks for [2^63] records on each of
    the two elements. *)
Definition f1 : Toy.func := Toy.term [4%nat] 1 [] [ [[2]; [2]]; [[1]; [3]] ]%N.
Definition f2 : Toy.func :=
  Toy.term [3; 3]%nat 2 [("u", [3%nat], 0%nat)] [ [[2; 2]; [1; 2]] ]%N.
Definition huge : Toy.func := Toy.term [4%nat] 1 [] [ [[2 ^ 63]; [2 ^ 63]] ]%N.
Definition zero : Toy.func := Toy.term [2%nat] 0 [] [].
Definition g2 : Toy.func := Toy.term [3; 3]%nat 1 [("u", [4%nat], 0%nat)] [].

(** Integrals over them, as their constructor leaves them. *)
Definition int_f1 : sample.Integral.t (FC := Toy.functions) :=
  sample.Integral.mk (FC := Toy.functions) [(Toy.two_elements, f1)] [4%nat].
Definition int_f1_both : sample.Integral.t (FC := Toy.functions) :=
  sample.Integral.mk (FC := Toy.functions) [(Toy.one_element, f1); (Toy.two_elements, f1)] [4%nat].
Definition int_zero : sample.Integral.t (FC := Toy.functions) := sample.Integral.mk (FC := Toy.functions) [] [2%nat].
Definition int_f2 : sample.Integral.t (FC := Toy.functions) :=
  sample.Integral.mk (FC := Toy.functions) [(Toy.two_elements, f2)] [3; 3]%nat.
Definition int_inconsistent : sample.Integral.t (FC := Toy.functions) :=
  sample.Integral.mk (FC := Toy.functions) [(Toy.two_elements, f2); (Toy.one_element, g2)] [3; 3]%nat.

End Examples.

(** ** Notions used in the statements *)

(** The sum of a list of integers. *)
Definition zsum (l : list Z) : Z := foldr Z.add 0 l.

Module Planner.

(** The exception of the overflow check. *)
Definition overflow : exn := Exception "integer overflow".

(** The shared buffers a trace asked for. *)
Definition allocations (tr : list event) : list (Z * list nat) :=
  flat_map (fun ev => match ev with ShEmpty n shp => [(n, shp)] | _ => [] end) tr.

(** The size evaluations of a trace: the element and the number of block
    counts each returned. *)
Definition size_evaluations (tr : list event) : list (nat * nat) :=
  flat_map (fun ev => match ev with SizeEval _ e n => [(e, n)] | _ => [] end) tr.

(** Reading of "the counts are evaluated once per block": as many size
    evaluations as there are blocks. *)
Definition evaluated_once_per_block (nblocks : nat) (tr : list event) : Prop :=
  length (size_evaluations tr) = nblocks.

(** The number of records a row of the count table asks for. *)
Definition row_count (r : list Z) : Z := zsum (tail r).

(** The cumulative count of function [i] in a count table: the records of
    all its blocks. *)
Definition func_total (rows : list (list Z)) (block2func : list nat) (i : nat) : Z :=
  zsum (zip_with (fun r f => if decide (f = i) then row_count r else 0) rows block2func).

(** A row of the count table as the first pass leaves it. *)
Definition count_row (r : list Z) : Prop :=
  exists counts, r = 0 :: counts /\ Forall (fun x => 0 <= x < U64.modulus) counts.

(** The state of the second loop after [k] turns. *)
Definition turns (rows : list (list Z)) (block2func : list nat) (nfuncs k : nat)
  : result (list (list Z) * list Z) :=
  Py.for_each sample.accumulate_row (take k (enumerate block2func))
              (rows, replicate nfuncs 0).

(** The row of turn [k] as [numpy.cumsum] leaves it, before the check,
    provided the earlier turns passed theirs. *)
Definition row_in_turn (rows : list (list Z)) (block2func : list nat) (nfuncs k : nat)
  : option (list Z) :=
  match turns rows block2func nfuncs k, block2func !! k with
  | Ok (t, nv), Some ifunc =>
      match t !! k, nv !! ifunc with
      | Some v, Some n => Some (U64.cumsum (<[0%nat := n]> v))
      | _, _ => None
      end
  | _, _ => None
  end.

Abbreviation total_upto rows b2f k i := (func_total (take k rows) (take k b2f) i).

(** What holds after [k] turns that passed the check: the running totals
    are the true cumulative counts and the rows hold their true prefix
    sums. *)
Record planned (rows : list (list Z)) (b2f : list nat) (nfuncs k : nat)
    (st : list (list Z) * list Z) : Prop := {
  planned_length : length st.1 = length rows;
  planned_rest : forall j, (k <= j)%nat -> st.1 !! j = rows !! j;
  planned_nvals_length : length st.2 = nfuncs;
  planned_nvals : forall i, (i < nfuncs)%nat ->
    st.2 !! i = Some (total_upto rows b2f k i) /\ total_upto rows b2f k i < U64.modulus;
  planned_rows : forall j ifunc counts, (j < k)%nat ->
    b2f !! j = Some ifunc -> rows !! j = Some (0 :: counts) ->
    st.1 !! j = Some (total_upto rows b2f j ifunc :: U64.cumsum_from (total_upto rows b2f j ifunc) counts)
    /\ total_upto rows b2f j ifunc + zsum counts < U64.modulus
}.

Section defs.

Context `{FC : FunctionCollaborator}.

(** The count table the first pass leaves: per block a row holding 0 in
    column 0 and the stored count of element [e] in column [e+1]. *)
Definition size_table (self : Sample) (bs : list (nat * Block)) (arguments : EvalArgs)
  : list (list Z) :=
  map (fun ib => 0 :: map (fun e => U64.wrap (sample.block_size ib.2 self e arguments))
                          (seq 0 (nelems self))) bs.

(** The size evaluations of the first pass: one per element, each
    returning the counts of all blocks; none without blocks. *)
Definition size_events (self : Sample) (bs : list (nat * Block)) : list event :=
  match bs with
  | [] => []
  | _ :: _ => map (fun e => SizeEval self e (length bs)) (seq 0 (nelems self))
  end.

(** The records a block asks for, element by element, and the cumulative
    count of function [i] over all its blocks and all elements, as
    unbounded integers. *)
Definition block_counts (self : Sample) (arguments : EvalArgs) (b : Block) : list Z :=
  map (fun e => sample.block_size b self e arguments) (seq 0 (nelems self)).

Definition func_count (self : Sample) (bs : list (nat * Block)) (arguments : EvalArgs)
    (i : nat) : Z :=
  zsum (map (fun ib => if decide (ib.1 = i) then zsum (block_counts self arguments ib.2) else 0) bs).

(** No cumulative count leaves the range of a 64-bit counter. *)
Definition no_wrap (self : Sample) (funcs : list Func) (arguments : EvalArgs) : Prop :=
  forall i, func_count self (sample.all_blocks (sample._prepare_funcs self funcs)) arguments i
            < U64.modulus.

Definition fresh_buffer (funcs : list Func) (ifunc_n : nat * Z) : list sample.record :=
  replicate (Z.to_nat ifunc_n.2)
    (replicate (length (default [] (fshape <$> funcs !! ifunc_n.1))) 0%nat, S754_zero false).

Definition alloc_event (funcs : list Func) (ifunc_n : nat * Z) : event :=
  ShEmpty ifunc_n.2 (default [] (fshape <$> funcs !! ifunc_n.1)).

(** The ranges of the offset table fit the buffers: what the second
    element loop needs to run through. *)
Definition fits (self : Sample) (arguments : EvalArgs) (bs : list (nat * Block))
    (offsets : list (list Z)) (lens : list nat) : Prop :=
  forall iblock ifunc b, bs !! iblock = Some (ifunc, b) ->
    exists row len, offsets !! iblock = Some row /\ lens !! ifunc = Some len /\
      forall e, (e < nelems self)%nat ->
        exists start stop, row !! e = Some start /\ row !! S e = Some stop /\
          0 <= start /\ stop <= Z.of_nat len /\
          stop - start = sample.block_size b self e arguments.

End defs.

End Planner.

Module Merge.

Import sparse.

Section defs.

Context {V : Type} `{Scalar V}.

(** The values recorded under index tuple [k], in storage order. *)
Definition group (k : index) (l : list (index * V)) : list V :=
  map snd (filter (fun kv => kv.1 = k) l).

(** [sum_of l v]: [v] is obtained by adding up the values [l], each used
    once, in some order and bracketing. *)
Inductive sum_of : list V -> V -> Prop :=
| sum_one v : sum_of [v] v
| sum_add l1 l2 l a b :
    sum_of l1 a -> sum_of l2 b -> Permutation l (l1 ++ l2) -> sum_of l (vadd a b).

(** Records in strictly ascending lexicographic order of index tuple. *)
Definition key_lt (a b : index * V) : Prop := lex_lt a.1 b.1.
Definition ascending (l : list (index * V)) : Prop := StronglySorted key_lt l.

Definition union_value (a b : option V) : option V :=
  match a, b with
  | Some x, Some y => Some (vadd x y)
  | Some x, None => Some x
  | None, b => b
  end.

(** A run stands for the records it was built from: ascending, and under
    every index tuple the sum of that tuple's group. *)
Definition represents (r l : list (index * V)) : Prop :=
  ascending r /\
  forall k, match lookup_index k r with
            | Some v => sum_of (group k l) v
            | None => group k l = []
            end.

(** Shifting a record along axis 0. *)
Definition shift0 (n : nat) (kv : index * V) : index * V :=
  (match kv.1 with [] => [] | i :: rest => (n + i)%nat :: rest end, kv.2).

End defs.

End Merge.

Module Postponed.

Import sample.Integral.

Section defs.

Context `{FC : FunctionCollaborator}.

Definition keys (d : dict) : list Sample := map fst d.

(** An integrand that survives construction: not identically zero. *)
Definition keep (f : Func) : option Func := if iszero f then None else Some f.

(** The values reachable as [Integral]s: those the constructor builds. *)
Definition is_Integral (a : t) : Prop :=
  exists items shp, __init__ items shp = Ok a.

(** The loop of [__add__] on one Sample: terms of both operands summed,
    a term of one operand kept. *)
Definition merge_terms (a b : option Func) : option Func :=
  match a, b with
  | Some f, Some g => Some (fadd f g)
  | Some f, None => Some f
  | None, g => g
  end.

(** What the constructor makes of a term: simplified, dropped when zero. *)
Definition constructed (o : option Func) : option Func :=
  match o with
  | Some h => keep (simplified h)
  | None => None
  end.

(** The argument shape under which a dependency stands for its variable:
    [func.shape[:func.ndim-func._nderiv]]. *)
Definition argshape_of (func : Func) : list nat :=
  slice_to (Z.of_nat (length (fshape func)) - Z.of_nat (nderiv func)) (fshape func).

(** The named free variable occurs in some term, as dependency [func]. *)
Definition occurrence (self : t) (name : string) (func : Func) : Prop :=
  func ∈ dependencies (map snd (_integrands self)) /\ argument_name func = Some name.

Definition occurs (self : t) (name : string) : Prop :=
  exists func, occurrence self name func.

(** What holds of the result lists of [eval_integrals_sparse] throughout
    the loop over the samples: one list per integral, headed by the empty
    collection of the declared shape, every member of that shape; no
    member besides while the integral has no term. *)
Definition seeded (integrals : list t) (retvals : list (list sparse.t)) : Prop :=
  length retvals = length integrals /\
  forall i integral, integrals !! i = Some integral ->
    exists contributions,
      retvals !! i = Some (sparse.empty (shape integral) :: contributions)
      /\ Forall (fun r => sparse.shape r = shape integral) contributions
      /\ (_integrands integral = [] -> contributions = []).

(** The integrands handed to [integrate_sparse] when a sample is visited. *)
Definition funcs_for (integrals : list t) (s : Sample) (iints : list nat)
  : list Func :=
  flat_map (fun iint => match sample.integrand_of integrals s iint with
                        | Ok f => [f]
                        | Raise _ => []
                        end) iints.

(** No assembly of an evaluation wraps a counter. *)
Definition no_wrap_all (integrals : list t) (arguments : EvalArgs) : Prop :=
  forall s iints, (s, iints) ∈ sample.gather (sample.obligations integrals) ->
    Planner.no_wrap s (funcs_for integrals s iints) arguments.

End defs.

End Postponed.

(** ** [nutils/sample.py]: the remaining methods of [Integral] *)

(** What these methods use of [nutils.function] and of Python's numbers,
    besides the collaborators of the assembly. *)
Class FunctionAlgebra `{FC : FunctionCollaborator} : Type := {
  Number : Type;                               (* numbers.Number *)
  fmul : Func -> Number -> Func;               (* integrand * other *)
  reciprocal : Number -> result Number;        (* 1/other *)
  fderivative : Func -> string -> list nat -> Func;
    (* function.derivative(integrand, var=function.Argument(target, argshape), seen=seen) *)
  replace_arguments : Func -> EvalArgs -> Func;  (* function.replace_arguments *)
  transpose : Func -> Func                     (* func.T *)
}.

Module IntegralMethods.

Import sample.Integral.

Section methods.

Context `{FA : FunctionAlgebra}.

(** [{di: h(integrand) for di, integrand in self._integrands.items()}]. *)
Definition map_integrands (h : Func -> Func) (self : t) : list (Sample * Func) :=
  map (fun kv => (fst kv, h (snd kv))) (_integrands self).

(** [Integral.derivative]; the dictionary [seen] is a cache of the
    differentiation, shared by the terms. *)
Definition derivative (self : t) (target : string) : result t :=
  Py.bind (_argshape self target) (fun argshape =>
    __init__ (map_integrands (fun integrand => fderivative integrand target argshape) self)
             (shape self ++ argshape)).

Definition replace (self : t) (arguments : EvalArgs) : result t :=
  __init__ (map_integrands (fun integrand => replace_arguments integrand arguments) self)
           (shape self).

(** [__mul__] on a number; any other operand is left to Python's
    [NotImplemented] protocol. *)
Definition __mul__ (self : t) (other : Number) : result t :=
  __init__ (map_integrands (fun integrand => fmul integrand other) self) (shape self).

Definition __rmul__ (self : t) (other : Number) : result t := __mul__ self other.

Definition __truediv__ (self : t) (other : Number) : result t :=
  Py.bind (reciprocal other) (__mul__ self).

Definition T (self : t) : result t :=
  __init__ (map_integrands transpose self) (rev (shape self)).

(** [Sample.integral]. *)
Definition integral (self : Sample) (func : Func) : result t :=
  __init__ [(self, func)] (fshape func).

End methods.

Section eval.

Context `{FC : FunctionCollaborator} `{MC : sample.MatrixCollaborator}.

Variable chunksize : nat.

(** [Integral.eval]: [retval, = eval_integrals(self, **kwargs)]. *)
Definition eval (self : t) (arguments : EvalArgs) : Traced.M sample.converted :=
  retvals <- sample.eval_integrals chunksize [self] arguments ;;
  match retvals with
  | [retval] => Traced.ret retval
  | [] => Traced.lift (Raise (ValueError "not enough values to unpack (expected 1, got 0)"))
  | _ :: _ :: _ => Traced.lift (Raise (ValueError "too many values to unpack (expected 1)"))
  end.

End eval.

End IntegralMethods.

(** ** [nutils/sample.py]: construction and point indices of a [Sample] *)

Module SampleObject.

(** What the constructors use of [nutils.transformseq] and
    [nutils.pointsseq]. *)
Class TopologyCollaborator : Type := {
  Transforms : Type;                 (* transformseq.Transforms *)
  tlen : Transforms -> nat;          (* len(t) *)
  fromdims : Transforms -> nat;      (* t.fromdims *)
  tselect : Transforms -> list Z -> result Transforms;    (* t[selection] *)
  PointsSequence : Type;             (* pointsseq.PointsSequence *)
  point_counts : PointsSequence -> list nat;       (* [p.npoints for p in points] *)
  ptake : PointsSequence -> list Z -> result PointsSequence  (* points.take(selection) *)
}.

(** Decimal notation of a length, as [str.format] writes it. *)
Definition decimal (n : nat) : string := NilZero.string_of_int (Z.to_int (Z.of_nat n)).

(** [a[i]] on a tuple or a one-dimensional array: a negative index counts
    from the end, an index outside [-len, len) raises. *)
Definition getitem {A} (a : list A) (i : Z) : result A :=
  let n := Z.of_nat (length a) in
  let j := if i <? 0 then i + n else i in
  if (0 <=? j) && (j <? n) then
    match a !! Z.to_nat j with
    | Some x => Ok x
    | None => Raise IndexError
    end
  else Raise IndexError.

(** [numpy.arange(a, b)] on integers. *)
Definition arange (a b : Z) : list Z :=
  map (fun k => a + Z.of_nat k) (seq 0 (Z.to_nat (b - a))).

(** [numpy.cumsum] of a list of integers, held in 64-bit signed
    integers. *)
Fixpoint cumsum_from (acc : Z) (v : list Z) : list Z :=
  match v with
  | [] => []
  | x :: v' => let s := sparse.int64_wrap (acc + x) in s :: cumsum_from s v'
  end.

Section SampleObject.

Context `{TC : TopologyCollaborator}.

(** The two subclasses of [Sample]. *)
Inductive indexing : Type :=
| _DefaultIndex
| _CustomIndex (_index : list (list Z)).

Record t : Type := mk {
  cls : indexing;
  nelems : nat;
  transforms : list Transforms;
  points : PointsSequence;
  ndims : nat
}.

(** [len(points)]. *)
Definition npointsets (points : PointsSequence) : nat := length (point_counts points).

(** [Sample.__init__]. *)
Definition __init__ (cls : indexing) (transforms : list Transforms)
    (points : PointsSequence) : result t :=
  if negb (1 <=? length transforms)%nat then Raise (AssertionError "")
  else if negb (forallb (fun t => (tlen t =? npointsets points)%nat) transforms)
  then Raise (AssertionError "")
  else
    match transforms with
    | t0 :: _ => Ok (mk cls (tlen t0) transforms points (fromdims t0))
    | [] => Raise IndexError
    end.

(** [_CustomIndex.__init__]. *)
Definition _CustomIndex__init__ (transforms : list Transforms)
    (points : PointsSequence) (index : list (list Z)) : result t :=
  if negb (length index =? npointsets points)%nat then
    Raise (ValueError ("expected an `index` with " +:+ decimal (npointsets points)
                       +:+ " items but got " +:+ decimal (length index)))
  else if negb (forallb (fun ip => (length (fst ip) =? snd ip)%nat)
                        (zip index (point_counts points)))
  then Raise (ValueError "lengths of indices does not match number of points per element")
  else __init__ (_CustomIndex index) transforms points.

(** [Sample.new]. *)
Definition new (transforms : list Transforms) (points : PointsSequence)
    (index : option (list (list Z))) : result t :=
  match index with
  | None => __init__ _DefaultIndex transforms points
  | Some index => _CustomIndex__init__ transforms points index
  end.

(** [_DefaultIndex.offsets]. *)
Definition offsets (self : t) : list Z :=
  cumsum_from 0 (0 :: map Z.of_nat (point_counts (points self))).

(** [getindex] of either subclass. *)
Definition getindex (self : t) (ielem : Z) : result (list Z) :=
  match cls self with
  | _DefaultIndex =>
      Py.bind (getitem (offsets self) ielem) (fun a =>
      Py.bind (getitem (offsets self) (ielem + 1)) (fun b =>
      Ok (arange a b)))
  | _CustomIndex _index => getitem _index ielem
  end.

(** The property [index]: [tuple(map(self.getindex, range(self.nelems)))],
    overridden by [_CustomIndex]. *)
Definition index (self : t) : result (list (list Z)) :=
  match cls self with
  | _DefaultIndex =>
      Py.sequence (map (fun ielem => getindex self (Z.of_nat ielem)) (seq 0 (nelems self)))
  | _CustomIndex _index => Ok _index
  end.

(** [mask[indices].any()] on a one-dimensional boolean array. *)
Definition mask_any (mask : list bool) (indices : list Z) : result bool :=
  Py.bind (Py.sequence (map (getitem mask) indices)) (fun marks => Ok (existsb id marks)).

(** [[ielem for ielem in range(self.nelems) if mask[self.getindex(ielem)].any()]]. *)
Definition selection (self : t) (mask : list bool) : result (list Z) :=
  Py.for_each
    (fun selected ielem =>
       Py.bind (getindex self (Z.of_nat ielem)) (fun indices =>
       Py.bind (mask_any mask indices) (fun marked =>
       Ok (if marked then selected ++ [Z.of_nat ielem] else selected))))
    (seq 0 (nelems self)) [].

(** [Sample.subset]. *)
Definition subset (self : t) (mask : list bool) : result t :=
  Py.bind (selection self mask) (fun selection =>
  Py.bind (Py.sequence (map (fun transform => tselect transform selection) (transforms self)))
    (fun transforms =>
  Py.bind (ptake (points self) selection) (fun points =>
  new transforms points None))).

End SampleObject.

End SampleObject.

(** ** [nutils/cli.py] *)

Module cli.

(** A Python [str]: a sequence of code points. *)
Definition str : Type := list N.

(** An ASCII literal. *)
Definition lit (s : string) : str :=
  map (fun c => N.of_nat (Ascii.nat_of_ascii c)) (String.list_ascii_of_string s).

(** The argument of [sys.exit]: a status, or a message for the error
    stream (status 1). *)
Inductive exit_arg : Type :=
| Status (code : Z)
| Message (msg : str).

Inductive exn : Type :=
| SystemExit (arg : exit_arg)
| KeyboardInterrupt
| EOFError
| ValueError
| IndexError
| AssertionError (msg : string).

Inductive outcome (A : Type) : Type :=
| Returns (a : A)
| Raises (e : exn).

Arguments Returns {A} a.
Arguments Raises {A} e.

(** *** [_mkbox] *)

(** [s.ljust(w)]. *)
Definition ljust (w : nat) (s : str) : str := s ++ replicate (w - length s) 32%N.

(** [sep.join(rows)]. *)
Definition join (sep : str) (rows : list str) : str :=
  match rows with
  | [] => []
  | row :: rows' => row ++ flat_map (fun r => sep ++ r) rows'
  end.

(** The six characters of the frame, [ul, ur, ll, lr, hh, vv]: box
    drawings, or ASCII [++++-|]. *)
Definition frame (richoutput : bool) : N * N * N * N * N * N :=
  if richoutput then (9484, 9488, 9492, 9496, 9472, 9474)%N
  else (43, 43, 43, 43, 45, 124)%N.

Definition _mkbox (lines : list str) (richoutput : bool) : outcome str :=
  match lines with
  | [] => Raises ValueError   (* max() of an empty sequence *)
  | _ :: _ =>
      let width := foldr Nat.max 0%nat (map length lines) in
      let '(ul, ur, ll, lr, hh, vv) := frame richoutput in
      Returns (join [10%N]
                 ([[ul] ++ replicate (width + 2) hh ++ [ur]]
                  ++ map (fun line => [vv] ++ ljust (width + 2) (32%N :: line) ++ [vv]) lines
                  ++ [[ll] ++ replicate (width + 2) hh ++ [lr]]))
  end.

(** *** [_timer.__str__] *)

(** [str(n)] and ['{:02d}'.format(n)] for an integer. *)
Definition str_of_int (n : Z) : str := lit (NilZero.string_of_int (Z.to_int n)).

Definition format_02d (n : Z) : str :=
  let s := str_of_int n in
  match s with
  | 45%N :: digits => 45%N :: replicate (1 - length digits) 48%N ++ digits
  | _ => replicate (2 - length s) 48%N ++ s
  end.

(** [__str__] at [seconds = int(time.perf_counter() - self.t0)] whole
    seconds after construction. *)
Definition _timer__str__ (seconds : Z) : str :=
  let minutes := seconds / 60 in
  let seconds := seconds mod 60 in
  let hours := minutes / 60 in
  let minutes := minutes mod 60 in
  str_of_int hours ++ lit ":" ++ format_02d minutes ++ lit ":" ++ format_02d seconds.

(** *** Signals, the console and the debugger *)

Inductive handler : Type :=
| SIG_IGN
| SIG_DFL
| Callable (id : nat).

Inductive event : Type :=
| Printed (line : str)        (* print(line) *)
| Prompted (prompt : str)     (* the prompt of input(prompt) *)
| SetTrace.                   (* pdb.set_trace() *)

(** The process as this module sees it: the installed signal handlers,
    the lines still to be read from the console, and what was written
    and called so far. *)
Record world : Type := mk_world {
  handlers : N -> handler;
  stdin : list str;
  log : list event
}.

Definition M (A : Type) : Type := world -> outcome A * world.

Definition ret {A} (a : A) : M A := fun w => (Returns a, w).

Definition raise {A} (e : exn) : M A := fun w => (Raises e, w).

Definition bind {A B} (m : M A) (k : A -> M B) : M B :=
  fun w =>
    match m w with
    | (Returns a, w') => k a w'
    | (Raises e, w') => (Raises e, w')
    end.

Definition of_outcome {A} (o : outcome A) : M A := fun w => (o, w).

Definition emit (e : event) : M unit :=
  fun w => (Returns tt, mk_world (handlers w) (stdin w) (log w ++ [e])).

(** [signal.signal(s, handler)]: installs the handler, returns the
    previous one. *)
Definition signal (s : N) (h : handler) : M handler :=
  fun w =>
    (Returns (handlers w s),
     mk_world (fun s' => if decide (s' = s) then h else handlers w s') (stdin w) (log w)).

(** [input(prompt)]. *)
Definition input (prompt : str) : M str :=
  fun w =>
    match stdin w with
    | [] => (Raises EOFError, mk_world (handlers w) [] (log w ++ [Prompted prompt]))
    | line :: rest => (Returns line, mk_world (handlers w) rest (log w ++ [Prompted prompt]))
    end.

(** The context manager [_signal_handler]: [finally] restores the
    previous handler however the body ends. *)
Definition _signal_handler {A} (s : N) (h : handler) (body : M A) : M A :=
  bind (signal s h) (fun oldhandler =>
  fun w =>
    match body w with
    | (o, w') =>
        match signal s oldhandler w' with
        | (_, w'') => (o, w'')
        end
    end).

Definition question : str := lit "interrupted. quit, continue or start debugger? [q/c/d]".

(** The loop of [_breakpoint]: asks until the answer is one of
    [q], [c], [d]; every question consumes a line of the console. *)
Fixpoint ask (lines : list str) (asked : list event) : outcome str * list str * list event :=
  match lines with
  | [] => (Raises EOFError, [], asked ++ [Prompted question])
  | answer :: rest =>
      let asked := asked ++ [Prompted question] in
      if decide (answer = lit "q") then (Raises KeyboardInterrupt, rest, asked)
      else if decide (answer = lit "c") then (Returns answer, rest, asked)
      else if decide (answer = lit "d") then (Returns answer, rest, asked)
      else ask rest asked
  end.

Definition ask_loop : M str :=
  fun w =>
    match ask (stdin w) [] with
    | (o, rest, asked) => (o, mk_world (handlers w) rest (log w ++ asked))
    end.

Definition tracing_activated : list str :=
  map lit
    ["TRACING ACTIVATED. Use the Python debugger";
     "to step through the code at source line";
     "level, list source code, set breakpoints,";
     "and evaluate arbitrary Python code in the";
     "context of any stack frame. Type " +:+ String (Ascii.ascii_of_nat 34) "h"
       +:+ String (Ascii.ascii_of_nat 34) " for";
     "an overview of commands to get going, or";
     String (Ascii.ascii_of_nat 34) "c" +:+ String (Ascii.ascii_of_nat 34)
       " to continue uninterrupted execution."].

(** [_breakpoint(richoutput, mysignal, frame)]. *)
Definition _breakpoint (richoutput : bool) (mysignal : N) : M unit :=
  _signal_handler mysignal SIG_IGN
    (bind ask_loop (fun answer =>
     if decide (answer = lit "d") then
       bind (of_outcome (_mkbox tracing_activated richoutput)) (fun box =>
       bind (emit (Printed box)) (fun _ =>
       emit SetTrace))
     else ret tt)).

(** *** The command line of [run] and [choose] *)

(** A [dict] with string keys, in insertion order. *)
Definition dict (V : Type) : Type := list (str * V).

Fixpoint dict_get {V} (k : str) (d : dict V) : option V :=
  match d with
  | [] => None
  | (k', v) :: d' => if decide (k = k') then Some v else dict_get k d'
  end.

Fixpoint dict_set {V} (k : str) (v : V) (d : dict V) : dict V :=
  match d with
  | [] => [(k, v)]
  | (k', v') :: d' =>
      if decide (k = k') then (k', v) :: d' else (k', v') :: dict_set k v d'
  end.

(** [d.update(other)]. *)
Definition update {V} (d other : dict V) : dict V :=
  foldl (fun d kv => dict_set (fst kv) (snd kv) d) d other.

(** [k in d]. *)
Definition contains {V} (k : str) (d : dict V) : bool :=
  match dict_get k d with Some _ => true | None => false end.

(** [s.lstrip(c)] for one character. *)
Fixpoint lstrip (c : N) (s : str) : str :=
  match s with
  | [] => []
  | x :: s' => if decide (x = c) then lstrip c s' else s
  end.

(** [s.partition(sep)] for a separator of one character. *)
Fixpoint partition (sep : N) (s : str) : str * str * str :=
  match s with
  | [] => ([], [], [])
  | x :: s' =>
      if decide (x = sep) then ([], [sep], s')
      else match partition sep s' with (head, found, tail) => (x :: head, found, tail) end
  end.

(** [s.startswith(prefix)]. *)
Definition startswith (prefix s : str) : bool := bool_decide (take (length prefix) s = prefix).

Section run.

(** ['{!r}'.format(s)]. *)
Variable repr : str -> str.

(** The declared type of a parameter, and [stringly.loads]. *)
Variable Annotation : Type.
Variable Value : Type.
Variable loads : Annotation -> str -> Value + str.

(** One turn of [for arg in args] in [run]. *)
Definition parse_arg (types : dict Annotation) (strargs : dict str) (arg : str)
  : M (dict str) :=
  match partition 61%N (lstrip 45%N arg) with
  | (name, sep, value) =>
      match sep with
      | [] =>
          if contains name types then ret (dict_set name (lit "yes") strargs)
          else if startswith (lit "no") name && contains (drop 2 name) types
          then ret (dict_set (drop 2 name) (lit "no") strargs)
          else
            bind (emit (Printed (lit "argument " ++ repr name ++ lit " requires a value")))
                 (fun _ => raise (SystemExit (Status 2)))
      | _ :: _ => ret (dict_set name value strargs)
      end
  end.

Fixpoint for_each {A S} (body : S -> A -> M S) (xs : list A) (acc : S) : M S :=
  match xs with
  | [] => ret acc
  | x :: xs' => bind (body acc x) (for_each body xs')
  end.

(** The string arguments of [run], on a command line without [-h] and
    [--help] and after the script name is taken off: the defaults of the
    docstring, a leading preset, then the command line. *)
Definition collect_strargs (defaults : dict str) (presets : dict (dict str))
    (types : dict Annotation) (args : list str) : M (dict str) :=
  match args with
  | first :: rest =>
      match dict_get first presets with
      | Some preset => for_each (parse_arg types) rest (update defaults preset)
      | None => for_each (parse_arg types) args defaults
      end
  | [] => ret defaults
  end.

(** [run] from the request for help to the string arguments: a command
    line that holds [-h] or [--help] anywhere prints the usage and ends the
    program with status 1 before an argument is read.  [usage] is the text
    joined from the list [usage], which is made from the script name, the
    docstring and the signature of the function. *)
Definition run_strargs (usage : str) (defaults : dict str) (presets : dict (dict str))
    (types : dict Annotation) (args : list str) : M (dict str) :=
  if bool_decide (lit "-h" ∈ args) || bool_decide (lit "--help" ∈ args)
  then bind (emit (Printed usage)) (fun _ => raise (SystemExit (Status 1)))
  else collect_strargs defaults presets types args.

(** The typed arguments of [run]: every string argument is parsed at its
    declared type and handed to the function or to [setup]. *)
Definition assign_arg (types : dict Annotation) (parameters : list str)
    (acc : dict Value * dict Value) (item : str * str)
  : M (dict Value * dict Value) :=
  let (name, s) := item in
  let (funcargs, setupargs) := acc in
  match dict_get name types with
  | None => raise (SystemExit (Message (lit "unexpected argument: " ++ name)))
  | Some annotation =>
      match loads annotation s with
      | inr e => bind (emit (Printed e)) (fun _ => raise (SystemExit (Status 2)))
      | inl value =>
          if bool_decide (name ∈ parameters)
          then ret (dict_set name value funcargs, setupargs)
          else ret (funcargs, dict_set name value setupargs)
      end
  end.

Definition assign_args (types : dict Annotation) (parameters : list str)
    (setupargs : dict Value) (strargs : dict str) : M (dict Value * dict Value) :=
  for_each (assign_arg types parameters) strargs ([], setupargs).

(** [choose] on its functions and arguments, with [run] as its
    continuation. *)
Variable Function : Type.
Variable __name__ : Function -> str.
Variable run : Function -> list str -> bool -> M unit.

Definition funcnames (functions : list Function) : dict Function :=
  foldl (fun d func => dict_set (__name__ func) func d) [] functions.

Definition choose (functions : list Function) (args : list str) (loaduserconfig : bool)
  : M unit :=
  match functions with
  | [] => raise (AssertionError "no functions specified")
  | _ :: _ =>
      let usage prog :=
        bind (emit (Printed (lit "USAGE: " ++ prog ++ lit " ["
                             ++ join (lit "|") (map fst (funcnames functions))
                             ++ lit "] (...)")))
             (fun _ => raise (SystemExit (Status 1))) in
      match args with
      | [] => raise IndexError
      | [prog] => usage prog
      | prog :: funcname :: rest =>
          if decide (funcname = lit "-h") then usage prog
          else if decide (funcname = lit "--help") then usage prog
          else
            match dict_get funcname (funcnames functions) with
            | None =>
                bind (emit (Printed (lit "invalid argument " ++ repr funcname
                                     ++ lit "; choose from "
                                     ++ join (lit ", ") (map fst (funcnames functions)))))
                     (fun _ => raise (SystemExit (Status 2)))
            | Some func => run func (prog :: rest) loaduserconfig
            end
      end
  end.

End run.

End cli.

(** ** [lower/_ir.py]: the array expressions of the lowered representation *)

Module lower_ir.

Inductive exn : Type :=
| ValueError
| NameError (name : string)
| AttributeError (name : string)
| AssertionError.

Inductive outcome (A : Type) : Type :=
| Returns (a : A)
| Raises (e : exn).

Arguments Returns {A} a.
Arguments Raises {A} e.

Definition bind {A B} (o : outcome A) (k : A -> outcome B) : outcome B :=
  match o with
  | Returns a => k a
  | Raises e => Raises e
  end.

(** [l[k:]] with Python's reading of a negative bound. *)
Definition slice_from {A} (k : Z) (l : list A) : list A :=
  if k <? 0 then drop (Z.to_nat (Z.of_nat (length l) + k)) l
  else drop (Z.to_nat k) l.

(** [DType = Type[Union[bool, int, float]]]. *)
Inductive DType : Type := dbool | dint | dfloat.

#[export] Instance DType_eq_dec : EqDecision DType.
Proof. solve_decision. Defined.

Inductive scalar : Type :=
| Bool (b : bool)
| Int (n : Z)
| Float (x : spec_float).

(** A [numpy.ndarray]: shape, element type and the entries in row-major
    order. *)
Record ndarray : Type := mk_ndarray {
  nd_shape : list Z;
  nd_dtype : DType;
  nd_data : list scalar
}.

Definition one : scalar := Float (S754_finite false 4503599627370496 (-52)).
Definition zero : scalar := Float (S754_zero false).

(** [numpy.zeros(shape)] and [numpy.ones(shape)], of floating type: a
    negative extent is refused.  An array too large for the memory of the
    machine is outside this model. *)
Definition filled (x : scalar) (shape : list Z) : outcome ndarray :=
  if forallb (fun n => 0 <=? n) shape
  then Returns (mk_ndarray shape dfloat (replicate (Z.to_nat (foldr Z.mul 1 shape)) x))
  else Raises ValueError.

Definition zeros : list Z -> outcome ndarray := filled zero.
Definition ones : list Z -> outcome ndarray := filled one.

(** The classes of the module; an instance holds its arguments, its
    [shape] and [dtype] follow from them. *)
Inductive Array : Type :=
| Dummy (shape : list Z) (dtype : DType)
| Argument (name : string) (shape : list Z) (dtype : DType)
| Constant (value : ndarray)
| InsertAxis (arg : Array) (axis length : Z)
| Sum (arg : Array) (axis : Z)
| Neg (arg : Array)
| Add (array1 array2 : Array)
| Mul (array1 array2 : Array)
| Sin (arg : Array)
| Cos (arg : Array).

(** [self.shape], as the constructors compute it. *)
Fixpoint shape (a : Array) : list Z :=
  match a with
  | Dummy shape _ => shape
  | Argument _ shape _ => shape
  | Constant value => nd_shape value
  | InsertAxis arg axis length =>
      slice_to axis (shape arg) ++ [length] ++ slice_from (axis + 1) (shape arg)
  | Sum arg axis => slice_to axis (shape arg) ++ slice_from (axis + 1) (shape arg)
  | Neg arg => shape arg
  | Add array1 _ => shape array1
  | Mul array1 _ => shape array1
  | Sin arg => shape arg
  | Cos arg => shape arg
  end.

(** [self.dtype]. *)
Fixpoint dtype (a : Array) : DType :=
  match a with
  | Dummy _ dtype => dtype
  | Argument _ _ dtype => dtype
  | Constant value => nd_dtype value
  | InsertAxis arg _ _ => dtype arg
  | Sum arg _ => dtype arg
  | Neg arg => dtype arg
  | Add array1 _ => dtype array1
  | Mul array1 _ => dtype array1
  | Sin _ => dfloat
  | Cos _ => dfloat
  end.

(** The constructors of [Add] and [Mul]:
    [assert array1.shape == array2.shape]. *)
Definition Add__init__ (array1 array2 : Array) : outcome Array :=
  if decide (shape array1 = shape array2) then Returns (Add array1 array2)
  else Raises AssertionError.

Definition Mul__init__ (array1 array2 : Array) : outcome Array :=
  if decide (shape array1 = shape array2) then Returns (Mul array1 array2)
  else Raises AssertionError.

(** [_append_axes]. *)
Definition _append_axes (array : Array) (shp : list Z) : Array :=
  foldl (fun array n => InsertAxis array (Z.of_nat (length (shape array))) n) array shp.

(** [var == self] for an [Argument] [self]: [Argument.__eq__]. *)
Definition Argument__eq__ (var : Array) (name : string) (shp : list Z) (dt : DType) : bool :=
  match var with
  | Argument name' shp' dt' =>
      bool_decide (name' = name) && bool_decide (shp' = shp) && bool_decide (dt' = dt)
  | _ => false
  end.

(** [derivative] of every class.  [Neg] never stores its argument, and
    [Add] and [Mul] read theirs from names that are not bound. *)
Fixpoint derivative (self var : Array) : outcome Array :=
  match self with
  | Dummy _ _ => Raises ValueError
  | Argument name shp dt =>
      bind ((if Argument__eq__ var name shp dt then ones else zeros) (shp ++ shape var))
           (fun value => Returns (Constant value))
  | Constant value =>
      bind (zeros (nd_shape value ++ shape var)) (fun value => Returns (Constant value))
  | InsertAxis arg axis length =>
      bind (derivative arg var) (fun d => Returns (InsertAxis d axis length))
  | Sum arg axis => bind (derivative arg var) (fun d => Returns (Sum d axis))
  | Neg _ => Raises (AttributeError "arg")
  | Add _ _ => Raises (NameError "array1")
  | Mul _ _ => Raises (NameError "array1")
  | Sin arg =>
      let factor := _append_axes (Cos arg) (shape var) in
      bind (derivative arg var) (fun d => Mul__init__ factor d)
  | Cos arg =>
      let factor := _append_axes (Neg (Sin arg)) (shape var) in
      bind (derivative arg var) (fun d => Mul__init__ factor d)
  end.

(** [type(self).__name__]. *)
Definition __name__ (a : Array) : string :=
  match a with
  | Dummy _ _ => "Dummy"
  | Argument _ _ _ => "Argument"
  | Constant _ => "Constant"
  | InsertAxis _ _ _ => "InsertAxis"
  | Sum _ _ => "Sum"
  | Neg _ => "Neg"
  | Add _ _ => "Add"
  | Mul _ _ => "Mul"
  | Sin _ => "Sin"
  | Cos _ => "Cos"
  end.

(** The arguments handed to [Array.__init__]. *)
Definition args (a : Array) : list Array :=
  match a with
  | Dummy _ _ | Argument _ _ _ | Constant _ => []
  | InsertAxis arg _ _ | Sum arg _ | Neg arg | Sin arg | Cos arg => [arg]
  | Add array1 array2 | Mul array1 array2 => [array1; array2]
  end.

Definition newline : string := String (Ascii.ascii_of_nat 10) EmptyString.

(** [asciitree]. *)
Fixpoint asciitree (self : Array) (prefix : string) : string :=
  let sub arg := asciitree arg (prefix +:+ "  ") in
  prefix +:+ __name__ self +:+ newline +:+
  match self with
  | Dummy _ _ | Argument _ _ _ | Constant _ => ""
  | InsertAxis arg _ _ | Sum arg _ | Neg arg | Sin arg | Cos arg => sub arg
  | Add array1 array2 | Mul array1 array2 => sub array1 +:+ sub array2
  end.

End lower_ir.

(** ** The concrete collaborator, continued

    Numbers are integers, of which only the units have a reciprocal; the
    derivative to a variable keeps the coefficient of an integrand that
    depends on the variable and is zero otherwise. *)

Module ToyAlgebra.

Definition depends_on (f : Toy.func) (target : string) : bool :=
  existsb (fun d => bool_decide (fst (fst d) = target)) (Toy.deps f).

Definition scale (f : Toy.func) (c : Z) : Toy.func :=
  Toy.mk_func (Toy.shp f) (Toy.coef f * c) None (Toy.deps f) (Toy.blks f).

Definition unit_reciprocal (c : Z) : result Z :=
  if c =? 0 then Raise (Exception "division by zero")
  else if Z.abs c =? 1 then Ok c
  else Raise (ValueError "not a unit").

Definition differentiate (f : Toy.func) (target : string) (argshape : list nat) : Toy.func :=
  Toy.mk_func (Toy.shp f ++ argshape) (if depends_on f target then Toy.coef f else 0)
              None (Toy.deps f) [].

Definition transposed (f : Toy.func) : Toy.func :=
  Toy.mk_func (rev (Toy.shp f)) (Toy.coef f) None (Toy.deps f) (Toy.blks f).

#[export] Instance algebra : FunctionAlgebra (FC := Toy.functions) :=
  Build_FunctionAlgebra Toy.functions Z scale unit_reciprocal differentiate
    (fun f _ => f) transposed.

End ToyAlgebra.

(** Chains of transformations given by their length and dimension, point
    sets by their numbers of points. *)

Module ToyTopology.

Definition select (t : nat * nat) (selection : list Z) : result (nat * nat) :=
  Ok (length selection, snd t).

Definition take_points (points : list nat) (selection : list Z) : result (list nat) :=
  Py.sequence (map (SampleObject.getitem points) selection).

#[export] Instance topology : SampleObject.TopologyCollaborator :=
  SampleObject.Build_TopologyCollaborator (nat * nat) fst snd select
    (list nat) (fun points => points) take_points.

End ToyTopology.

(** ** Notions used in the further statements *)

Module Assembly.

Section defs.

Context `{FC : FunctionCollaborator}.

(** The records of one block: element after element, each element's
    local tensor in row-major order. *)
Definition block_records (self : Sample) (arguments : EvalArgs) (b : Block)
  : list sample.record :=
  flat_map (fun e => sample.local_records b self e arguments) (seq 0 (nelems self)).

(** The records of function [i]: those of its blocks, block after block. *)
Definition func_records (self : Sample) (arguments : EvalArgs) (bs : list (nat * Block))
    (i : nat) : list sample.record :=
  flat_map (fun ib => if decide (ib.1 = i) then block_records self arguments ib.2 else []) bs.

(** The collections an assembly is to return. *)
Definition assembled (self : Sample) (funcs : list Func) (arguments : EvalArgs)
  : list sparse.t :=
  let funcs := sample._prepare_funcs self funcs in
  imap (fun i func =>
          sparse.FloatData
            (sparse.mk_data (fshape func)
               (func_records self arguments (sample.all_blocks funcs) i)))
       funcs.

(** The requests an assembly is to make: the size evaluations, one buffer
    per function, one evaluation of all blocks per element. *)
Definition requests (self : Sample) (funcs : list Func) (arguments : EvalArgs)
  : list event :=
  let funcs := sample._prepare_funcs self funcs in
  let bs := sample.all_blocks funcs in
  Planner.size_events self bs
  ++ imap (fun i func => ShEmpty (Planner.func_count self bs arguments i) (fshape func)) funcs
  ++ map (fun e => BlockEval self e (length bs)) (seq 0 (nelems self)).

End defs.

End Assembly.

Module Lowered.

Import lower_ir.

(** An expression built from arguments and constants of non-negative
    shape by [Sin], [Cos] and by [InsertAxis] and [Sum] at an axis of
    their argument. *)
Fixpoint plain (a : Array) : bool :=
  match a with
  | Argument _ shp _ => forallb (fun n => 0 <=? n) shp
  | Constant value => forallb (fun n => 0 <=? n) (nd_shape value)
  | InsertAxis arg axis _ =>
      plain arg && (0 <=? axis) && (axis <? Z.of_nat (length (shape arg)))
  | Sum arg axis => plain arg && (0 <=? axis) && (axis <? Z.of_nat (length (shape arg)))
  | Sin arg => plain arg
  | Cos arg => plain arg
  | Dummy _ _ | Neg _ | Add _ _ | Mul _ _ => false
  end.

(** The expression holds a node of class [Dummy], [Neg], [Add] or [Mul]. *)
Fixpoint unsupported (a : Array) : bool :=
  match a with
  | Dummy _ _ | Neg _ | Add _ _ | Mul _ _ => true
  | Argument _ _ _ | Constant _ => false
  | InsertAxis arg _ _ | Sum arg _ | Sin arg | Cos arg => unsupported arg
  end.

(** The expression holds a node of class [Sin] or [Cos]. *)
Fixpoint trigonometric (a : Array) : bool :=
  match a with
  | Sin _ | Cos _ => true
  | Dummy _ _ | Argument _ _ _ | Constant _ => false
  | InsertAxis arg _ _ | Sum arg _ | Neg arg => trigonometric arg
  | Add array1 array2 | Mul array1 array2 => trigonometric array1 || trigonometric array2
  end.

(** The number of nodes of an expression. *)
Fixpoint size (a : Array) : nat :=
  match a with
  | Dummy _ _ | Argument _ _ _ | Constant _ => 1
  | InsertAxis arg _ _ | Sum arg _ | Neg arg | Sin arg | Cos arg => S (size arg)
  | Add array1 array2 | Mul array1 array2 => S (size array1 + size array2)
  end.

(** The number of line ends of a text. *)
Fixpoint line_ends (s : string) : nat :=
  match s with
  | EmptyString => 0
  | String c s' => (if Ascii.eqb c (Ascii.ascii_of_nat 10) then 1 else 0) + line_ends s'
  end.

End Lowered.

(** * Proofs *)

Import Planner Merge Postponed.

(** * Facts about 64-bit counters *)

Module U64_facts.

Import U64.

Lemma modulus_pos : 0 < modulus.
Proof. reflexivity. Qed.

Lemma wrap_range z : 0 <= wrap z < modulus.
Proof. apply Z.mod_pos_bound, modulus_pos. Qed.

Lemma wrap_small z : 0 <= z < modulus -> wrap z = z.
Proof. apply Z.mod_small. Qed.

(** A wrapped zsum is smaller than its first operand exactly when the
    true zsum leaves the counter's range. *)
Lemma add_decreases a b :
  0 <= a < modulus -> 0 <= b < modulus ->
  (add a b < a <-> modulus <= a + b).
Proof.
  intros Ha Hb. unfold add, wrap.
  destruct (Z_lt_ge_dec (a + b) modulus) as [Hlt | Hge].
  - rewrite Z.mod_small by lia. lia.
  - replace (a + b) with ((a + b - modulus) + 1 * modulus) by ring.
    rewrite Z.mod_add by (pose proof modulus_pos; lia).
    rewrite Z.mod_small by lia. lia.
Qed.

Lemma add_exact a b : 0 <= a -> 0 <= b -> a + b < modulus -> add a b = a + b.
Proof. intros. apply wrap_small. lia. Qed.

Lemma length_cumsum_from acc v : length (cumsum_from acc v) = length v.
Proof. revert acc. induction v as [|x v IH]; intros acc; simpl; [done | by rewrite IH]. Qed.

Lemma length_cumsum v : length (cumsum v) = length v.
Proof. apply length_cumsum_from. Qed.

Lemma zsum_nonneg v : Forall (fun x => 0 <= x) v -> 0 <= zsum v.
Proof. induction 1; simpl; lia. Qed.

Lemma zsum_app u v : zsum (u ++ v) = zsum u + zsum v.
Proof. induction u; simpl; lia. Qed.

(** The steps of a row: consecutive entries. *)
Lemma any_decrease_false v :
  any_decrease v = false <->
  forall e a b, v !! e = Some a -> v !! S e = Some b -> a <= b.
Proof.
  induction v as [|a [|b v] IH].
  - simpl. split; [intros _ e a b Ha; by rewrite lookup_nil in Ha | done].
  - simpl. split; [| done]. intros _ [|e] x y Hx Hy; simpl in *; by try rewrite lookup_nil in Hy.
  - change (any_decrease (a :: b :: v)) with ((b <? a) || any_decrease (b :: v)).
    rewrite orb_false_iff, IH, Z.ltb_ge. split.
    + intros [Hab Hrest] [|e] x y Hx Hy; simpl in *.
      * by simplify_eq.
      * by eapply Hrest.
    + intros Hall. split.
      * by apply (Hall 0%nat a b).
      * intros e x y Hx Hy. by apply (Hall (S e) x y).
Qed.

Lemma any_decrease_true v :
  any_decrease v = true <->
  exists e a b, v !! e = Some a /\ v !! S e = Some b /\ b < a.
Proof.
  induction v as [|a [|b v] IH].
  - simpl. split; [done | intros (e & x & y & Hx & _); by rewrite lookup_nil in Hx].
  - simpl. split; [done |]. intros ([|e] & x & y & Hx & Hy & _); simpl in *; by rewrite ?lookup_nil in Hy.
  - change (any_decrease (a :: b :: v)) with ((b <? a) || any_decrease (b :: v)).
    rewrite orb_true_iff, IH, Z.ltb_lt. split.
    + intros [Hab | (e & x & y & Hx & Hy & Hlt)].
      * exists 0%nat, a, b. done.
      * exists (S e), x, y. done.
    + intros ([|e] & x & y & Hx & Hy & Hlt); simpl in *.
      * left. by simplify_eq.
      * right. by exists e, x, y.
Qed.

(** A row without a decreasing step is sorted. *)
Lemma no_decrease_sorted v :
  any_decrease v = false ->
  forall e1 e2 a b, (e1 <= e2)%nat -> v !! e1 = Some a -> v !! e2 = Some b -> a <= b.
Proof.
  rewrite any_decrease_false. intros Hstep e1 e2 a b Hle.
  revert b. induction Hle as [|e2 Hle IH]; intros b Ha Hb.
  - by simplify_eq.
  - destruct (lookup_lt_is_Some_2 v e2) as [c Hc].
    { apply lookup_lt_Some in Hb. lia. }
    specialize (IH c Ha Hc). specialize (Hstep e2 c b Hc Hb). lia.
Qed.

(** Running sums that stay in range are the true sums. *)
Lemma cumsum_from_exact acc v :
  0 <= acc -> Forall (fun x => 0 <= x) v -> acc + zsum v < modulus ->
  any_decrease (acc :: cumsum_from acc v) = false /\
  default acc (last (cumsum_from acc v)) = acc + zsum v /\
  forall e, (e < length v)%nat ->
    cumsum_from acc v !! e = Some (acc + zsum (take (S e) v)).
Proof.
  intros Hacc Hv. revert acc Hacc. induction Hv as [|x v Hx Hv IH]; intros acc Hacc Hsum.
  - simpl. split; [done|]. split; [lia|]. intros e He. simpl in He. lia.
  - simpl in Hsum. pose proof (zsum_nonneg v Hv) as Hs.
    assert (Hadd : add acc x = acc + x) by (apply add_exact; lia).
    simpl cumsum_from. rewrite Hadd.
    destruct (IH (acc + x)) as (IH1 & IH2 & IH3); [lia | lia |].
    split; [| split].
    + change (((acc + x <? acc) || any_decrease (acc + x :: cumsum_from (acc + x) v)) = false).
      rewrite IH1, orb_false_r. apply Z.ltb_ge. lia.
    + rewrite last_cons. destruct (last (cumsum_from (acc + x) v)) eqn:E; simpl in *; lia.
    + intros [|e] He; simpl in *.
      * f_equal. lia.
      * rewrite IH3 by lia. f_equal. lia.
Qed.

(** Conversely, when the true zsum leaves the range some step decreases:
    the check of the planner misses no wraparound. *)
Lemma cumsum_from_wraps acc v :
  0 <= acc < modulus -> Forall (fun x => 0 <= x < modulus) v ->
  modulus <= acc + zsum v ->
  any_decrease (acc :: cumsum_from acc v) = true.
Proof.
  intros Hacc Hv. revert acc Hacc. induction Hv as [|x v Hx Hv IH]; intros acc Hacc Hsum.
  - simpl in Hsum. lia.
  - simpl cumsum_from.
    change (((add acc x <? acc) || any_decrease (add acc x :: cumsum_from (add acc x) v)) = true).
    destruct (Z_lt_ge_dec (acc + x) modulus) as [Hlt | Hge].
    + rewrite add_exact by lia. rewrite IH; [apply orb_true_r | lia | simpl in Hsum; lia].
    + apply orb_true_iff. left. apply Z.ltb_lt. apply add_decreases; lia.
Qed.

(** Without a decreasing step every step adds the stored count. *)
Lemma no_decrease_step acc v :
  0 <= acc < modulus -> Forall (fun x => 0 <= x < modulus) v ->
  any_decrease (acc :: cumsum_from acc v) = false ->
  forall e a b x, (acc :: cumsum_from acc v) !! e = Some a ->
    (acc :: cumsum_from acc v) !! S e = Some b -> v !! e = Some x -> b = a + x.
Proof.
  intros Hacc Hv. revert acc Hacc. induction Hv as [|x v Hx Hv IH]; intros acc Hacc Hnd e a b y Ha Hb Hy.
  - by rewrite lookup_nil in Hy.
  - simpl cumsum_from in *.
    change (((add acc x <? acc) || any_decrease (add acc x :: cumsum_from (add acc x) v)) = false) in Hnd.
    apply orb_false_iff in Hnd as [H1 H2]. apply Z.ltb_ge in H1.
    assert (acc + x < modulus).
    { destruct (Z_lt_ge_dec (acc + x) modulus); [done|].
      assert (add acc x < acc) by (apply add_decreases; lia). lia. }
    destruct e as [|e]; simpl in *.
    + simplify_eq. apply add_exact; lia.
    + eapply (IH (add acc x)); eauto. apply wrap_range.
Qed.

End U64_facts.

Import U64_facts.

Module Py_facts.

Lemma for_each_app {A S} (body : S -> A -> result S) xs ys acc :
  Py.for_each body (xs ++ ys) acc = Py.bind (Py.for_each body xs acc) (Py.for_each body ys).
Proof.
  revert acc. induction xs as [|x xs IH]; intros acc; simpl; [done|].
  destruct (body acc x); simpl; [apply IH | done].
Qed.

Lemma for_each_snoc {A S} (body : S -> A -> result S) xs x acc :
  Py.for_each body (xs ++ [x]) acc
  = Py.bind (Py.for_each body xs acc) (fun st => body st x).
Proof.
  rewrite for_each_app. destruct (Py.for_each body xs acc); simpl; [|done].
  by destruct (body a x).
Qed.

Lemma traced_for_each_pure {A S} (ev : A -> event) (step : S -> A -> S) xs acc tr :
  Traced.for_each (fun acc x => Traced.emit (ev x) ;;; Traced.ret (step acc x)) xs acc tr
  = (Ok (foldl step acc xs), tr ++ map ev xs).
Proof.
  revert acc tr. induction xs as [|x xs IH]; intros acc tr; simpl.
  - unfold Traced.ret. by rewrite app_nil_r.
  - unfold Traced.bind at 1. unfold Traced.bind at 1. unfold Traced.emit, Traced.ret.
    rewrite IH. by rewrite <- app_assoc.
Qed.

Lemma enumerate_lookup {A} (xs : list A) i :
  enumerate xs !! i = (fun x => (i, x)) <$> xs !! i.
Proof. unfold enumerate. by rewrite list_lookup_imap. Qed.

Lemma enumerate_length {A} (xs : list A) : length (enumerate xs) = length xs.
Proof. unfold enumerate. apply length_imap. Qed.

Lemma enumerate_snoc {A} (xs : list A) x :
  enumerate (xs ++ [x]) = enumerate xs ++ [(length xs, x)].
Proof.
  unfold enumerate. rewrite imap_app. simpl. do 3 f_equal. lia.
Qed.

End Py_facts.

Import Py_facts.

Module size_pass_facts.

Import sample.
Section facts.
Context `{FC : FunctionCollaborator}.

Lemma set_column_map {B} (F : B -> list Z) (G : B -> Z) j (bs : list B) :
  set_column j (map G bs) (map F bs) = map (fun b => <[j := U64.wrap (G b)]> (F b)) bs.
Proof.
  unfold set_column. induction bs as [|b bs IH]; simpl; [done | by rewrite IH].
Qed.

Lemma size_fold self (bs : list (nat * Block)) arguments n k :
  (k <= n)%nat ->
  foldl (fun offsets ielem => set_column (S ielem) (sizefunc_eval bs self ielem arguments) offsets)
        (replicate (length bs) (replicate (S n) 0)) (seq 0 k)
  = map (fun ib => 0 :: map (fun e => U64.wrap (block_size (snd ib) self e arguments)) (seq 0 k)
                     ++ replicate (n - k) 0) bs.
Proof.
  induction k as [|k IH]; intros Hk.
  - simpl. rewrite Nat.sub_0_r. induction bs; simpl; [done | by f_equal].
  - rewrite seq_S, foldl_app. cbn [foldl Nat.add]. rewrite IH by lia.
    unfold sizefunc_eval. rewrite set_column_map. apply map_ext. intros ib.
    match goal with |- <[S k:=?x]> (?a :: ?l) = _ => change (<[S k:=x]> (a :: l)) with (a :: <[k:=x]> l) end.
    f_equal.
    rewrite insert_app_r_alt by (rewrite length_map, length_seq; lia).
    rewrite length_map, length_seq, Nat.sub_diag.
    replace (n - k)%nat with (S (n - S k)) by lia.
    rewrite map_app, <- app_assoc. done.
Qed.

Lemma size_pass_spec self bs arguments tr :
  size_pass self bs arguments tr
  = (Ok (size_table self bs arguments), tr ++ size_events self bs).
Proof.
  unfold size_pass, size_table, size_events. destruct bs as [|b bs'] eqn:E.
  - unfold Traced.ret. simpl. by rewrite app_nil_r.
  - rewrite <- E.
    rewrite (Py_facts.traced_for_each_pure (A:=nat)
      (fun e => SizeEval self e (length bs))
      (fun offsets ielem => set_column (S ielem) (sizefunc_eval bs self ielem arguments) offsets)).
    rewrite size_fold by lia. rewrite Nat.sub_diag. f_equal. f_equal.
    apply map_ext. intros ib. simpl. by rewrite app_nil_r.
Qed.

End facts.
End size_pass_facts.

Import size_pass_facts.

Module offset_pass_facts.

Import sample.

Lemma row_count_nonneg r : count_row r -> 0 <= row_count r.
Proof.
  intros (counts & -> & Hc). unfold row_count. simpl. apply zsum_nonneg.
  eapply Forall_impl; [exact Hc | simpl; lia].
Qed.

Lemma func_total_nonneg rows b2f i : Forall count_row rows -> 0 <= func_total rows b2f i.
Proof.
  unfold func_total. intros H. revert b2f. induction H as [|r rows Hr Hrows IH]; intros [|f b2f]; simpl; try lia.
  specialize (IH b2f). pose proof (row_count_nonneg r Hr). case_decide; lia.
Qed.

Lemma func_total_app rows1 rows2 f1 f2 i :
  length rows1 = length f1 ->
  func_total (rows1 ++ rows2) (f1 ++ f2) i = func_total rows1 f1 i + func_total rows2 f2 i.
Proof.
  intros Hlen. unfold func_total. rewrite zip_with_app by done. apply zsum_app.
Qed.

Lemma func_total_take_S rows b2f i k r f :
  length rows = length b2f -> rows !! k = Some r -> b2f !! k = Some f ->
  func_total (take (S k) rows) (take (S k) b2f) i
  = func_total (take k rows) (take k b2f) i + (if decide (f = i) then row_count r else 0).
Proof.
  intros Hlen Hr Hf.
  rewrite (take_S_r rows k r Hr), (take_S_r b2f k f Hf).
  rewrite func_total_app.
  - unfold func_total at 2. simpl. lia.
  - rewrite !length_take. lia.
Qed.

Lemma func_total_take_le rows b2f i k :
  length rows = length b2f -> Forall count_row rows ->
  func_total (take k rows) (take k b2f) i <= func_total rows b2f i.
Proof.
  intros Hlen Hrows.
  rewrite <- (take_drop k rows) at 2. rewrite <- (take_drop k b2f) at 2.
  rewrite func_total_app by (rewrite !length_take; lia).
  assert (Hd : 0 <= func_total (drop k rows) (drop k b2f) i).
  { apply func_total_nonneg. by apply Forall_drop. }
  lia.
Qed.

Lemma cumsum_row n counts :
  0 <= n < U64.modulus ->
  U64.cumsum (<[0%nat := n]> (0 :: counts)) = n :: U64.cumsum_from n counts.
Proof.
  intros Hn. unfold U64.cumsum.
  change (<[0%nat := n]> (0 :: counts)) with (n :: counts).
  cbn [U64.cumsum_from].
  assert (U64.add 0 n = n) as -> by (unfold U64.add; simpl; by apply wrap_small).
  done.
Qed.

Lemma turns_S rows b2f nfuncs k f :
  b2f !! k = Some f ->
  turns rows b2f nfuncs (S k)
  = Py.bind (turns rows b2f nfuncs k) (fun st => accumulate_row st (k, f)).
Proof.
  intros Hf. unfold turns.
  rewrite (take_S_r (enumerate b2f) k (k, f)).
  - apply for_each_snoc.
  - rewrite enumerate_lookup, Hf. done.
Qed.

Lemma func_total_outside rows b2f nfuncs i :
  Forall (fun f => (f < nfuncs)%nat) b2f -> (nfuncs <= i)%nat -> func_total rows b2f i = 0.
Proof.
  intros Hb Hi. unfold func_total. revert rows.
  induction Hb as [|f b2f' Hf Hrest IH]; intros [|r rows']; simpl; try reflexivity.
  rewrite decide_False by lia. rewrite IH. reflexivity.
Qed.

Section invariant.

Variables (rows : list (list Z)) (b2f : list nat) (nfuncs : nat).
Hypothesis Hlen : length rows = length b2f.
Hypothesis Hrows : Forall count_row rows.
Hypothesis Hb2f : Forall (fun f => (f < nfuncs)%nat) b2f.

Lemma planned_0 : planned rows b2f nfuncs 0 (rows, replicate nfuncs 0).
Proof.
  split; simpl.
  - done.
  - done.
  - apply length_replicate.
  - intros i Hi. rewrite lookup_replicate_2 by done. split; [done | reflexivity].
  - intros; lia.
Qed.

Lemma turn_step k st f r :
  planned rows b2f nfuncs k st -> b2f !! k = Some f -> rows !! k = Some r ->
  let n := total_upto rows b2f k f in
  (n + row_count r < U64.modulus /\
   exists st', accumulate_row st (k, f) = Ok st' /\ planned rows b2f nfuncs (S k) st')
  \/ (U64.modulus <= n + row_count r /\ accumulate_row st (k, f) = Raise overflow).
Proof.
  intros [I1 I2 I3 I4 I5] Hf Hr n. destruct st as [t nv]. simpl in *.
  assert (Hfn : (f < nfuncs)%nat) by (eapply Forall_lookup_1 in Hb2f; eauto).
  destruct (I4 f Hfn) as [Hnv Hnlt]. fold n in Hnv, Hnlt.
  pose proof (Forall_lookup_1 _ _ _ _ Hrows Hr) as (counts & -> & Hcounts).
  assert (Hn0 : 0 <= n).
  { apply func_total_nonneg. by apply Forall_take. }
  assert (Hc0 : Forall (fun x => 0 <= x) counts).
  { eapply Forall_impl; [exact Hcounts | simpl; lia]. }
  unfold accumulate_row. rewrite (I2 k (le_n k)), Hr, Hnv.
  rewrite cumsum_row by lia. unfold row_count. simpl tail.
  destruct (Z_lt_ge_dec (n + zsum counts) U64.modulus) as [Hlt | Hge].
  - left. split; [done|].
    destruct (cumsum_from_exact n counts Hn0 Hc0 Hlt) as (E1 & E2 & E3).
    rewrite E1. eexists. split; [reflexivity|].
    rewrite last_cons. 
    assert (Elast : default 0 (match last (U64.cumsum_from n counts) with Some y => Some y | None => Some n end) = n + zsum counts).
    { destruct (last (U64.cumsum_from n counts)); simpl in *; lia. }
    rewrite Elast.
    split; simpl.
    + by rewrite length_insert.
    + intros j Hj. rewrite list_lookup_insert_ne by lia. apply I2. lia.
    + by rewrite length_insert.
    + intros i Hi. rewrite (func_total_take_S rows b2f i k (0 :: counts) f Hlen Hr Hf).
      unfold row_count. simpl tail. destruct (I4 i Hi) as [Hi1 Hi2].
      destruct (decide (f = i)) as [-> | Hne].
      * rewrite list_lookup_insert_eq by lia. split; [done | done].
      * rewrite list_lookup_insert_ne by done. rewrite Hi1. split; [f_equal; lia | lia].
    + intros j ifunc counts' Hj Hjf Hjr.
      destruct (decide (j = k)) as [-> | Hne].
      * rewrite list_lookup_insert_eq by (rewrite I1; apply lookup_lt_Some in Hr; lia).
        simplify_eq. split; [reflexivity | exact Hlt].
      * rewrite list_lookup_insert_ne by done. apply I5; [lia | done | done].
  - right. split; [lia|].
    rewrite (cumsum_from_wraps n counts); [done | lia | done | lia].
Qed.

(** After any number of turns the loop has either raised the overflow
    exception, some function's cumulative count being out of range, or it
    holds the true running totals. *)
Lemma turns_spec k :
  (k <= length b2f)%nat ->
  match turns rows b2f nfuncs k with
  | Ok st => planned rows b2f nfuncs k st
  | Raise e => e = overflow /\ exists i, U64.modulus <= func_total rows b2f i
  end.
Proof.
  induction k as [|k IH]; intros Hk.
  - unfold turns. simpl. apply planned_0.
  - destruct (lookup_lt_is_Some_2 b2f k) as [f Hf]; [lia|].
    destruct (lookup_lt_is_Some_2 rows k) as [r Hr]; [lia|].
    rewrite (turns_S _ _ _ _ f Hf).
    specialize (IH ltac:(lia)).
    destruct (turns rows b2f nfuncs k) as [st | e]; simpl; [| done].
    destruct (turn_step k st f r IH Hf Hr) as [(_ & st' & -> & Hst') | (Hge & ->)].
    + done.
    + split; [done|]. exists f.
      pose proof (func_total_take_le rows b2f f (S k) Hlen Hrows) as Hle.
      rewrite (func_total_take_S rows b2f f k r f Hlen Hr Hf) in Hle.
      rewrite decide_True in Hle by done. lia.
Qed.

Lemma offset_pass_spec :
  match offset_pass rows b2f nfuncs with
  | Ok st => planned rows b2f nfuncs (length b2f) st
  | Raise e => e = overflow /\ exists i, U64.modulus <= func_total rows b2f i
  end.
Proof.
  pose proof (turns_spec (length b2f) (le_n _)) as H.
  unfold turns in H.
  replace (take (length b2f) (enumerate b2f)) with (enumerate b2f) in H.
  - exact H.
  - rewrite <- (enumerate_length b2f). by rewrite firstn_all.
Qed.

(** The planner succeeds exactly when no function's cumulative count
    leaves the counter's range. *)
Lemma offset_pass_ok :
  (forall i, func_total rows b2f i < U64.modulus) ->
  exists st, offset_pass rows b2f nfuncs = Ok st /\ planned rows b2f nfuncs (length b2f) st.
Proof.
  intros Hall. pose proof offset_pass_spec as H.
  destruct (offset_pass rows b2f nfuncs) as [st | e].
  - by exists st.
  - destruct H as (_ & i & Hi). specialize (Hall i). lia.
Qed.

Lemma offset_pass_overflow i :
  U64.modulus <= func_total rows b2f i ->
  offset_pass rows b2f nfuncs = Raise overflow.
Proof.
  intros Hi. pose proof offset_pass_spec as H.
  destruct (offset_pass rows b2f nfuncs) as [st | e].
  - exfalso. destruct H as [_ _ _ I4 _].
    destruct (decide (i < nfuncs)%nat) as [Hlt | Hge].
    + destruct (I4 i Hlt) as [_ Hb].
      rewrite (firstn_all b2f) in Hb. rewrite <- Hlen, (firstn_all rows) in Hb. lia.
    + rewrite (func_total_outside rows b2f nfuncs) in Hi by (done || lia). pose proof modulus_pos. lia.
  - by destruct H as [-> _].
Qed.

End invariant.

End offset_pass_facts.

Import offset_pass_facts.

Module Py_facts2.

Lemma for_each_invariant {A S} (body : S -> A -> result S) (I : S -> Prop) xs acc :
  I acc ->
  (forall st x, x ∈ xs -> I st -> exists st', body st x = Ok st' /\ I st') ->
  exists st', Py.for_each body xs acc = Ok st' /\ I st'.
Proof.
  revert acc. induction xs as [|x xs IH]; intros acc Hacc Hbody; simpl.
  - by exists acc.
  - destruct (Hbody acc x) as (st' & -> & Hst'); [left | done |]. simpl.
    apply IH; [done|]. intros st y Hy. apply Hbody. by right.
Qed.

Lemma traced_for_each_invariant {A S} (body : S -> A -> Traced.M S) (I : S -> Prop) xs acc tr :
  I acc ->
  (forall st x tr, x ∈ xs -> I st -> exists st' tr', body st x tr = (Ok st', tr') /\ I st') ->
  exists st' tr', Traced.for_each body xs acc tr = (Ok st', tr') /\ I st'.
Proof.
  revert acc tr. induction xs as [|x xs IH]; intros acc tr Hacc Hbody; simpl.
  - by exists acc, tr.
  - unfold Traced.bind at 1.
    destruct (Hbody acc x tr) as (st' & tr' & -> & Hst'); [left | done |].
    apply IH; [done|]. intros st y tr0 Hy. apply Hbody. by right.
Qed.

Lemma for_each_prefix_ok {A S} (body : S -> A -> result S) xs ys acc st :
  Py.for_each body (xs ++ ys) acc = Ok st ->
  exists st', Py.for_each body xs acc = Ok st' /\ Py.for_each body ys st' = Ok st.
Proof.
  rewrite for_each_app. destruct (Py.for_each body xs acc) as [st'|e]; simpl; [|done].
  intros H. by exists st'.
Qed.

Lemma foldl_snoc_map {A B} (f : A -> B) xs acc :
  foldl (fun l x => l ++ [f x]) acc xs = acc ++ map f xs.
Proof.
  revert acc. induction xs as [|x xs IH]; intros acc; simpl.
  - by rewrite app_nil_r.
  - rewrite IH, <- app_assoc. done.
Qed.

End Py_facts2.

Import Py_facts2.

Module sorted_rows.

Import sample.

(** Rows that went through the second loop carry no decreasing step. *)
Lemma turns_sorted offsets b2f nfuncs k st :
  turns offsets b2f nfuncs k = Ok st ->
  forall j row, (j < k)%nat -> (j < length b2f)%nat -> st.1 !! j = Some row ->
    U64.any_decrease row = false.
Proof.
  revert st. induction k as [|k IH]; intros st Hst j row Hj Hjb Hrow; [lia|].
  destruct (decide (k < length b2f)%nat) as [Hk | Hk].
  - destruct (lookup_lt_is_Some_2 b2f k Hk) as [f Hf].
    rewrite (turns_S _ _ _ _ f Hf) in Hst.
    destruct (turns offsets b2f nfuncs k) as [[t nv] | e] eqn:Ek; simpl in Hst; [|done].
    unfold accumulate_row in Hst.
    destruct (t !! k) as [v|] eqn:Ev; [|done].
    destruct (nv !! f) as [n|] eqn:En; [|done].
    destruct (U64.any_decrease (U64.cumsum (<[0%nat:=n]> v))) eqn:Ed; [done|].
    simplify_eq. simpl in Hrow.
    destruct (decide (j = k)) as [-> | Hne].
    + rewrite list_lookup_insert_eq in Hrow by (eapply lookup_lt_Some; exact Ev). by simplify_eq.
    + rewrite list_lookup_insert_ne in Hrow by done.
      apply (IH (t, nv) eq_refl j row); [lia | done | done].
  - assert (Hst' : turns offsets b2f nfuncs k = Ok st).
    { unfold turns in *. rewrite take_ge in Hst by (rewrite enumerate_length; lia).
      rewrite take_ge by (rewrite enumerate_length; lia). done. }
    apply (IH st Hst' j row); [lia | done | done].
Qed.

Lemma offset_pass_sorted offsets b2f nfuncs table nvals :
  offset_pass offsets b2f nfuncs = Ok (table, nvals) ->
  forall iblock row, (iblock < length b2f)%nat -> table !! iblock = Some row ->
    U64.any_decrease row = false.
Proof.
  intros Hok iblock row Hi Hrow.
  eapply (turns_sorted offsets b2f nfuncs (length b2f) (table, nvals)); [| done | done | done].
  unfold turns. rewrite take_ge by (rewrite enumerate_length; lia). exact Hok.
Qed.

End sorted_rows.

Import sorted_rows.

Module assembly_facts.

Import sample.
Section facts.
Context `{FC : FunctionCollaborator}.

Lemma allocate_spec funcs nvals tr :
  allocate funcs nvals tr
  = (Ok (map (fresh_buffer funcs) (enumerate nvals)),
     tr ++ map (alloc_event funcs) (enumerate nvals)).
Proof.
  unfold allocate.
  rewrite (traced_for_each_pure (alloc_event funcs) (fun datas x => datas ++ [fresh_buffer funcs x])).
  by rewrite foldl_snoc_map.
Qed.

Lemma write_slice_ok start stop (new buf : list record) :
  0 <= start -> stop <= Z.of_nat (length buf) -> stop - start = Z.of_nat (length new) ->
  exists buf', write_slice start stop new buf = Ok buf' /\ length buf' = length buf.
Proof.
  intros H0 H1 H2. unfold write_slice.
  rewrite (Z.min_l start) by lia. rewrite (Z.min_l stop) by lia.
  rewrite Z.max_r by lia. rewrite H2, Z.eqb_refl.
  eexists. split; [reflexivity|].
  rewrite !length_app, length_take, length_drop. lia.
Qed.

Lemma length_local_records b self ielem arguments :
  Z.of_nat (length (local_records b self ielem arguments)) = block_size b self ielem arguments.
Proof.
  unfold local_records, block_size. rewrite length_map, length_seq. lia.
Qed.

Lemma fill_block_ok self arguments bs offsets lens ielem datas ib :
  fits self arguments bs offsets lens -> (ielem < nelems self)%nat ->
  ib ∈ enumerate bs -> map length datas = lens ->
  exists datas', fill_block self arguments offsets ielem datas ib = Ok datas'
    /\ map length datas' = lens.
Proof.
  intros Hfits He Hib Hlens.
  apply list_elem_of_lookup in Hib as [i Hi].
  rewrite enumerate_lookup in Hi.
  destruct (bs !! i) as [[ifunc b]|] eqn:Eb; [|done]. simpl in Hi. simplify_eq.
  destruct (Hfits i ifunc b Eb) as (row & len & Hrow & Hlen & Hrange).
  destruct (Hrange ielem He) as (start & stop & Hs & Ht & H0 & H1 & H2).
  unfold fill_block. simpl. rewrite Hrow.
  rewrite list_lookup_fmap in Hlen.
  destruct (datas !! ifunc) as [buf|] eqn:Ebuf; [|done]. simpl in Hlen. simplify_eq.
  rewrite Hs, Ht.
  destruct (write_slice_ok start stop (local_records b self ielem arguments) buf) as (buf' & -> & Hl).
  - done.
  - done.
  - by rewrite length_local_records.
  - simpl. eexists. split; [reflexivity|].
    rewrite list_fmap_insert, Hl. apply list_insert_id.
    by rewrite list_lookup_fmap, Ebuf.
Qed.

Lemma fill_ok self arguments bs offsets datas tr :
  fits self arguments bs offsets (map length datas) ->
  exists datas' tr', fill self arguments bs offsets datas tr = (Ok datas', tr')
    /\ map length datas' = map length datas.
Proof.
  intros Hfits. unfold fill.
  apply (traced_for_each_invariant _ (fun d => map length d = map length datas)); [done|].
  intros st ielem tr0 He Hst.
  apply elem_of_seq in He.
  unfold Traced.bind, Traced.emit, Traced.lift.
  destruct (for_each_invariant (fill_block self arguments offsets ielem)
              (fun d => map length d = map length datas) (enumerate bs) st Hst)
    as (st' & -> & Hst').
  - intros d ib Hib Hd. eapply fill_block_ok; eauto. lia.
  - by exists st', (tr0 ++ [BlockEval self ielem (length bs)]).
Qed.

End facts.
End assembly_facts.

Import assembly_facts.

Module integrate_facts.

Import sample.
Section facts.
Context `{FC : FunctionCollaborator}.

Lemma elem_le_sum l x : Forall (fun y => 0 <= y) l -> x ∈ l -> x <= zsum l.
Proof.
  induction 1 as [|y l Hy Hl IH]; intros Hx.
  - by apply elem_of_nil in Hx.
  - pose proof (zsum_nonneg l Hl). apply elem_of_cons in Hx as [-> | Hx]; simpl; [lia|].
    specialize (IH Hx). lia.
Qed.

Lemma block_size_nonneg b self e arguments : 0 <= block_size b self e arguments.
Proof. unfold block_size. lia. Qed.

Lemma block_counts_nonneg self arguments b :
  Forall (fun y => 0 <= y) (block_counts self arguments b).
Proof.
  unfold block_counts. apply Forall_map, Forall_forall. intros e _. apply block_size_nonneg.
Qed.

Lemma func_count_summands self bs arguments i :
  Forall (fun y => 0 <= y)
    (map (fun ib : nat * Block => if decide (ib.1 = i) then zsum (block_counts self arguments ib.2) else 0) bs).
Proof.
  apply Forall_map, Forall_forall. intros ib _. simpl. case_decide; [|lia].
  apply zsum_nonneg, block_counts_nonneg.
Qed.

Lemma block_size_le_count self bs arguments ib e :
  ib ∈ bs -> (e < nelems self)%nat ->
  block_size ib.2 self e arguments <= func_count self bs arguments ib.1.
Proof.
  intros Hib He.
  transitivity (zsum (block_counts self arguments ib.2)).
  - apply elem_le_sum; [apply block_counts_nonneg|].
    unfold block_counts. apply list_elem_of_fmap. exists e. split; [done|].
    apply elem_of_seq. lia.
  - unfold func_count. apply elem_le_sum; [apply func_count_summands|].
    apply list_elem_of_fmap. exists ib. split; [| done]. by rewrite decide_True.
Qed.

Lemma size_table_count_rows self bs arguments :
  Forall count_row (size_table self bs arguments).
Proof.
  unfold size_table. apply Forall_map, Forall_forall. intros ib _. simpl.
  eexists. split; [reflexivity|]. apply Forall_map, Forall_forall. intros e _.
  apply wrap_range.
Qed.

Lemma size_table_exact self bs arguments :
  (forall i, func_count self bs arguments i < U64.modulus) ->
  size_table self bs arguments
  = map (fun ib => 0 :: block_counts self arguments ib.2) bs.
Proof.
  intros Hnw. unfold size_table, block_counts.
  apply map_ext_in. intros ib Hib. f_equal. apply map_ext_in. intros e He.
  apply in_seq in He. apply wrap_small. split; [apply block_size_nonneg|].
  eapply Z.le_lt_trans; [| apply (Hnw ib.1)].
  apply block_size_le_count; [by apply list_elem_of_In | lia].
Qed.

Lemma func_total_map {B} (F : B -> list Z) (bs : list (nat * B)) i :
  func_total (map (fun ib => F ib.2) bs) (map fst bs) i
  = zsum (map (fun ib => if decide (ib.1 = i) then row_count (F ib.2) else 0) bs).
Proof.
  unfold func_total. induction bs as [|ib bs IH]; simpl; [done | by rewrite IH].
Qed.

Lemma func_total_size_table self bs arguments i :
  (forall i, func_count self bs arguments i < U64.modulus) ->
  func_total (size_table self bs arguments) (map fst bs) i = func_count self bs arguments i.
Proof.
  intros Hnw. rewrite size_table_exact by done.
  rewrite (func_total_map (fun b => 0 :: block_counts self arguments b)). done.
Qed.

Lemma all_blocks_index (funcs : list Func) i b :
  (i, b) ∈ all_blocks funcs -> (i < length funcs)%nat.
Proof.
  unfold all_blocks. rewrite list_elem_of_In, in_flat_map.
  intros ([j f] & Hjf & Hb). simpl in Hb. apply in_map_iff in Hb as (b' & Heq & _).
  simplify_eq. apply list_elem_of_In, list_elem_of_lookup in Hjf as [k Hk].
  rewrite enumerate_lookup in Hk. destruct (funcs !! k) eqn:E; [|done]. simpl in Hk.
  simplify_eq. by eapply lookup_lt_Some.
Qed.

Lemma sum_take_S l e x : l !! e = Some x -> zsum (take (S e) l) = zsum (take e l) + x.
Proof.
  intros H. rewrite (take_S_r l e x H), zsum_app. simpl. lia.
Qed.

Lemma sum_take_le l e : Forall (fun y => 0 <= y) l -> zsum (take e l) <= zsum l.
Proof.
  intros H. rewrite <- (take_drop e l) at 2. rewrite zsum_app.
  pose proof (zsum_nonneg (drop e l) (Forall_drop _ _ _ H)). lia.
Qed.

(** The rows of a table that went through the whole second loop fit the
    buffers the running totals ask for. *)
Lemma planned_fits self arguments bs nfuncs st :
  (forall i, func_count self bs arguments i < U64.modulus) ->
  Forall (fun f => (f < nfuncs)%nat) (map fst bs) ->
  planned (size_table self bs arguments) (map fst bs) nfuncs (length (map fst bs)) st ->
  fits self arguments bs st.1 (map (fun n => Z.to_nat n) st.2).
Proof.
  intros Hnw Hidx [I1 I2 I3 I4 I5] iblock ifunc b Hb.
  set (rows := size_table self bs arguments) in *.
  set (b2f := map fst bs) in *.
  assert (Hlen : length rows = length b2f).
  { unfold rows, b2f, size_table. by rewrite !length_map. }
  assert (Hrows : Forall count_row rows) by apply size_table_count_rows.
  assert (Hf : b2f !! iblock = Some ifunc).
  { unfold b2f. by rewrite list_lookup_fmap, Hb. }
  set (counts := block_counts self arguments b).
  assert (Hr : rows !! iblock = Some (0 :: counts)).
  { unfold rows. rewrite size_table_exact by done. by rewrite list_lookup_fmap, Hb. }
  assert (Hk : (iblock < length b2f)%nat) by (by eapply lookup_lt_Some).
  destruct (I5 iblock ifunc counts Hk Hf Hr) as [Hrow Hsum].
  assert (Hfn : (ifunc < nfuncs)%nat).
  { eapply Forall_lookup_1 in Hidx; eauto. }
  destruct (I4 ifunc Hfn) as [Hnv Hnvlt].
  set (base := func_total (take iblock rows) (take iblock b2f) ifunc) in *.
  set (total := func_total (take (length b2f) rows) (take (length b2f) b2f) ifunc) in *.
  assert (Hbase0 : 0 <= base).
  { apply func_total_nonneg. by apply Forall_take. }
  assert (Hc0 : Forall (fun y => 0 <= y) counts) by apply block_counts_nonneg.
  assert (Hnext : base + zsum counts <= total).
  { pose proof (func_total_take_S rows b2f ifunc iblock (0 :: counts) ifunc Hlen Hr Hf) as E.
    rewrite decide_True in E by done. unfold row_count in E. simpl in E.
    unfold total. rewrite firstn_all. rewrite <- Hlen, firstn_all.
    pose proof (func_total_take_le rows b2f ifunc (S iblock) Hlen Hrows). fold base in E. lia. }
  destruct (cumsum_from_exact base counts Hbase0 Hc0 Hsum) as (_ & _ & Hentries).
  exists (base :: U64.cumsum_from base counts), (Z.to_nat total).
  split; [done|]. split; [by rewrite list_lookup_fmap, Hnv|].
  intros e He.
  assert (Hce : counts !! e = Some (block_size b self e arguments)).
  { unfold counts, block_counts. rewrite list_lookup_fmap, lookup_seq_lt by done. done. }
  assert (Hlc : length counts = nelems self).
  { unfold counts, block_counts. by rewrite length_map, length_seq. }
  pose proof (sum_take_S counts e _ Hce) as HS.
  pose proof (sum_take_le counts (S e) Hc0) as Hle.
  pose proof (zsum_nonneg (take e counts) (Forall_take _ _ _ Hc0)) as Hte.
  pose proof (zsum_nonneg counts Hc0) as Htc.
  exists (base + zsum (take e counts)), (base + zsum (take (S e) counts)).
  clearbody counts base total.
  split; [| split; [| split; [| split]]].
  - destruct e as [|e]; simpl.
    + f_equal. lia.
    + apply Hentries. rewrite Hlc. lia.
  - simpl. apply Hentries. rewrite Hlc. lia.
  - lia.
  - rewrite Z2Nat.id by lia. lia.
  - lia.
Qed.

Lemma integrate_sparse_ok self funcs arguments tr :
  no_wrap self funcs arguments ->
  exists datas tr', integrate_sparse self funcs arguments tr = (Ok datas, tr')
    /\ length datas = length funcs
    /\ forall i f, funcs !! i = Some f ->
         exists d, datas !! i = Some d /\ sparse.shape d = fshape (prepare_eval (ndims self) f).
Proof.
  intros Hnw. unfold no_wrap in Hnw. unfold integrate_sparse.
  set (funcs' := _prepare_funcs self funcs) in *.
  set (bs := all_blocks funcs') in *.
  unfold Traced.bind at 1. rewrite size_pass_spec.
  unfold Traced.bind at 1. unfold Traced.lift at 1.
  assert (Hidx : Forall (fun f => (f < length funcs')%nat) (map fst bs)).
  { apply Forall_map, Forall_forall. intros [i b] Hib. simpl.
    by eapply all_blocks_index. }
  destruct (offset_pass_ok (size_table self bs arguments) (map fst bs) (length funcs'))
    as ([t nv] & -> & Hpl).
  - unfold size_table. by rewrite !length_map.
  - apply size_table_count_rows.
  - done.
  - intros i. rewrite func_total_size_table by done. apply Hnw.
  - unfold Traced.bind at 1. rewrite allocate_spec. cbn [snd fst].
    pose proof (planned_fits self arguments bs (length funcs') (t, nv) Hnw Hidx Hpl) as Hfits.
    cbn [snd fst] in Hfits.
    set (datas0 := map (fresh_buffer funcs') (enumerate nv)).
    assert (Hl0 : map length datas0 = map (fun n => Z.to_nat n) nv).
    { unfold datas0, enumerate. rewrite <- list_fmap_compose.
      apply list_eq. intros i. rewrite list_lookup_fmap, list_lookup_imap, list_lookup_fmap.
      destruct (nv !! i); simpl; [|done]. unfold fresh_buffer. by rewrite length_replicate. }
    rewrite <- Hl0 in Hfits.
    unfold Traced.bind at 1.
    destruct (fill_ok self arguments bs t datas0
                (tr ++ size_events self bs ++ map (alloc_event funcs') (enumerate nv)))
      as (datas & tr' & Hfill & Hlens); [done|].
    rewrite <- app_assoc. rewrite Hfill. unfold Traced.ret.
    eexists _, _. split; [reflexivity|].
    assert (Hld : length datas = length funcs').
    { apply (f_equal length) in Hlens. rewrite !length_map in Hlens. rewrite Hlens.
      unfold datas0. rewrite length_map, enumerate_length.
      exact (planned_nvals_length _ _ _ _ _ Hpl). }
    assert (Hlf : length funcs' = length funcs) by (unfold funcs', _prepare_funcs; by rewrite length_map).
    unfold record, sparse.index, sparse.float64 in *.
    split.
    + rewrite length_zip_with. unfold record, sparse.index, sparse.float64 in *. lia.
    + intros i f Hf.
      destruct (lookup_lt_is_Some_2 datas i) as [buf Hbuf].
      { apply lookup_lt_Some in Hf. unfold record, sparse.index, sparse.float64 in *. lia. }
      eexists. split.
      * rewrite lookup_zip_with. unfold funcs', _prepare_funcs.
        rewrite list_lookup_fmap, Hf, Hbuf. simpl. reflexivity.
      * done.
Qed.

End facts.
End integrate_facts.

Import integrate_facts.

Module lex_facts.

Import sparse.

Lemma lex_compare_eq a b : lex_compare a b = Eq <-> a = b.
Proof.
  revert b. induction a as [|x a IH]; intros [|y b]; simpl; try (split; congruence).
  destruct (Nat.compare_spec x y) as [-> | Hlt | Hgt].
  - rewrite IH. split; congruence.
  - split; [done | intros E; simplify_eq; lia].
  - split; [done | intros E; simplify_eq; lia].
Qed.

Lemma lex_compare_refl a : lex_compare a a = Eq.
Proof. by apply lex_compare_eq. Qed.

Lemma lex_compare_antisym a b : lex_compare b a = CompOpp (lex_compare a b).
Proof.
  revert b. induction a as [|x a IH]; intros [|y b]; simpl; try done.
  rewrite (Nat.compare_antisym x y).
  destruct (x ?= y)%nat; simpl; [apply IH | done | done].
Qed.

Lemma lex_lt_gt a b : lex_compare a b = Lt <-> lex_compare b a = Gt.
Proof. rewrite (lex_compare_antisym a b). destruct (lex_compare a b); simpl; split; congruence. Qed.

Lemma lex_lt_trans a b c : lex_lt a b -> lex_lt b c -> lex_lt a c.
Proof.
  unfold lex_lt. revert b c. induction a as [|x a IH]; intros [|y b] [|z c]; simpl; try done.
  destruct (Nat.compare_spec x y) as [-> | Hxy | Hxy]; [| | done].
  - destruct (Nat.compare_spec y z) as [-> | Hyz | Hyz]; [apply IH | done | done].
  - intros _. destruct (Nat.compare_spec y z) as [-> | Hyz | Hyz]; [| | done]; intros _.
    + by apply Nat.compare_lt_iff in Hxy as ->.
    + assert (x < z)%nat as ->%Nat.compare_lt_iff by lia. done.
Qed.

Lemma lex_lt_irrefl a : ~ lex_lt a a.
Proof. unfold lex_lt. by rewrite lex_compare_refl. Qed.

End lex_facts.

Import lex_facts.

Module run_facts.

Import sparse.
Section facts.
Context {V : Type} `{Scalar V}.

Implicit Types (r : list (index * V)) (k : index) (v : V).

Lemma ascending_cons_inv kv r :
  ascending (kv :: r) -> ascending r /\ Forall (key_lt kv) r.
Proof. intros Hs. by apply StronglySorted_inv in Hs. Qed.

Lemma lookup_index_cons k k' v r :
  lookup_index k ((k', v) :: r)
  = match lex_compare k k' with Eq => Some v | _ => lookup_index k r end.
Proof. reflexivity. Qed.

Lemma lookup_index_below k r :
  Forall (fun kv => lex_lt k kv.1) r -> lookup_index k r = None.
Proof.
  induction 1 as [|[k' v'] r Hk Hr IH]; simpl; [done|].
  unfold lex_lt in Hk. simpl in Hk. by rewrite Hk.
Qed.

Lemma lookup_index_elem k v r :
  ascending r -> (lookup_index k r = Some v <-> (k, v) ∈ r).
Proof.
  induction r as [|[k' v'] r IH]; intros Hs; simpl.
  - split; [done | by intros ?%elem_of_nil].
  - apply ascending_cons_inv in Hs as [Hs Hall]. rewrite elem_of_cons.
    destruct (lex_compare k k') eqn:E.
    + apply lex_compare_eq in E as ->. split.
      * intros ?; simplify_eq. by left.
      * intros [? | Hin]; [by simplify_eq|].
        rewrite Forall_forall in Hall. specialize (Hall _ Hin).
        by apply lex_lt_irrefl in Hall.
    + rewrite IH by done. split; [by right|]. intros [? | ?]; [|done].
      simplify_eq. by rewrite lex_compare_refl in E.
    + rewrite IH by done. split; [by right|]. intros [? | ?]; [|done].
      simplify_eq. by rewrite lex_compare_refl in E.
Qed.

Lemma Forall_key_lt_trans (kv kv' : index * V) r :
  key_lt kv kv' -> Forall (key_lt kv') r -> Forall (key_lt kv) r.
Proof.
  intros Hlt HF. eapply Forall_impl; [exact HF|]. intros x Hx. by eapply lex_lt_trans.
Qed.

(** *** Inserting in a run *)

Lemma insert_sum_bound k0 k v r :
  lex_lt k0 k -> Forall (fun kv => lex_lt k0 kv.1) r ->
  Forall (fun kv => lex_lt k0 kv.1) (insert_sum k v r).
Proof.
  intros Hk. induction 1 as [|[k' v'] r Hk' Hr IH]; simpl.
  - by repeat constructor.
  - destruct (lex_compare k k'); repeat constructor; done.
Qed.

Lemma insert_sum_ascending k v r : ascending r -> ascending (insert_sum k v r).
Proof.
  induction r as [|[k' v'] r IH]; intros Hs; simpl.
  - repeat constructor.
  - pose proof Hs as Hs0. apply ascending_cons_inv in Hs as [Hs Hall].
    destruct (lex_compare k k') eqn:E.
    + apply lex_compare_eq in E as ->. constructor; [done|].
      eapply Forall_impl; [exact Hall | done].
    + constructor; [done|]. constructor; [done|].
      eapply (Forall_key_lt_trans (k, v) (k', v')); done.
    + constructor; [by apply IH|].
      apply (insert_sum_bound k' k v r); [by apply lex_lt_gt | done].
Qed.

Lemma lookup_insert_sum k v r k0 :
  ascending r ->
  lookup_index k0 (insert_sum k v r)
  = if decide (k0 = k)
    then Some (match lookup_index k r with Some v' => vadd v' v | None => v end)
    else lookup_index k0 r.
Proof.
  induction r as [|[k' v'] r IH]; intros Hs; simpl.
  - case_decide as Hk; [subst; by rewrite lex_compare_refl|].
    destruct (lex_compare k0 k) eqn:E; [by apply lex_compare_eq in E | done | done].
  - apply ascending_cons_inv in Hs as [Hs Hall].
    destruct (lex_compare k k') eqn:E; simpl.
    + apply lex_compare_eq in E as ->. case_decide as Hk.
      * subst. by rewrite lex_compare_refl.
      * destruct (lex_compare k0 k') eqn:E'; [by apply lex_compare_eq in E' | done | done].
    + case_decide as Hk.
      * subst. rewrite lex_compare_refl.
        rewrite (lookup_index_below k r); [done|].
        eapply (Forall_key_lt_trans (k, v) (k', v')); done.
      * destruct (lex_compare k0 k) eqn:E'; [by apply lex_compare_eq in E' | done | done].
    + rewrite IH by done. case_decide as Hk.
      * subst. by rewrite E.
      * done.
Qed.

(** *** Merging two runs *)

Lemma merge_runs_nil_r r : merge_runs r [] = r.
Proof. by destruct r as [|[??]?]. Qed.

Lemma merge_runs_bound k0 r1 r2 :
  Forall (fun kv => lex_lt k0 kv.1) r1 -> Forall (fun kv => lex_lt k0 kv.1) r2 ->
  Forall (fun kv => lex_lt k0 kv.1) (merge_runs r1 r2).
Proof.
  intros H1. revert r2. induction H1 as [|[k1 v1] r1 Hk1 Hr1 IH1]; intros r2 H2.
  - by destruct r2.
  - induction H2 as [|[k2 v2] r2 Hk2 Hr2 IH2]; [by constructor|].
    simpl. destruct (lex_compare k1 k2).
    + constructor; [done|]. by apply IH1.
    + constructor; [done|]. apply IH1. by constructor.
    + constructor; [done|]. apply IH2.
Qed.

Lemma merge_runs_ascending r1 r2 :
  ascending r1 -> ascending r2 -> ascending (merge_runs r1 r2).
Proof.
  revert r2. induction r1 as [|[k1 v1] r1 IH1]; intros r2 H1 H2.
  - by destruct r2.
  - pose proof H1 as H10. apply ascending_cons_inv in H1 as [H1 Hall1].
    induction r2 as [|[k2 v2] r2 IH2]; [done|].
    pose proof H2 as H20. apply ascending_cons_inv in H2 as [H2 Hall2].
    simpl. destruct (lex_compare k1 k2) eqn:E.
    + apply lex_compare_eq in E as ->.
      constructor; [by apply IH1|]. apply (merge_runs_bound k2); [done|].
      eapply Forall_impl; [exact Hall2 | done].
    + constructor; [by apply IH1|]. apply (merge_runs_bound k1); [done|].
      constructor; [done|]. eapply (Forall_key_lt_trans (k1, v1) (k2, v2)); done.
    + apply lex_lt_gt in E.
      constructor; [by apply IH2|].
      change (Forall (fun kv => lex_lt k2 kv.1) (merge_runs ((k1, v1) :: r1) r2)).
      apply (merge_runs_bound k2); [|done].
      constructor; [done|]. eapply (Forall_key_lt_trans (k2, v2) (k1, v1)); done.
Qed.

Lemma lookup_merge_runs r1 r2 k :
  ascending r1 -> ascending r2 ->
  lookup_index k (merge_runs r1 r2) = union_value (lookup_index k r1) (lookup_index k r2).
Proof.
  revert r2. induction r1 as [|[k1 v1] r1 IH1]; intros r2 H1 H2.
  - by destruct r2.
  - pose proof H1 as H10. apply ascending_cons_inv in H1 as [H1 Hall1].
    induction r2 as [|[k2 v2] r2 IH2].
    { simpl. by destruct (lex_compare k k1), (lookup_index k r1). }
    pose proof H2 as H20. apply ascending_cons_inv in H2 as [H2 Hall2].
    change (merge_runs ((k1, v1) :: r1) ((k2, v2) :: r2)) with
      (match lex_compare k1 k2 with
       | Lt => (k1, v1) :: merge_runs r1 ((k2, v2) :: r2)
       | Eq => (k1, vadd v1 v2) :: merge_runs r1 r2
       | Gt => (k2, v2) :: merge_runs ((k1, v1) :: r1) r2
       end).
    destruct (lex_compare k1 k2) eqn:E.
    + apply lex_compare_eq in E as ->. simpl.
      destruct (lex_compare k k2); [done | |]; by rewrite IH1.
    + rewrite (lookup_index_cons k k1 v1 (merge_runs r1 ((k2, v2) :: r2))).
      rewrite (lookup_index_cons k k1 v1 r1).
      destruct (lex_compare k k1) eqn:Ek.
      * apply lex_compare_eq in Ek as ->.
        rewrite (lookup_index_below k1 ((k2, v2) :: r2)); [done|].
        constructor; [done|]. eapply (Forall_key_lt_trans (k1, v1) (k2, v2)); done.
      * by rewrite IH1.
      * by rewrite IH1.
    + apply lex_lt_gt in E.
      rewrite (lookup_index_cons k k2 v2 (merge_runs ((k1, v1) :: r1) r2)).
      rewrite (lookup_index_cons k k2 v2 r2).
      destruct (lex_compare k k2) eqn:Ek.
      * apply lex_compare_eq in Ek as ->.
        rewrite (lookup_index_below k2 ((k1, v1) :: r1)); [done|].
        constructor; [done|]. eapply (Forall_key_lt_trans (k2, v2) (k1, v1)); done.
      * rewrite IH2 by done. done.
      * rewrite IH2 by done. done.
Qed.

End facts.
End run_facts.

Import run_facts.

Module dedup_facts.

Import sparse.
Section facts.
Context {V : Type} `{Scalar V}.

Implicit Types (r l : list (index * V)) (k : index) (v : V).

Lemma group_app k l1 l2 : group k (l1 ++ l2) = group k l1 ++ group k l2.
Proof. unfold group. by rewrite filter_app, map_app. Qed.

Lemma group_cons k k' v l :
  group k ((k', v) :: l) = if decide (k' = k) then v :: group k l else group k l.
Proof. unfold group. rewrite filter_cons. simpl. by case_decide. Qed.

Lemma group_nil_iff k l : group k l = [] <-> forall v, (k, v) ∉ l.
Proof.
  induction l as [|[k' v'] l IH].
  - split; [intros _ v Hv; by apply elem_of_nil in Hv | done].
  - rewrite group_cons. case_decide as Hk.
    + subst. split; [done|]. intros Hno. exfalso. apply (Hno v'). by left.
    + rewrite IH. split.
      * intros Hno v Hv. apply elem_of_cons in Hv as [? | Hv]; [by simplify_eq|]. by apply (Hno v).
      * intros Hno v Hv. apply (Hno v). by right.
Qed.

Lemma elem_of_group k v l : (k, v) ∈ l -> v ∈ group k l.
Proof.
  intros Hin. unfold group. apply list_elem_of_fmap. exists (k, v). split; [done|].
  by apply list_elem_of_filter.
Qed.

Lemma sum_of_nonempty (l : list V) v : sum_of l v -> l <> [].
Proof.
  induction 1 as [v | l1 l2 l a b H1 IH1 H2 IH2 Hp]; [done|].
  intros ->. apply Permutation_nil in Hp. by destruct l1.
Qed.

Lemma sum_of_perm (l l' : list V) v : Permutation l l' -> sum_of l v -> sum_of l' v.
Proof.
  intros Hp Hs. revert l' Hp. induction Hs as [v | l1 l2 l a b H1 IH1 H2 IH2 Hp0]; intros l' Hp.
  - apply Permutation_length_1_inv in Hp as ->. constructor.
  - eapply sum_add; [exact H1 | exact H2|].
    etransitivity; [symmetry; exact Hp | exact Hp0].
Qed.

Lemma sum_of_app (l1 l2 : list V) a b :
  sum_of l1 a -> sum_of l2 b -> sum_of (l1 ++ l2) (vadd a b).
Proof. intros H1 H2. by eapply sum_add. Qed.

Lemma represents_nil : represents [] [].
Proof. split; [constructor | done]. Qed.

Lemma represents_insert k v r l :
  represents r l -> represents (insert_sum k v r) (l ++ [(k, v)]).
Proof.
  intros [Hs Hc]. split; [by apply insert_sum_ascending|].
  intros k0. rewrite lookup_insert_sum by done. rewrite group_app, group_cons.
  specialize (Hc k0). case_decide as Hk.
  - subst. rewrite decide_True by done.
    destruct (lookup_index k r) as [v'|].
    + apply sum_of_app; [done | constructor].
    + rewrite Hc. constructor.
  - rewrite decide_False by done. by rewrite app_nil_r.
Qed.

Lemma represents_sort_chunk_from r l c :
  represents r l ->
  represents (foldl (fun run kv => insert_sum kv.1 kv.2 run) r c) (l ++ c).
Proof.
  revert r l. induction c as [|[k v] c IH]; intros r l Hr; simpl.
  - by rewrite app_nil_r.
  - replace (l ++ (k, v) :: c) with ((l ++ [(k, v)]) ++ c) by (by rewrite <- app_assoc).
    apply IH. by apply represents_insert.
Qed.

Lemma represents_sort_chunk c : represents (sort_chunk c) c.
Proof. apply (represents_sort_chunk_from [] [] c), represents_nil. Qed.

Lemma represents_merge r1 r2 l1 l2 :
  represents r1 l1 -> represents r2 l2 -> represents (merge_runs r1 r2) (l1 ++ l2).
Proof.
  intros [Hs1 Hc1] [Hs2 Hc2]. split; [by apply merge_runs_ascending|].
  intros k. rewrite lookup_merge_runs by done. rewrite group_app.
  specialize (Hc1 k). specialize (Hc2 k).
  destruct (lookup_index k r1), (lookup_index k r2); simpl.
  - by apply sum_of_app.
  - by rewrite Hc2, app_nil_r.
  - by rewrite Hc1.
  - by rewrite Hc1, Hc2.
Qed.

Lemma represents_merge_all acc l0 cs :
  represents acc l0 ->
  represents (foldl merge_runs acc (map sort_chunk cs)) (l0 ++ concat cs).
Proof.
  revert acc l0. induction cs as [|c cs IH]; intros acc l0 Hacc; simpl.
  - by rewrite app_nil_r.
  - rewrite app_assoc. apply IH. apply represents_merge; [done | apply represents_sort_chunk].
Qed.

Lemma concat_chunks_fuel fuel n l :
  (length l <= fuel)%nat -> (1 <= n)%nat -> concat (chunks_fuel fuel n l) = l.
Proof.
  revert l. induction fuel as [|fuel IH]; intros l Hl Hn.
  - destruct l; [done | simpl in Hl; lia].
  - destruct l as [|x l]; [done|].
    change (chunks_fuel (S fuel) n (x :: l))
      with (take n (x :: l) :: chunks_fuel fuel n (drop n (x :: l))).
    simpl concat. rewrite IH; [apply take_drop | | done].
    rewrite length_drop. simpl in *. lia.
Qed.

Lemma concat_chunks n l : concat (chunks n l) = l.
Proof. unfold chunks. apply concat_chunks_fuel; lia. Qed.

Lemma dedup_records_represents chunk l : represents (dedup_records chunk l) l.
Proof.
  unfold dedup_records.
  pose proof (represents_merge_all [] [] (chunks chunk l) represents_nil) as Hr.
  simpl in Hr. by rewrite concat_chunks in Hr.
Qed.

Lemma dedup_records_ascending chunk l : ascending (dedup_records chunk l).
Proof. apply dedup_records_represents. Qed.

Lemma dedup_records_sum chunk l k v :
  (k, v) ∈ dedup_records chunk l -> sum_of (group k l) v.
Proof.
  intros Hin. destruct (dedup_records_represents chunk l) as [Hs Hc].
  apply lookup_index_elem in Hin; [|done]. specialize (Hc k). by rewrite Hin in Hc.
Qed.

Lemma dedup_records_keys chunk l k :
  (exists v, (k, v) ∈ dedup_records chunk l) <-> (exists v, (k, v) ∈ l).
Proof.
  destruct (dedup_records_represents chunk l) as [Hs Hc]. specialize (Hc k). split.
  - intros [v Hin]. apply lookup_index_elem in Hin; [|done]. rewrite Hin in Hc.
    apply sum_of_nonempty in Hc.
    destruct (group k l) as [|w g] eqn:E; [done|].
    assert (Hw : w ∈ group k l) by (rewrite E; by left).
    unfold group in Hw. apply list_elem_of_fmap in Hw as ([k' w'] & -> & Hf).
    apply list_elem_of_filter in Hf as [Hk Hf]. simpl in Hk. subst. by exists w'.
  - intros [v Hin]. destruct (lookup_index k (dedup_records chunk l)) as [w|] eqn:E.
    + exists w. by apply lookup_index_elem.
    + pose proof (proj1 (group_nil_iff k l) Hc v) as Hno. by destruct Hno.
Qed.

Lemma ascending_lookup (l : list (index * V)) i j a b :
  ascending l -> (i < j)%nat -> l !! i = Some a -> l !! j = Some b -> lex_lt a.1 b.1.
Proof.
  intros Hs. revert i j. induction Hs as [|x l Hs IH Hall]; intros i j Hij Ha Hb.
  - by rewrite lookup_nil in Ha.
  - destruct j as [|j]; [lia|]. simpl in Hb. destruct i as [|i]; simpl in Ha.
    + simplify_eq. rewrite Forall_forall in Hall. apply Hall.
      by eapply list_elem_of_lookup_2.
    + apply (IH i j); [lia | done | done].
Qed.

End facts.
End dedup_facts.

Import dedup_facts.

Module int64_facts.

Import sparse.

Lemma zsum_perm l l' : Permutation l l' -> zsum l = zsum l'.
Proof. induction 1; simpl; lia. Qed.

Lemma int64_wrap_add a b : int64_wrap (int64_wrap a + int64_wrap b) = int64_wrap (a + b).
Proof.
  unfold int64_wrap. generalize (2 ^ 63) (2 ^ 64). intros h M. f_equal.
  replace ((a + h) mod M - h + ((b + h) mod M - h) + h)
    with ((a + h) mod M + ((b + h) mod M - h)) by ring.
  rewrite Zplus_mod_idemp_l.
  replace (a + h + ((b + h) mod M - h)) with ((b + h) mod M + a) by ring.
  rewrite Zplus_mod_idemp_l. f_equal. ring.
Qed.

(** On integers any way of adding up a group yields the wrapped sum. *)
Lemma sum_of_int64 (l : list Z) v :
  sum_of l v -> Forall (fun x => int64_wrap x = x) l -> v = int64_wrap (zsum l).
Proof.
  induction 1 as [v | l1 l2 l a b H1 IH1 H2 IH2 Hp]; intros Hl.
  - apply Forall_inv in Hl. simpl. rewrite Z.add_0_r. done.
  - assert (Hl' : Forall (fun x => int64_wrap x = x) (l1 ++ l2)).
    { rewrite Forall_forall in *. intros x Hx. apply Hl. by rewrite Hp. }
    apply Forall_app in Hl' as [Hl1 Hl2].
    rewrite (zsum_perm _ _ Hp), zsum_app. simpl.
    rewrite (IH1 Hl1), (IH2 Hl2). apply int64_wrap_add.
Qed.

End int64_facts.

Import int64_facts.

Module add_facts.

Import sparse.

Lemma vt_join_le a b : vt_le a (vt_join a b) = true /\ vt_le b (vt_join a b) = true.
Proof. by destruct a, b. Qed.

Lemma vt_le_trans a b c : vt_le a b = true -> vt_le b c = true -> vt_le a c = true.
Proof. by destruct a, b, c. Qed.

Lemma result_type_upper datas y :
  y ∈ datas -> vt_le (dtype y) (result_type datas) = true.
Proof.
  induction datas as [|x datas IH]; intros Hy; [by apply elem_of_nil in Hy|].
  simpl. apply elem_of_cons in Hy as [-> | Hy].
  - apply vt_join_le.
  - eapply vt_le_trans; [by apply IH | apply vt_join_le].
Qed.

Lemma result_type_least datas t :
  (forall y, y ∈ datas -> vt_le (dtype y) t = true) -> vt_le (result_type datas) t = true.
Proof.
  induction datas as [|x datas IH]; intros Hall; simpl.
  - by destruct t.
  - assert (H1 : vt_le (dtype x) t = true) by (apply Hall; by left).
    assert (H2 : vt_le (result_type datas) t = true) by (apply IH; intros y Hy; apply Hall; by right).
    by destruct (dtype x), (result_type datas), t.
Qed.

Lemma result_type_int datas :
  result_type datas = vt_int -> forall y, y ∈ datas -> exists d, y = IntData d.
Proof.
  intros Hr y Hy. pose proof (result_type_upper datas y Hy) as Hle. rewrite Hr in Hle.
  destruct y as [d|d]; [by exists d | done].
Qed.

Lemma shapes_agree_iff x datas :
  forallb (fun y => bool_decide (shape y = shape x)) datas = true
  <-> forall y, y ∈ datas -> shape y = shape x.
Proof.
  rewrite forallb_forall. split.
  - intros Hall y Hy. eapply bool_decide_eq_true_1. apply Hall. by apply list_elem_of_In.
  - intros Hall y Hy. apply bool_decide_eq_true_2. apply Hall. by apply list_elem_of_In.
Qed.

Lemma flat_map_as_int ds :
  flat_map (fun y => from_option records [] (as_int y)) (map IntData ds)
  = flat_map (records (V:=Z)) ds.
Proof. induction ds as [|d ds IH]; [done|]. simpl. by rewrite IH. Qed.

Lemma add_ok x datas :
  (forall y, y ∈ x :: datas -> shape y = shape x) ->
  exists out, add (x :: datas) = Ok out
    /\ shape out = shape x
    /\ dtype out = result_type (x :: datas)
    /\ records (as_float out) = flat_map (fun y => records (as_float y)) (x :: datas)
    /\ (forall ds, x :: datas = map IntData ds ->
          out = IntData (mk_data (shape x) (flat_map records ds))).
Proof.
  intros Hall. unfold add.
  rewrite (proj2 (shapes_agree_iff x (x :: datas)) Hall).
  destruct (result_type (x :: datas)) eqn:Er.
  - eexists. split; [reflexivity|]. split; [done|]. split; [done|]. split.
    + cbn [as_float records extents].
      pose proof (result_type_int _ Er) as Hint.
      generalize dependent (x :: datas). intros l _ _ Hint.
      induction l as [|y l IH]; [done|].
      destruct (Hint y) as [d ->]; [by left|]. simpl.
      rewrite map_app. f_equal. apply IH. intros z Hz. apply Hint. by right.
    + intros ds Hds. rewrite Hds. by rewrite flat_map_as_int.
  - eexists. split; [reflexivity|]. split; [done|]. split; [done|]. split; [done|].
    intros ds Hds. exfalso. rewrite Hds in Er. clear -Er.
    induction ds as [|d ds IH]; [done|]. simpl in Er. destruct (result_type (map IntData ds)); [by apply IH | done].
Qed.

Lemma add_shape_mismatch x datas y :
  y ∈ x :: datas -> shape y <> shape x ->
  add (x :: datas) = Raise (ValueError "add: shapes differ").
Proof.
  intros Hy Hne. unfold add.
  destruct (forallb _ (x :: datas)) eqn:E; [|done].
  pose proof (proj1 (shapes_agree_iff x (x :: datas)) E y Hy) as Heq. by destruct (Hne Heq).
Qed.

End add_facts.

Import add_facts.

(** ** Widening of integers to binary64 *)

Module widening_facts.

Import sparse.

Lemma digits2_pos_size m : digits2_pos m = Pos.size m.
Proof. induction m as [m IH|m IH|]; simpl; by rewrite ?IH. Qed.

Lemma digits2_pos_iter m k :
  digits2_pos (Pos.iter xO m k) = (digits2_pos m + k)%positive.
Proof.
  induction k as [|k IH] using Pos.peano_ind.
  - simpl. lia.
  - rewrite Pos.iter_succ. simpl. rewrite IH. lia.
Qed.

Lemma pos_iter_xO m k : Z.pos (Pos.iter xO m k) = Z.pos m * 2 ^ Z.pos k.
Proof.
  induction k as [|k IH] using Pos.peano_ind.
  - simpl. lia.
  - rewrite Pos.iter_succ, Pos2Z.inj_xO, IH, Pos2Z.inj_succ, Z.pow_succ_r by lia. lia.
Qed.

Lemma digits2_pos_bound m : Z.pos m < 2 ^ 53 -> Z.pos (digits2_pos m) <= 53.
Proof.
  intros Hm. rewrite digits2_pos_size.
  pose proof (Pos.size_le m) as Hle.
  apply Pos2Z.pos_le_pos in Hle. rewrite Pos2Z.inj_pow, Pos2Z.inj_xO in Hle.
  destruct (Z.le_gt_cases (Z.pos (Pos.size m)) 53) as [|Hgt]; [done|exfalso].
  assert (H54 : 2 ^ 54 <= 2 ^ Z.pos (Pos.size m)) by (apply Z.pow_le_mono_r; lia).
  change ((2 * 1) ^ Z.pos (Pos.size m)) with (2 ^ Z.pos (Pos.size m)) in Hle. lia.
Qed.

Lemma binary_round_aux_canonical s mz ez :
  Z.pos (digits2_pos mz) = 53 -> -1074 <= ez <= 971 ->
  binary_round_aux prec emax s (Z.pos mz) ez loc_Exact = S754_finite s mz ez.
Proof.
  intros Hd He. unfold binary_round_aux, shr_fexp. cbn [Zdigits2]. rewrite Hd.
  replace (fexp prec emax (53 + ez) - ez) with 0
    by (unfold fexp, SpecFloat.emin, prec, emax; lia).
  cbn. rewrite Hd.
  replace (fexp prec emax (53 + ez) - ez) with 0
    by (unfold fexp, SpecFloat.emin, prec, emax; lia).
  cbn. unfold prec, emax. by rewrite (Zle_imp_le_bool ez (1024 - 53)) by lia.
Qed.

Lemma binary_round_small s m :
  Z.pos (digits2_pos m) <= 53 ->
  exists mz ez,
    binary_round prec emax s m 0 = S754_finite s mz ez
    /\ Z.pos (digits2_pos mz) = 53 /\ -52 <= ez <= 0
    /\ Z.pos mz = Z.pos m * 2 ^ (- ez).
Proof.
  intros Hd. unfold binary_round, shl_align.
  replace (fexp prec emax (Z.pos (digits2_pos m) + 0)) with (Z.pos (digits2_pos m) - 53)
    by (unfold fexp, SpecFloat.emin, prec, emax; lia).
  destruct (Z.pos (digits2_pos m) - 53 - 0) as [|k|k] eqn:Ek; [|lia|].
  - exists m, 0. split; [apply binary_round_aux_canonical; lia|]. split; [lia|]. split; [lia|].
    simpl. lia.
  - exists (Pos.iter xO m k), (Z.pos (digits2_pos m) - 53).
    assert (Hk : Z.pos k = 53 - Z.pos (digits2_pos m)) by lia.
    assert (Hdig : Z.pos (digits2_pos (Pos.iter xO m k)) = 53).
    { rewrite digits2_pos_iter. lia. }
    split; [apply binary_round_aux_canonical; [done|lia]|].
    split; [done|]. split; [lia|].
    rewrite pos_iter_xO. f_equal. f_equal. lia.
Qed.

Lemma of_int_small z :
  Z.abs z < 2 ^ 53 -> to_int (of_int z) = Some z /\ valid_binary prec emax (of_int z) = true.
Proof.
  intros Hz. destruct z as [|m|m]; [done| |].
  - destruct (binary_round_small false m) as (mz & ez & Hr & Hd & He & Hv).
    { apply digits2_pos_bound. lia. }
    unfold of_int, binary_normalize. rewrite Hr. split.
    + unfold to_int. rewrite Hv. destruct (0 <=? ez) eqn:E.
      * apply Z.leb_le in E. replace ez with 0 by lia. simpl. f_equal. lia.
      * rewrite Z.mod_mul by lia. simpl. rewrite Z.div_mul by lia. done.
    + unfold valid_binary, bounded, canonical_mantissa. rewrite Hd.
      apply andb_true_intro. split.
      * apply Z.eqb_eq. unfold fexp, SpecFloat.emin, prec, emax. lia.
      * apply Z.leb_le. unfold prec, emax. lia.
  - destruct (binary_round_small true m) as (mz & ez & Hr & Hd & He & Hv).
    { apply digits2_pos_bound. lia. }
    unfold of_int, binary_normalize. rewrite Hr. split.
    + unfold to_int. change (Z.neg mz) with (- Z.pos mz). rewrite Hv.
      destruct (0 <=? ez) eqn:E.
      * apply Z.leb_le in E. replace ez with 0 by lia. simpl. f_equal. lia.
      * rewrite <- Z.mul_opp_l. rewrite Z.mod_mul by lia. simpl.
        rewrite Z.div_mul by lia. done.
    + unfold valid_binary, bounded, canonical_mantissa. rewrite Hd.
      apply andb_true_intro. split.
      * apply Z.eqb_eq. unfold fexp, SpecFloat.emin, prec, emax. lia.
      * apply Z.leb_le. unfold prec, emax. lia.
Qed.

Lemma of_int_exact z :
  Z.abs z <= 2 ^ 53 -> to_int (of_int z) = Some z /\ valid_binary prec emax (of_int z) = true.
Proof.
  intros Hz. destruct (Z.eq_dec (Z.abs z) (2 ^ 53)) as [He|Hne].
  - destruct (Z.abs_eq_or_opp z) as [Hp|Hp]; rewrite Hp in He.
    + subst z. by vm_compute.
    + assert (z = - 2 ^ 53) as -> by lia. by vm_compute.
  - apply of_int_small. lia.
Qed.

Lemma result_type_all_int datas :
  result_type datas = vt_int <-> forall y, y ∈ datas -> dtype y = vt_int.
Proof.
  induction datas as [|x datas IH]; simpl.
  - split; [|done]. intros _ y Hy. by apply elem_of_nil in Hy.
  - split.
    + intros Hj y Hy. destruct (dtype x) eqn:Ex, (result_type datas) eqn:Er; try done.
      apply elem_of_cons in Hy as [-> | Hy]; [done|]. by apply IH.
    + intros Hall. rewrite (Hall x) by (by left).
      rewrite (proj2 IH); [done|]. intros y Hy. apply Hall. by right.
Qed.

End widening_facts.

Import widening_facts.

Module block_facts.

Import sparse.

Lemma sequence_raise {A} (rs : list (result A)) :
  (exists e, Raise e ∈ rs) -> exists e, sequence rs = Raise e /\ Raise e ∈ rs.
Proof.
  induction rs as [|r rs IH]; intros [e He]; [by apply elem_of_nil in He|].
  simpl. destruct r as [a | e'].
  - apply elem_of_cons in He as [? | He]; [done|].
    destruct IH as (e1 & -> & Hin); [by exists e|]. simpl. exists e1. split; [done | by right].
  - simpl. exists e'. split; [done | by left].
Qed.

Section facts.
Context {V : Type}.

Lemma imap_fixed {A} (f : nat -> A -> A) (l : list A) :
  (forall k x, f k x = x) -> imap f l = l.
Proof.
  revert f. induction l as [|x l IH]; intros f Hf; [done|].
  simpl. rewrite Hf. f_equal. apply IH. intros k y. apply Hf.
Qed.

Lemma shift_index_axis0 (exts_row : list nat) p (i : index) :
  shift_index [exts_row] [p] i
  = match i with [] => [] | i0 :: rest => (sum_list (take p exts_row) + i0)%nat :: rest end.
Proof.
  destruct i as [|i0 rest]; [done|]. unfold shift_index. simpl. f_equal.
  apply imap_fixed. intros k x. simpl. by destruct k.
Qed.

Lemma block_three (A B C : data V) a b c :
  extents A = [a] -> extents B = [b] -> extents C = [c] ->
  block (Nested [Leaf (Some A); Leaf (Some B); Leaf (Some C)])
  = Ok (mk_data [a + b + c]%nat
          (records A ++ map (shift0 a) (records B) ++ map (shift0 (a + b)) (records C))).
Proof.
  intros HA HB HC. unfold block. simpl leaves. cbn [depth fst length].
  unfold npositions. cbn [map fst lookup list_lookup foldr Nat.max seq].
  unfold group_extent, group_extents. simpl.
  rewrite HA, HB, HC. simpl.
  f_equal. f_equal.
  - f_equal. lia.
  - rewrite app_nil_r. f_equal; [| f_equal].
    + rewrite <- (map_id (records A)) at 2. apply map_ext. intros [i v].
      rewrite shift_index_axis0. simpl. by destruct i.
    + apply map_ext. intros [i v]. rewrite shift_index_axis0. unfold shift0. simpl.
      destruct i; [done|]. do 2 f_equal. lia.
    + apply map_ext. intros [i v]. rewrite shift_index_axis0. unfold shift0. simpl.
      destruct i; [done|]. do 2 f_equal. lia.
Qed.

Lemma group_extent_raise (ls : list (list nat * option (data V))) k p :
  group_extents ls k p = [] ->
  group_extent ls k p = Raise (ValueError "block: group without a present leaf").
Proof. intros E. unfold group_extent. by rewrite E. Qed.

Lemma block_empty_group (s : structure V) k p :
  (k < depth (leaves s))%nat -> (p < npositions (leaves s) k)%nat ->
  group_extents (leaves s) k p = [] ->
  exists e, block s = Raise e.
Proof.
  intros Hk Hp Hg. unfold block.
  set (ls := leaves s) in *.
  destruct (sequence_raise
    (map (group_extent ls k) (seq 0 (npositions ls k)))) as (e1 & He1 & _).
  { exists (ValueError "block: group without a present leaf").
    apply list_elem_of_fmap. exists p. split; [by rewrite group_extent_raise|].
    apply elem_of_seq. lia. }
  destruct (sequence_raise
    (map (fun k => sequence (map (group_extent ls k) (seq 0 (npositions ls k))))
         (seq 0 (depth ls)))) as (e2 & -> & _).
  { exists e1. apply list_elem_of_fmap. exists k. split; [done|]. apply elem_of_seq. lia. }
  by exists e2.
Qed.

End facts.
End block_facts.

Import block_facts.

Module Integral_facts.

Import sample.Integral.
Section facts.
Context `{FC : FunctionCollaborator}.

Implicit Types (d : dict) (k s : Sample) (f g : Func).

Lemma dict_get_set k v d k' :
  dict_get k' (dict_set k v d) = if decide (k' = k) then Some v else dict_get k' d.
Proof.
  induction d as [|[k0 v0] d IH]; simpl.
  - by repeat case_decide.
  - repeat case_decide; simplify_eq; simpl; repeat case_decide; simplify_eq; done.
Qed.

Lemma keys_dict_set k v d :
  keys (dict_set k v d) = if decide (k ∈ keys d) then keys d else keys d ++ [k].
Proof.
  unfold keys. induction d as [|[k0 v0] d IH].
  - cbn [dict_set map fst]. rewrite decide_False; [done | by intros ?%elem_of_nil].
  - cbn [dict_set]. destruct (decide (k = k0)) as [-> | Hne].
    + cbn [map fst]. rewrite decide_True by (apply elem_of_cons; by left). done.
    + cbn [map fst]. rewrite IH.
      destruct (decide (k ∈ map fst d)) as [Hin | Hnin].
      * rewrite decide_True by (apply elem_of_cons; by right). done.
      * rewrite decide_False; [done|]. intros [? | ?]%elem_of_cons; done.
Qed.

Lemma NoDup_dict_set k v d : NoDup (keys d) -> NoDup (keys (dict_set k v d)).
Proof.
  intros Hd. rewrite keys_dict_set. case_decide; [done|].
  apply NoDup_app. split; [done|]. split.
  - intros x Hx ?%list_elem_of_singleton. by subst.
  - apply NoDup_singleton.
Qed.

Lemma dict_get_None k d : dict_get k d = None <-> k ∉ keys d.
Proof.
  induction d as [|[k0 v0] d IH]; simpl.
  - split; [intros _ ?%elem_of_nil; done | done].
  - case_decide as E.
    + subst. split; [done|]. intros Hn. exfalso. apply Hn. by left.
    + rewrite IH. unfold keys. simpl. rewrite not_elem_of_cons.
      split; [intros Hn; by split | by intros [_ Hn]].
Qed.

Lemma dict_get_elem k f d : NoDup (keys d) -> (dict_get k d = Some f <-> (k, f) ∈ d).
Proof.
  induction d as [|[k0 v0] d IH]; intros Hd; simpl.
  - split; [done | by intros ?%elem_of_nil].
  - apply NoDup_cons in Hd as [Hk0 Hd]. rewrite elem_of_cons. case_decide as E.
    + subst. split; [intros ?; simplify_eq; by left|].
      intros [? | Hin]; [by simplify_eq|]. exfalso. apply Hk0.
      apply list_elem_of_fmap. by exists (k0, f).
    + rewrite IH by done. split; [by right|]. intros [? | ?]; [by simplify_eq | done].
Qed.

(** *** [frozendict] *)

Lemma frozendict_from_spec (h : Func -> Func) items acc :
  NoDup (keys acc) ->
  let d := foldl (fun d kv => dict_set kv.1 (h kv.2) d) acc items in
  NoDup (keys d) /\
  forall k, dict_get k d
    = match dict_get k (rev items) with
      | Some f => Some (h f)
      | None => dict_get k acc
      end.
Proof.
  revert acc. induction items as [|[k0 f0] items IH]; intros acc Hacc; simpl.
  - done.
  - destruct (IH (dict_set k0 (h f0) acc)) as [Hnd Hget]; [by apply NoDup_dict_set|].
    split; [done|]. intros k. rewrite Hget.
    assert (Happ : forall d1 d2, dict_get k (d1 ++ d2)
              = match dict_get k d1 with Some f => Some f | None => dict_get k d2 end).
    { clear. induction d1 as [|[k1 f1] d1 IH1]; intros d2; simpl; [done|].
      case_decide; [done | apply IH1]. }
    rewrite Happ. destruct (dict_get k (rev items)); [done|].
    simpl. rewrite dict_get_set. by case_decide.
Qed.

Lemma frozendict_NoDup items : NoDup (keys (frozendict items)).
Proof. apply (frozendict_from_spec simplified items []). constructor. Qed.

Lemma dict_get_rev k d : NoDup (keys d) -> dict_get k (rev d) = dict_get k d.
Proof.
  intros Hd. assert (Hr : NoDup (keys (rev d))).
  { unfold keys. rewrite map_rev. apply NoDup_ListNoDup, NoDup_rev. by apply NoDup_ListNoDup. }
  destruct (dict_get k d) as [f|] eqn:E.
  - apply dict_get_elem; [done|]. apply list_elem_of_In, in_rev. rewrite rev_involutive.
    apply list_elem_of_In. by apply dict_get_elem.
  - apply dict_get_None. apply dict_get_None in E. unfold keys in *.
    rewrite map_rev. intros Hin. apply E. apply list_elem_of_In, in_rev.
    by apply list_elem_of_In.
Qed.

Lemma dict_get_frozendict k d :
  NoDup (keys d) -> dict_get k (frozendict d) = simplified <$> dict_get k d.
Proof.
  intros Hd. destruct (frozendict_from_spec simplified d [] (NoDup_nil_2)) as [_ Hget].
  unfold frozendict. rewrite Hget, dict_get_rev by done.
  by destruct (dict_get k d).
Qed.

Lemma keys_filter (P : Sample * Func -> Prop) `{!forall x, Decision (P x)} d :
  NoDup (keys d) -> NoDup (keys (filter P d)).
Proof.
  unfold keys, dict in *. induction d as [|kv d IH]; intros Hd; [constructor|].
  simpl in Hd. apply NoDup_cons in Hd as [Hk Hd].
  destruct (decide (P kv)) as [Hp | Hp].
  - rewrite filter_cons_True by done. simpl. apply NoDup_cons. split; [|by apply IH].
    intros Hin. apply Hk. apply list_elem_of_fmap in Hin as (x & -> & Hx).
    apply list_elem_of_filter in Hx as [_ Hx]. apply list_elem_of_fmap. by exists x.
  - rewrite filter_cons_False by done. by apply IH.
Qed.

Lemma dict_get_filter_nonzero k d :
  NoDup (keys d) ->
  dict_get k (filter (fun kv => iszero kv.2 = false) d)
  = match dict_get k d with Some f => keep f | None => None end.
Proof.
  unfold keys, dict in *. induction d as [|[k0 f0] d IH]; intros Hd; [done|].
  simpl in Hd. apply NoDup_cons in Hd as [Hk Hd].
  destruct (iszero f0) eqn:Hz.
  - rewrite filter_cons_False by (simpl; congruence). rewrite IH by done. simpl.
    case_decide as E; [|done]. subst. unfold keep. rewrite Hz.
    apply dict_get_None in Hk. by rewrite Hk.
  - rewrite filter_cons_True by done. simpl.
    case_decide as E; [subst; unfold keep; by rewrite Hz | by apply IH].
Qed.

(** *** The constructor *)

Lemma init_ok items shp :
  (forall k f, (k, f) ∈ frozendict items -> fshape f = shp) ->
  __init__ items shp
  = Ok (mk (filter (fun kv => iszero kv.2 = false) (frozendict items)) shp).
Proof.
  intros Hall. unfold __init__.
  assert (forallb (fun kv => bool_decide (fshape kv.2 = shp)) (frozendict items) = true) as ->; [|done].
  apply forallb_forall. intros [k f] Hin. apply bool_decide_eq_true_2.
  apply (Hall k). by apply list_elem_of_In.
Qed.

Lemma init_inv items shp a :
  __init__ items shp = Ok a ->
  a = mk (filter (fun kv => iszero kv.2 = false) (frozendict items)) shp
  /\ forall k f, (k, f) ∈ frozendict items -> fshape f = shp.
Proof.
  unfold __init__. destruct (forallb _ _) eqn:E; [|done]. intros ?; simplify_eq.
  split; [done|]. intros k f Hin. rewrite forallb_forall in E.
  apply list_elem_of_In in Hin. apply E in Hin. by apply bool_decide_eq_true_1 in Hin.
Qed.

Lemma frozendict_values k f items :
  (k, f) ∈ frozendict items -> exists f0, f = simplified f0.
Proof.
  intros Hin. apply dict_get_elem in Hin; [|apply frozendict_NoDup].
  destruct (frozendict_from_spec simplified items [] (NoDup_nil_2)) as [_ Hget].
  unfold frozendict in Hin. rewrite Hget in Hin.
  destruct (dict_get k (rev items)) as [f0|]; [|done]. simplify_eq. by exists f0.
Qed.

(** What construction guarantees of an Integral. *)
Lemma is_Integral_inv a :
  is_Integral a ->
  NoDup (keys (_integrands a)) /\
  forall k f, (k, f) ∈ _integrands a ->
    fshape f = shape a /\ iszero f = false /\ exists f0, f = simplified f0.
Proof.
  intros (items & shp & Hinit). apply init_inv in Hinit as [-> Hsh]. simpl. split.
  - apply keys_filter, frozendict_NoDup.
  - intros k f Hin. apply list_elem_of_filter in Hin as [Hz Hin]. simpl in Hz.
    split; [by eapply Hsh|]. split; [done|]. by eapply frozendict_values.
Qed.

(** *** Sum, negation, difference *)

Lemma add_terms_spec A B :
  NoDup (keys A) -> NoDup (keys B) ->
  NoDup (keys (foldl add_term A B)) /\
  forall k, dict_get k (foldl add_term A B) = merge_terms (dict_get k A) (dict_get k B).
Proof.
  revert A. induction B as [|[k0 g0] B IH]; intros A HA HB; simpl.
  - split; [done|]. intros k. by destruct (dict_get k A).
  - unfold keys in HB. simpl in HB. apply NoDup_cons in HB as [Hk0 HB].
    assert (HB0 : dict_get k0 B = None) by (by apply dict_get_None).
    assert (HA' : NoDup (keys (add_term A (k0, g0)))).
    { unfold add_term. simpl. destruct (dict_get k0 A); by apply NoDup_dict_set. }
    destruct (IH _ HA' HB) as [Hnd Hget]. split; [done|].
    intros k. rewrite Hget. unfold add_term. simpl.
    destruct (decide (k = k0)) as [-> | Hne].
    + rewrite HB0.
      destruct (dict_get k0 A) as [f|] eqn:EA; rewrite dict_get_set, decide_True by done; done.
    + destruct (dict_get k0 A) as [f|] eqn:EA; rewrite dict_get_set, decide_False by done;
        by destruct (dict_get k A).
Qed.

Lemma elem_keys k f d : (k, f) ∈ d -> k ∈ keys d.
Proof. intros Hin. apply list_elem_of_fmap. by exists (k, f). Qed.

End facts.
End Integral_facts.

Import Integral_facts.

Module Integral_algebra.

Import sample.Integral.
Section facts.
Context `{FC : FunctionCollaborator}.

Implicit Types (d : dict) (k s : Sample) (f g : Func).

Lemma init_lookup items shp :
  NoDup (keys items) ->
  (forall k h, dict_get k items = Some h -> fshape (simplified h) = shp) ->
  exists c, __init__ items shp = Ok c /\ shape c = shp /\
    forall s, dict_get s (_integrands c) = constructed (dict_get s items).
Proof.
  intros Hnd Hsh. rewrite init_ok.
  - eexists. split; [reflexivity|]. split; [done|]. intros s. simpl.
    rewrite dict_get_filter_nonzero by apply frozendict_NoDup.
    rewrite dict_get_frozendict by done. by destruct (dict_get s items).
  - intros k f Hin. apply dict_get_elem in Hin; [|apply frozendict_NoDup].
    rewrite dict_get_frozendict in Hin by done.
    destruct (dict_get k items) as [h|] eqn:E; [|done]. simpl in Hin. simplify_eq.
    by eapply Hsh.
Qed.

Section laws.

(** What the sums below need of the function collaborator: simplifying
    and adding keep the shape. *)
Hypothesis simplified_shape : forall f, fshape (simplified f) = fshape f.
Hypothesis fadd_shape : forall f g, fshape f = fshape g -> fshape (fadd f g) = fshape f.

Lemma add_spec (a b : t) :
  is_Integral a -> is_Integral b -> shape a = shape b ->
  exists c, __add__ a b = Ok c /\ shape c = shape a /\
    forall s, dict_get s (_integrands c)
      = constructed (merge_terms (dict_get s (_integrands a)) (dict_get s (_integrands b))).
Proof.
  intros Ha Hb Hshape.
  destruct (is_Integral_inv a Ha) as [HAnd HA].
  destruct (is_Integral_inv b Hb) as [HBnd HB].
  destruct (add_terms_spec (_integrands a) (_integrands b) HAnd HBnd) as [Hnd Hget].
  unfold __add__. rewrite bool_decide_eq_true_2 by done.
  destruct (init_lookup (foldl add_term (_integrands a) (_integrands b)) (shape a) Hnd)
    as (c & Hc & Hsc & Hlook).
  - intros k h Hk. rewrite Hget in Hk. rewrite simplified_shape.
    destruct (dict_get k (_integrands a)) as [f|] eqn:EA;
      destruct (dict_get k (_integrands b)) as [g|] eqn:EB; simpl in Hk; simplify_eq.
    + apply dict_get_elem in EA; [|done]. apply dict_get_elem in EB; [|done].
      destruct (HA _ _ EA) as [Hf _]. destruct (HB _ _ EB) as [Hg _].
      rewrite fadd_shape; congruence.
    + apply dict_get_elem in EA; [|done]. by destruct (HA _ _ EA).
    + apply dict_get_elem in EB; [|done]. destruct (HB _ _ EB) as [Hg _]. congruence.
  - exists c. split; [done|]. split; [done|]. intros s. by rewrite Hlook, Hget.
Qed.

(** With an idempotent simplifier the term of a Sample that occurs in one
    operand only is kept as it is. *)
Lemma constructed_term (a : t) s f :
  (forall f, simplified (simplified f) = simplified f) ->
  is_Integral a -> dict_get s (_integrands a) = Some f -> constructed (Some f) = Some f.
Proof.
  intros Hidem Ha Hf. destruct (is_Integral_inv a Ha) as [Hnd HA].
  apply dict_get_elem in Hf; [|done]. destruct (HA _ _ Hf) as (_ & Hz & f0 & ->).
  simpl. rewrite Hidem. unfold keep. by rewrite Hz.
Qed.

Lemma dict_get_map_values (h : Func -> Func) d s :
  dict_get s (map (fun kv => (kv.1, h kv.2)) d) = h <$> dict_get s d.
Proof.
  induction d as [|[k f] d IH]; [done|]. simpl. by case_decide.
Qed.

Lemma neg_spec (b : t) :
  (forall f, fshape (fneg f) = fshape f) ->
  is_Integral b ->
  exists nb, __neg__ b = Ok nb /\ shape nb = shape b /\ is_Integral nb /\
    forall s, dict_get s (_integrands nb)
      = constructed (fneg <$> dict_get s (_integrands b)).
Proof.
  intros Hneg Hb. destruct (is_Integral_inv b Hb) as [HBnd HB]. unfold __neg__.
  destruct (init_lookup (map (fun kv => (kv.1, fneg kv.2)) (_integrands b)) (shape b))
    as (c & Hc & Hsc & Hlook).
  - unfold keys in *. rewrite map_map. simpl. done.
  - intros k h Hk. rewrite dict_get_map_values in Hk.
    destruct (dict_get k (_integrands b)) as [g|] eqn:EB; [|done]. simpl in Hk. simplify_eq.
    apply dict_get_elem in EB; [|done]. destruct (HB _ _ EB) as [Hg _].
    by rewrite simplified_shape, Hneg.
  - exists c. split; [done|]. split; [done|]. split.
    + by eexists _, _.
    + intros s. by rewrite Hlook, dict_get_map_values.
Qed.

End laws.

(** *** [_argshape] and [contains] *)

Lemma remove_dups_nil {A} `{EqDecision A} (l : list A) : remove_dups l = [] <-> l = [].
Proof.
  split; [| by intros ->]. intros E. destruct l as [|x l]; [done|]. exfalso.
  assert (Hx : x ∈ remove_dups (x :: l)) by (apply elem_of_remove_dups; by left).
  rewrite E in Hx. by apply elem_of_nil in Hx.
Qed.

Lemma flat_map_nil {A B} (h : A -> list B) (l : list A) :
  flat_map h l = [] <-> forall x, x ∈ l -> h x = [].
Proof.
  induction l as [|x l IH]; simpl.
  - split; [intros _ y Hy; by apply elem_of_nil in Hy | done].
  - split.
    + intros [Hx Hl]%app_eq_nil y [-> | Hy]%elem_of_cons; [done | by apply IH].
    + intros Hall. rewrite (Hall x) by (by left). apply IH. intros y Hy. apply Hall. by right.
Qed.

Lemma argshapes_nil self name : argshapes self name = [] <-> ~ occurs self name.
Proof.
  unfold argshapes, occurs, occurrence. rewrite remove_dups_nil, flat_map_nil. split.
  - intros Hall (func & Hin & Hname). specialize (Hall func Hin).
    rewrite Hname, decide_True in Hall by done. done.
  - intros Hno func Hin. destruct (argument_name func) as [n|] eqn:E; [|done].
    case_decide; [|done]. subst. exfalso. apply Hno. by exists func.
Qed.

Lemma argshape_cases self name :
  match argshapes self name with
  | [] => _argshape self name = Raise (KeyError name) /\ contains self name = Ok false
  | [shp] => _argshape self name = Ok shp /\ contains self name = Ok true
  | _ :: _ :: _ =>
      _argshape self name = Raise (AssertionError "inconsistent shapes for argument")
      /\ contains self name = Raise (AssertionError "inconsistent shapes for argument")
  end.
Proof.
  unfold contains, _argshape. by destruct (argshapes self name) as [|x [|y l]].
Qed.

End facts.
End Integral_algebra.

Import Integral_algebra.

Module eval_facts.

Import sample.
Section facts.
Context `{FC : FunctionCollaborator}.

Lemma sequence_ok {A} (rs : list (result A)) (P : A -> Prop) :
  Forall (fun r => exists a, r = Ok a /\ P a) rs ->
  exists l, sequence rs = Ok l /\ length l = length rs /\
    forall i r, rs !! i = Some r -> exists a, l !! i = Some a /\ r = Ok a /\ P a.
Proof.
  induction 1 as [|r rs (a & -> & Ha) Hrs (l & IH1 & IH2 & IH3)]; simpl.
  - exists []. split; [done|]. split; [done|]. intros i r Hr. by rewrite lookup_nil in Hr.
  - rewrite IH1. simpl. exists (a :: l). split; [done|]. split; [simpl; lia|].
    intros [|i] r Hr; simpl in *; [simplify_eq; by exists a | by apply IH3].
Qed.

(** *** Gathering the obligations *)

Lemma gather_item_elem k v (g : list (Sample * list nat)) s vs v' :
  (s, vs) ∈ gather_item k v g -> v' ∈ vs ->
  (exists vs0, (s, vs0) ∈ g /\ v' ∈ vs0) \/ (s = k /\ v' = v).
Proof.
  induction g as [|[k0 vs0] g IH]; simpl; intros Hin Hv.
  - apply list_elem_of_singleton in Hin. simplify_eq.
    apply list_elem_of_singleton in Hv. by right.
  - case_decide as E.
    + subst. apply elem_of_cons in Hin as [Heq | Hin].
      * simplify_eq. apply elem_of_app in Hv as [Hv | Hv].
        -- left. eexists. split; [by left | done].
        -- apply list_elem_of_singleton in Hv. by right.
      * left. exists vs. split; [by right | done].
    + apply elem_of_cons in Hin as [Heq | Hin].
      * simplify_eq. left. eexists. split; [by left | done].
      * destruct (IH Hin Hv) as [(vs1 & H1 & H2) | H]; [|by right].
        left. exists vs1. split; [by right | done].
Qed.

Lemma gather_elem items s vs v :
  (s, vs) ∈ gather items -> v ∈ vs -> (s, v) ∈ items.
Proof.
  unfold gather.
  assert (Hgen : forall acc,
    (s, vs) ∈ foldl (fun g kv => gather_item kv.1 kv.2 g) acc items -> v ∈ vs ->
    (exists vs0, (s, vs0) ∈ acc /\ v ∈ vs0) \/ (s, v) ∈ items).
  { induction items as [|[k0 v0] items IH]; intros acc Hin Hv; simpl in *.
    - left. by exists vs.
    - destruct (IH _ Hin Hv) as [(vs0 & H0 & Hv0) | H]; [|right; by right].
      destruct (gather_item_elem _ _ _ _ _ _ H0 Hv0) as [H1 | [-> ->]]; [by left|].
      right. by left. }
  intros Hin Hv. destruct (Hgen [] Hin Hv) as [(vs0 & H0 & _) | H]; [|done].
  by apply elem_of_nil in H0.
Qed.

Lemma obligations_elem (integrals : list Integral.t) s iint :
  (s, iint) ∈ obligations integrals ->
  exists integral f, integrals !! iint = Some integral
    /\ (s, f) ∈ Integral._integrands integral.
Proof.
  unfold obligations. rewrite list_elem_of_In, in_flat_map.
  intros ([i integral] & Hi & Hs). simpl in Hs. apply in_map_iff in Hs as ([s' f] & Heq & Hf).
  simpl in Heq. simplify_eq.
  apply list_elem_of_In, list_elem_of_lookup in Hi as [j Hj].
  rewrite enumerate_lookup in Hj. destruct (integrals !! j) eqn:E; [|done]. simpl in Hj.
  simplify_eq. exists integral, f. split; [done | by apply list_elem_of_In].
Qed.

(** *** The result lists *)

Lemma seeded_seed integrals : seeded integrals (seed integrals).
Proof.
  split; [unfold seed; by rewrite length_map|].
  intros i integral Hi. exists []. unfold seed. rewrite list_lookup_fmap, Hi. done.
Qed.

Lemma append_ok integrals retvals iint integral r :
  seeded integrals retvals -> integrals !! iint = Some integral ->
  Integral._integrands integral <> [] ->
  sparse.shape r = Integral.shape integral ->
  exists retvals', append_to retvals (iint, r) = Ok retvals' /\ seeded integrals retvals'.
Proof.
  intros [Hlen Hs] Hi Hne Hr. unfold append_to. simpl.
  destruct (Hs iint integral Hi) as (cs & Hl & Hcs & _). rewrite Hl.
  eexists. split; [reflexivity|]. split; [by rewrite length_insert|].
  intros j integral' Hj. destruct (decide (j = iint)) as [-> | Hji].
  - simplify_eq. exists (cs ++ [r]).
    rewrite list_lookup_insert_eq by (by eapply lookup_lt_Some).
    split; [done|]. split; [|done]. apply Forall_app. split; [done | by constructor].
  - rewrite list_lookup_insert_ne by done. by apply Hs.
Qed.

Section run.

Variables (integrals : list Integral.t) (arguments : EvalArgs).
Hypothesis Hint : Forall is_Integral integrals.
Hypothesis Hprep : forall n f, fshape (prepare_eval n f) = fshape f.

Lemma integrand_of_ok s iint :
  (s, iint) ∈ obligations integrals ->
  exists integral f, integrand_of integrals s iint = Ok f
    /\ integrals !! iint = Some integral
    /\ Integral._integrands integral <> []
    /\ fshape f = Integral.shape integral.
Proof.
  intros Hob. destruct (obligations_elem integrals s iint Hob) as (integral & f & Hi & Hf).
  assert (Hii : is_Integral integral).
  { rewrite Forall_forall in Hint. apply Hint. by eapply list_elem_of_lookup_2. }
  destruct (is_Integral_inv integral Hii) as [Hnd Hall].
  exists integral, f. unfold integrand_of. rewrite Hi.
  apply dict_get_elem in Hf as Hget; [|done]. rewrite Hget.
  split; [done|]. split; [done|]. split.
  - intros E. rewrite E in Hf. by apply elem_of_nil in Hf.
  - by destruct (Hall _ _ Hf).
Qed.

Lemma visit_ok retvals s iints tr :
  (s, iints) ∈ gather (obligations integrals) ->
  (forall funcs, sequence (map (integrand_of integrals s) iints) = Ok funcs ->
     no_wrap s funcs arguments) ->
  seeded integrals retvals ->
  exists retvals' tr', visit integrals arguments retvals (s, iints) tr = (Ok retvals', tr')
    /\ seeded integrals retvals'.
Proof.
  intros Hg Hnw Hseed. unfold visit. cbn [fst snd].
  destruct (sequence_ok (map (integrand_of integrals s) iints)
    (fun f => exists iint integral, integrand_of integrals s iint = Ok f
       /\ integrals !! iint = Some integral)) as (funcs & Hseq & Hlen & Hfuncs).
  { apply Forall_map, Forall_forall. intros iint Hi.
    destruct (integrand_of_ok s iint) as (integral & f & Hf & Hi' & _).
    - by eapply gather_elem.
    - exists f. split; [done|]. by exists iint, integral. }
  unfold Traced.bind at 1. unfold Traced.lift at 1. rewrite Hseq.
  destruct (integrate_sparse_ok s funcs arguments tr (Hnw funcs Hseq))
    as (results & tr' & Hrun & Hlr & Hshapes).
  unfold Traced.bind at 1. rewrite Hrun. unfold Traced.lift.
  rewrite length_map in Hlen.
  destruct (for_each_invariant append_to (seeded integrals) (zip iints results) retvals Hseed)
    as (retvals' & -> & Hseed').
  - intros st [iint r] Hin Hst.
    apply list_elem_of_lookup in Hin as [j Hj].
    apply lookup_zip_with_Some in Hj as (iint' & r' & Heq & Hji & Hjr). simplify_eq.
    destruct (integrand_of_ok s iint') as (integral & f & Hf & Hi' & Hne & Hfs).
    { eapply gather_elem; [exact Hg | by eapply list_elem_of_lookup_2]. }
    destruct (Hfuncs j (integrand_of integrals s iint')) as (f' & Hf' & Heq' & _).
    { by rewrite list_lookup_fmap, Hji. }
    rewrite Hf in Heq'. simplify_eq.
    destruct (Hshapes j f' Hf') as (d & Hd & Hsd). rewrite Hjr in Hd. simplify_eq.
    apply (append_ok integrals st iint' integral d Hst Hi' Hne).
    by rewrite Hsd, Hprep.
  - by exists retvals', tr'.
Qed.

Lemma add_seeded (shp : list nat) contributions :
  Forall (fun r => sparse.shape r = shp) contributions ->
  exists out, sparse.add (sparse.empty shp :: contributions) = Ok out
    /\ sparse.shape out = shp
    /\ (contributions = [] -> out = sparse.empty shp).
Proof.
  intros Hall.
  destruct (add_ok (sparse.empty shp) contributions) as (out & Hout & Hs & _).
  - intros y [-> | Hy]%elem_of_cons; [done|]. rewrite Forall_forall in Hall. by apply Hall.
  - exists out. split; [done|]. split; [done|]. intros ->.
    unfold sparse.add in Hout. cbn in Hout.
    rewrite bool_decide_eq_true_2 in Hout by done. cbn in Hout. by simplify_eq.
Qed.

End run.

End facts.
End eval_facts.

Import eval_facts.

Module eval_main.

Import sample.
Section facts.
Context `{FC : FunctionCollaborator}.

Lemma sequence_funcs_for integrals s iints funcs :
  sequence (map (integrand_of integrals s) iints) = Ok funcs ->
  funcs = funcs_for integrals s iints.
Proof.
  revert funcs. induction iints as [|iint iints IH]; intros funcs; simpl.
  - by intros ?; simplify_eq.
  - destruct (integrand_of integrals s iint) as [f|e]; simpl; [|done].
    destruct (sequence (map (integrand_of integrals s) iints)) as [l|e]; simpl; [|done].
    intros ?; simplify_eq. f_equal. by apply IH.
Qed.

Lemma collect_ok integrals arguments tr :
  Forall is_Integral integrals ->
  (forall n f, fshape (prepare_eval n f) = fshape f) ->
  no_wrap_all integrals arguments ->
  exists retvals tr',
    Traced.for_each (visit integrals arguments) (gather (obligations integrals))
                    (seed integrals) tr = (Ok retvals, tr')
    /\ seeded integrals retvals.
Proof.
  intros Hint Hprep Hnw.
  apply (traced_for_each_invariant _ (seeded integrals)); [apply seeded_seed|].
  intros st [s iints] tr0 Hg Hst.
  apply (visit_ok integrals arguments Hint Hprep st s iints tr0 Hg); [|done].
  intros funcs Hseq. rewrite (sequence_funcs_for _ _ _ _ Hseq). by apply Hnw.
Qed.

Lemma add_all_ok integrals retvals :
  seeded integrals retvals ->
  exists results, sequence (map sparse.add retvals) = Ok results
    /\ length results = length integrals
    /\ forall i integral, integrals !! i = Some integral ->
         exists r, results !! i = Some r
           /\ sparse.shape r = Integral.shape integral
           /\ (Integral._integrands integral = [] -> r = sparse.empty (Integral.shape integral)).
Proof.
  intros [Hlen Hs].
  destruct (sequence_ok (map sparse.add retvals) (fun _ => True))
    as (results & Hseq & Hl & Hres).
  { apply Forall_map, Forall_forall. intros l Hl.
    apply list_elem_of_lookup in Hl as [i Hi].
    destruct (lookup_lt_is_Some_2 integrals i) as [integral Hint].
    { rewrite <- Hlen. by eapply lookup_lt_Some. }
    destruct (Hs i integral Hint) as (cs & Hcs & Hall & _). rewrite Hcs in Hi. simplify_eq.
    destruct (add_seeded (Integral.shape integral) cs Hall) as (out & -> & _).
    by exists out. }
  exists results. split; [done|]. rewrite length_map in Hl. split; [lia|].
  intros i integral Hint. destruct (Hs i integral Hint) as (cs & Hcs & Hall & Hempty).
  destruct (Hres i (sparse.add (sparse.empty (Integral.shape integral) :: cs)))
    as (r & Hr & Hadd & _).
  { by rewrite list_lookup_fmap, Hcs. }
  destruct (add_seeded (Integral.shape integral) cs Hall) as (out & Hout & Hshape & Hone).
  rewrite Hout in Hadd. simplify_eq. exists r. split; [done|]. split; [done|].
  intros E. apply Hone. by apply Hempty.
Qed.

Lemma eval_integrals_sparse_empty integrals arguments tr :
  Forall (fun integral => Integral._integrands integral = []) integrals ->
  eval_integrals_sparse integrals arguments tr
  = (Ok (map (fun integral => sparse.empty (Integral.shape integral)) integrals), tr).
Proof.
  intros Hall. unfold eval_integrals_sparse.
  assert (obligations integrals = []) as ->.
  { unfold obligations, enumerate.
    assert (Hgen : forall g : nat -> nat,
      flat_map (fun ii : nat * Integral.t =>
                  map (fun di => (di.1, ii.1)) (Integral._integrands ii.2))
               (imap (fun i x => (g i, x)) integrals) = []).
    { induction Hall as [|integral integrals Hi Hall IH]; intros g; [done|].
      simpl. rewrite Hi. simpl. apply (IH (g ∘ S)). }
    apply (Hgen id). }
  simpl. unfold Traced.bind, Traced.ret, Traced.lift. f_equal.
  unfold seed. clear Hall. induction integrals as [|integral integrals IH]; [done|].
  simpl. unfold sparse.add at 1. cbn.
  rewrite bool_decide_eq_true_2 by done. cbn.
  destruct (sequence _) as [l|e]; [|done]. simpl. by simplify_eq.
Qed.

End facts.
End eval_main.

Import eval_main.

Module convert_facts.

Import sparse.

Lemma length_coords_0 : length (coords []) = 1%nat.
Proof. reflexivity. Qed.

Lemma length_coords_1 n : length (coords [n]) = n.
Proof.
  simpl. generalize 0%nat. induction n as [|n IH]; intros k; simpl; [done|].
  by rewrite IH.
Qed.

Lemma toarray_shape chunk (x : t) : dense_shape (toarray chunk x) = shape x.
Proof. by destruct x. Qed.

Lemma toarray_size chunk (x : t) :
  dense_size (toarray chunk x) = length (coords (shape x)).
Proof. destruct x; simpl; by rewrite length_map. Qed.

End convert_facts.

Import convert_facts.

(** ** The example Integrals are results of the constructor *)

Module example_facts.

Import sample.Integral.

Lemma is_Integral_int_f1 : is_Integral Examples.int_f1.
Proof. by exists [(Toy.two_elements, Examples.f1)], [4%nat]. Defined.

Lemma is_Integral_int_f1_both : is_Integral Examples.int_f1_both.
Proof.
  by exists [(Toy.one_element, Examples.f1); (Toy.two_elements, Examples.f1)], [4%nat].
Defined.

Lemma is_Integral_int_zero : is_Integral Examples.int_zero.
Proof. by exists [(Toy.one_element, Examples.zero)], [2%nat]. Defined.

End example_facts.

Import example_facts.

(** * The claims *)

Module planner_claims.

Import sample.

Lemma allocations_app tr1 tr2 : allocations (tr1 ++ tr2) = allocations tr1 ++ allocations tr2.
Proof. unfold allocations. apply flat_map_app. Qed.

Lemma turn_raises rows b2f nfuncs k row :
  row_in_turn rows b2f nfuncs k = Some row -> U64.any_decrease row = true ->
  offset_pass rows b2f nfuncs = Raise overflow.
Proof.
  unfold row_in_turn. intros Hrow Hdec.
  destruct (turns rows b2f nfuncs k) as [[t nv]|] eqn:Ek; [|done].
  destruct (b2f !! k) as [ifunc|] eqn:Ef; [|done].
  destruct (t !! k) as [v|] eqn:Ev; [|done].
  destruct (nv !! ifunc) as [n|] eqn:En; [|done]. simplify_eq.
  assert (HS : turns rows b2f nfuncs (S k) = Raise overflow).
  { rewrite (turns_S _ _ _ _ ifunc Ef), Ek. simpl.
    unfold accumulate_row. by rewrite Ev, En, Hdec. }
  unfold offset_pass. rewrite <- (take_drop (S k) (enumerate b2f)), for_each_app.
  unfold turns in HS. by rewrite HS.
Qed.

Section with_collaborator.

Context `{FC : FunctionCollaborator}.

Lemma allocations_size_events self bs : allocations (size_events self bs) = [].
Proof.
  unfold size_events, allocations. destruct bs; [done|].
  generalize (seq 0 (nelems self)). intros l. induction l; [done | by simpl].
Qed.

Lemma integrate_sparse_raises self funcs arguments tr e :
  offset_pass (size_table self (all_blocks (_prepare_funcs self funcs)) arguments)
              (map fst (all_blocks (_prepare_funcs self funcs)))
              (length (_prepare_funcs self funcs)) = Raise e ->
  integrate_sparse self funcs arguments tr
  = (Raise e, tr ++ size_events self (all_blocks (_prepare_funcs self funcs))).
Proof.
  intros Hraise. unfold integrate_sparse.
  unfold Traced.bind at 1. rewrite size_pass_spec.
  unfold Traced.bind at 1. unfold Traced.lift at 1. by rewrite Hraise.
Qed.

Lemma size_table_exact_sizes self bs arguments :
  (forall ib e, ib ∈ bs -> (e < nelems self)%nat ->
     block_size ib.2 self e arguments < U64.modulus) ->
  size_table self bs arguments = map (fun ib => 0 :: block_counts self arguments ib.2) bs.
Proof.
  intros Hsz. unfold size_table, block_counts.
  apply map_ext_in. intros ib Hib. f_equal. apply map_ext_in. intros e He.
  apply in_seq in He. apply wrap_small. split; [apply block_size_nonneg|].
  apply Hsz; [by apply list_elem_of_In | lia].
Qed.

Lemma all_blocks_indices (funcs : list Func) :
  Forall (fun f => (f < length funcs)%nat) (map fst (all_blocks funcs)).
Proof.
  apply Forall_map, Forall_forall. intros [i b] Hib. simpl. by eapply all_blocks_index.
Qed.

End with_collaborator.

(** C1. During offset planning in [Sample.integrate_sparse], a decreasing
    step in the inclusive prefix sum of any block row makes the call raise
    the overflow exception at once, with only the size evaluations in the
    trace: no shared buffer has been allocated.  A cumulative count that
    leaves the range of the 64-bit counter is such a step.  When no
    cumulative count wraps, the call raises nothing and returns one buffer
    per integrand. *)
Theorem overflow_raises_before_allocation `{FC : FunctionCollaborator}
    (self : Sample) (funcs : list Func) (arguments : EvalArgs) (tr : list event) :
  let bs := all_blocks (_prepare_funcs self funcs) in
  let offsets := size_table self bs arguments in
  let block2func := map fst bs in
  let nfuncs := length (_prepare_funcs self funcs) in
  (forall k row e a b,
      row_in_turn offsets block2func nfuncs k = Some row ->
      row !! e = Some a -> row !! S e = Some b -> b < a ->
      integrate_sparse self funcs arguments tr
        = (Raise (Exception "integer overflow"), tr ++ size_events self bs)
      /\ allocations (tr ++ size_events self bs) = allocations tr)
  /\ ((forall ib e, ib ∈ bs -> (e < nelems self)%nat ->
         block_size ib.2 self e arguments < U64.modulus) ->
      (exists i, U64.modulus <= func_count self bs arguments i) ->
      integrate_sparse self funcs arguments tr
        = (Raise (Exception "integer overflow"), tr ++ size_events self bs))
  /\ (no_wrap self funcs arguments ->
      exists datas tr',
        integrate_sparse self funcs arguments tr = (Ok datas, tr')
        /\ length datas = length funcs).
Proof.
  intros bs offsets block2func nfuncs. split; [|split].
  - intros k row e a b Hrow Ha Hb Hlt. split.
    + apply integrate_sparse_raises. fold bs offsets block2func nfuncs.
      apply (turn_raises offsets block2func nfuncs k row Hrow).
      apply any_decrease_true. by exists e, a, b.
    + by rewrite allocations_app, allocations_size_events, app_nil_r.
  - intros Hsz [i Hi]. apply integrate_sparse_raises. fold bs offsets block2func nfuncs.
    apply (offset_pass_overflow offsets block2func nfuncs) with (i := i).
    + unfold offsets, block2func, size_table. by rewrite !length_map.
    + apply size_table_count_rows.
    + apply all_blocks_indices.
    + unfold offsets. rewrite size_table_exact_sizes by done.
      unfold block2func.
      rewrite (func_total_map (fun b => 0 :: block_counts self arguments b)). exact Hi.
  - intros Hnw. destruct (integrate_sparse_ok self funcs arguments tr Hnw)
      as (datas & tr' & Hrun & Hlen & _).
    by exists datas, tr'.
Qed.

(** The call on [huge] wraps on the second element and raises before
    allocating; the call on [f1] and [f2] runs through. *)
Lemma overflow_raises_before_allocation_witness :
  (integrate_sparse (FC := Toy.functions) Toy.two_elements [Examples.huge] tt []
     = (Raise (Exception "integer overflow"),
        [SizeEval Toy.two_elements 0 1; SizeEval Toy.two_elements 1 1])
   /\ allocations [SizeEval Toy.two_elements 0 1; SizeEval Toy.two_elements 1 1] = [])
  /\ integrate_sparse (FC := Toy.functions) Toy.two_elements [Examples.huge] tt []
     = (Raise (Exception "integer overflow"),
        [SizeEval Toy.two_elements 0 1; SizeEval Toy.two_elements 1 1])
  /\ exists datas tr',
       integrate_sparse (FC := Toy.functions) Toy.two_elements [Examples.f1; Examples.f2] tt [] = (Ok datas, tr')
       /\ length datas = 2%nat.
Proof.
  split; [|split].
  - apply (proj1 (overflow_raises_before_allocation (FC := Toy.functions) Toy.two_elements [Examples.huge] tt [])
             0%nat [0; 2 ^ 63; 0] 1%nat (2 ^ 63) 0); [reflexivity | reflexivity | reflexivity | lia].
  - apply (proj1 (proj2 (overflow_raises_before_allocation (FC := Toy.functions) Toy.two_elements [Examples.huge] tt []))).
    + intros ib e Hib He.
      apply list_elem_of_singleton in Hib. subst ib.
      destruct e as [|[|e]]; [reflexivity | reflexivity | simpl in He; lia].
    + exists 0%nat. vm_compute. discriminate.
  - apply (proj2 (proj2 (overflow_raises_before_allocation (FC := Toy.functions) Toy.two_elements
                           [Examples.f1; Examples.f2] tt []))).
    intros i. destruct i as [|[|i]]; reflexivity.
Defined.

(** C2. When offset planning completes without raising, every block row of
    the offset table is non-decreasing along the element axis, and so the
    half-open ranges [[row[e], row[e+1])] of distinct elements of one block
    are pairwise disjoint. *)
Theorem planned_ranges_disjoint
    (offsets : list (list Z)) (block2func : list nat) (nfuncs : nat)
    (table : list (list Z)) (nvals : list Z) :
  offset_pass offsets block2func nfuncs = Ok (table, nvals) ->
  forall iblock row, (iblock < length block2func)%nat -> table !! iblock = Some row ->
    (forall e a b, row !! e = Some a -> row !! S e = Some b -> a <= b)
    /\ (forall e1 e2 a1 b1 a2 b2, e1 <> e2 ->
          row !! e1 = Some a1 -> row !! S e1 = Some b1 ->
          row !! e2 = Some a2 -> row !! S e2 = Some b2 ->
          forall x, ~ (a1 <= x < b1 /\ a2 <= x < b2)).
Proof.
  intros Hok iblock row Hi Hrow.
  pose proof (offset_pass_sorted offsets block2func nfuncs table nvals Hok iblock row Hi Hrow)
    as Hnd.
  split; [by apply any_decrease_false|].
  intros e1 e2 a1 b1 a2 b2 Hne H1 H1' H2 H2' x [Hx1 Hx2].
  destruct (Nat.lt_total e1 e2) as [Hlt | [Heq | Hgt]]; [| done |].
  - pose proof (no_decrease_sorted row Hnd (S e1) e2 b1 a2 ltac:(lia) H1' H2). lia.
  - pose proof (no_decrease_sorted row Hnd (S e2) e1 b2 a1 ltac:(lia) H2' H1). lia.
Qed.

(** The table of two blocks of one function over two elements. *)
Lemma planned_ranges_disjoint_witness :
  (forall e a b, [2; 4; 7] !! e = Some a -> [2; 4; 7] !! S e = Some b -> a <= b)
  /\ (forall e1 e2 a1 b1 a2 b2, e1 <> e2 ->
        [2; 4; 7] !! e1 = Some a1 -> [2; 4; 7] !! S e1 = Some b1 ->
        [2; 4; 7] !! e2 = Some a2 -> [2; 4; 7] !! S e2 = Some b2 ->
        forall x, ~ (a1 <= x < b1 /\ a2 <= x < b2)).
Proof.
  apply (planned_ranges_disjoint [[0; 1; 1]; [0; 2; 3]] [0; 0]%nat 1
           [[0; 1; 2]; [2; 4; 7]] [7] eq_refl 1%nat [2; 4; 7]); [simpl; lia | reflexivity].
Defined.

End planner_claims.

Module size_claims.

Import sample.

(** C3, as stated, fails: on two elements and three blocks the first pass
    evaluates the combined size function twice, once per element, each
    evaluation returning the counts of all three blocks; the counts are not
    evaluated once per block. *)
Lemma size_evaluations_not_per_block :
  let bs := all_blocks (FC := Toy.functions)
              (_prepare_funcs (FC := Toy.functions) Toy.two_elements
                 [Examples.f1; Examples.f2]) in
  length bs = 3%nat
  /\ snd (size_pass (FC := Toy.functions) Toy.two_elements bs tt [])
     = [SizeEval Toy.two_elements 0 3; SizeEval Toy.two_elements 1 3]
  /\ ~ evaluated_once_per_block (length bs) (snd (size_pass (FC := Toy.functions) Toy.two_elements bs tt [])).
Proof.
  split; [reflexivity|]. split; [reflexivity|]. vm_compute. discriminate.
Qed.

(** C3, amended.  The first pass of offset planning obtains the record
    counts by evaluating, once per element, the local record counts of all
    blocks as a single combined evaluation (none when there is no block);
    it fills columns [1..nelems] of the count table, one row per block,
    and leaves column 0, which is reserved, at zero. *)
Theorem size_pass_counts_per_element `{FC : FunctionCollaborator}
    (self : Sample) (bs : list (nat * Block)) (arguments : EvalArgs) (tr : list event) :
  exists offsets,
    size_pass self bs arguments tr
    = (Ok offsets,
       tr ++ match bs with
             | [] => []
             | _ :: _ => map (fun e => SizeEval self e (length bs)) (seq 0 (nelems self))
             end)
    /\ length offsets = length bs
    /\ forall iblock ib, bs !! iblock = Some ib ->
         exists row, offsets !! iblock = Some row
           /\ length row = S (nelems self)
           /\ row !! 0%nat = Some 0
           /\ forall e, (e < nelems self)%nat ->
                row !! S e = Some (U64.wrap (block_size ib.2 self e arguments)).
Proof.
  exists (size_table self bs arguments). rewrite size_pass_spec.
  split; [reflexivity|]. unfold size_table. split; [by rewrite length_map|].
  intros iblock ib Hib. eexists. split; [by rewrite list_lookup_fmap, Hib|].
  split; [simpl; by rewrite length_map, length_seq|]. split; [done|].
  intros e He. simpl. by rewrite list_lookup_fmap, lookup_seq_lt.
Qed.

(** The first pass over the three blocks of [f1] and [f2]. *)
Lemma size_pass_counts_per_element_witness :
  exists offsets,
    size_pass (FC := Toy.functions) Toy.two_elements
      (all_blocks (FC := Toy.functions) [Examples.f1; Examples.f2]) tt []
    = (Ok offsets, [SizeEval Toy.two_elements 0 3; SizeEval Toy.two_elements 1 3])
    /\ offsets = [[0; 2; 2]; [0; 1; 3]; [0; 4; 2]].
Proof.
  destruct (size_pass_counts_per_element (FC := Toy.functions) Toy.two_elements
              (all_blocks (FC := Toy.functions) [Examples.f1; Examples.f2]) tt [])
    as (offsets & Hrun & _).
  exists offsets. split; [exact Hrun|].
  vm_compute in Hrun. by injection Hrun.
Defined.

End size_claims.

Module merge_claims.

Import sparse.

Lemma ascending_NoDup {V} (l : list (index * V)) : ascending l -> NoDup (map fst l).
Proof.
  induction 1 as [|kv l Hs IH Hall]; [constructor|].
  simpl. apply NoDup_cons. split; [|done].
  intros Hin. apply list_elem_of_fmap in Hin as (kv' & Heq & Hin').
  rewrite Forall_forall in Hall. specialize (Hall kv' Hin').
  unfold key_lt in Hall. rewrite <- Heq in Hall. by apply lex_lt_irrefl in Hall.
Qed.

(** C4. [dedup] returns one record per distinct index tuple of its input:
    the records come out in strictly ascending lexicographic order, the
    index tuples that occur are those of the input, whatever the values
    add up to, and the value of each is the sum of its group; for integer
    collections that sum is the wrapped sum of the group.  On the vector
    of the tests, in chunks of three records, it returns
    [(0,)60, (1,)40, (2,)80, (3,)0, (4,)30]. *)
Theorem dedup_merges_sorted :
  (forall (V : Type) (SV : Scalar V) (chunk : nat) (d : data V) (inplace : bool),
     let out := dedup_data chunk d inplace in
     extents out = extents d
     /\ (forall i j a b, (i < j)%nat ->
           records out !! i = Some a -> records out !! j = Some b -> lex_lt a.1 b.1)
     /\ NoDup (map fst (records out))
     /\ (forall k, (exists v, (k, v) ∈ records out) <-> (exists v, (k, v) ∈ records d))
     /\ (forall k v, (k, v) ∈ records out -> sum_of (group k (records d)) v))
  /\ (forall (chunk : nat) (d : data Z) (inplace : bool) k v,
        Forall (fun kv => int64_wrap kv.2 = kv.2) (records d) ->
        (k, v) ∈ records (dedup_data chunk d inplace) ->
        v = int64_wrap (zsum (group k (records d))))
  /\ (forall inplace, dedup_data 3 Examples.vector inplace = Examples.vector_dedup)
  /\ (forall inplace,
        dedup 3 (IntData Examples.vector) inplace = IntData Examples.vector_dedup).
Proof.
  split; [|split; [|split]].
  - intros V SV chunk d inplace out. unfold out, dedup_data. simpl.
    split; [done|]. split; [|split; [|split]].
    + intros i j a b. apply ascending_lookup, dedup_records_ascending.
    + apply ascending_NoDup, dedup_records_ascending.
    + apply dedup_records_keys.
    + apply dedup_records_sum.
  - intros chunk d inplace k v Hint Hin. simpl in Hin.
    apply dedup_records_sum in Hin. apply (sum_of_int64 _ _ Hin).
    unfold group. apply Forall_map, Forall_forall. intros kv Hkv.
    apply list_elem_of_filter in Hkv as [_ Hkv].
    rewrite Forall_forall in Hint. by apply Hint.
  - intros inplace. reflexivity.
  - intros inplace. reflexivity.
Qed.

(** The zero record [(0,)0] of the vector is in range, and index 3, whose
    values cancel, is kept with value zero. *)
Lemma dedup_merges_sorted_witness :
  0 = int64_wrap (zsum (group [3%nat] (records Examples.vector))).
Proof.
  apply (proj1 (proj2 dedup_merges_sorted) 3%nat Examples.vector false [3%nat] 0).
  - repeat constructor.
  - vm_compute. do 3 right. by left.
Defined.

(** C5, as stated, fails: the floating type that [add] produces for an
    integer-valued and a floating-valued collection does not hold every
    64-bit integer.  The integers [2^53 + 1] and [2^53] widen to the same
    binary64 value, so that two different integer-valued collections give
    the same sum with a floating-valued one, in which [2^53 + 1] reads
    [2^53]. *)
Lemma add_widening_loses_integers :
  ~ widens_losslessly of_int
  /\ Examples.rank1 5 [(0%nat, 2 ^ 53 + 1)] <> Examples.rank1 5 [(0%nat, 2 ^ 53)]
  /\ add [IntData (Examples.rank1 5 [(0%nat, 2 ^ 53 + 1)]); FloatData Examples.other]
     = add [IntData (Examples.rank1 5 [(0%nat, 2 ^ 53)]); FloatData Examples.other]
  /\ exists out,
       add [IntData (Examples.rank1 5 [(0%nat, 2 ^ 53 + 1)]); FloatData Examples.other]
       = Ok (FloatData out)
       /\ map (fun kv => to_int kv.2) (records out) = [Some (2 ^ 53); Some (-40); None].
Proof.
  split; [|split; [|split]].
  - intros Hall. specialize (Hall (2 ^ 53 + 1) (2 ^ 53) eq_refl eq_refl eq_refl).
    discriminate Hall.
  - intros H. apply (f_equal (fun d => map snd (records d))) in H. vm_compute in H.
    discriminate.
  - reflexivity.
  - eexists. split; [reflexivity|]. by vm_compute.
Qed.

(** C5, amended.  [add] on collections of one declared shape returns the
    records of all of them, in input order, neither merged nor sorted; it
    raises when a shape differs.  The result is integer-valued when every
    input is and floating-valued otherwise.  A floating-valued result holds
    the floating records as they are, 0.5 (one over two) included, and the
    integer records widened: an integer of magnitude up to [2^53] becomes
    the canonical binary64 value that stands for it. *)
Theorem add_concatenates_and_promotes :
  (forall x datas,
     (forall y, y ∈ x :: datas -> shape y = shape x) ->
     exists out, add (x :: datas) = Ok out
       /\ shape out = shape x
       /\ (dtype out = vt_int <-> forall y, y ∈ x :: datas -> dtype y = vt_int)
       /\ records (as_float out) = flat_map (fun y => records (as_float y)) (x :: datas)
       /\ (forall ds, x :: datas = map IntData ds ->
             out = IntData (mk_data (shape x) (flat_map records ds))))
  /\ (forall x datas y, y ∈ x :: datas -> shape y <> shape x ->
        add (x :: datas) = Raise (ValueError "add: shapes differ"))
  /\ (forall (a : data Z) (b : data float64), extents a = extents b ->
        add [IntData a; FloatData b]
        = Ok (FloatData (mk_data (extents a)
                (map (fun kv => (kv.1, of_int kv.2)) (records a) ++ records b))))
  /\ (forall z, Z.abs z <= 2 ^ 53 ->
        to_int (of_int z) = Some z /\ valid_binary prec emax (of_int z) = true)
  /\ (exists out,
        add [IntData Examples.vector; FloatData Examples.other] = Ok (FloatData out)
        /\ extents out = [5%nat]
        /\ map fst (records out)
           = [[4]; [4]; [3]; [2]; [1]; [2]; [3]; [0]; [0]; [1]; [2]]%nat
        /\ map (fun kv => to_int kv.2) (records out)
           = [Some 10; Some 20; Some 1; Some 30; Some 40; Some 50; Some (-1); Some 0;
              Some 60; Some (-40); None]
        /\ last (map snd (records out)) = Some Examples.half)
  /\ SFdiv prec emax (of_int 1) (of_int 2) = Examples.half.
Proof.
  split; [|split; [|split; [|split; [|split]]]].
  - intros x datas Hall. destruct (add_ok x datas Hall) as (out & Hout & Hs & Hd & Hr & Hi).
    exists out. split; [done|]. split; [done|]. split; [|done].
    rewrite Hd. apply result_type_all_int.
  - apply add_shape_mismatch.
  - intros a b Hab. unfold add. cbn [shape forallb].
    rewrite Hab. rewrite !bool_decide_eq_true_2 by done. cbn.
    by rewrite app_nil_r.
  - apply of_int_exact.
  - eexists. split; [reflexivity|]. by vm_compute.
  - reflexivity.
Qed.

Lemma add_concatenates_and_promotes_witness :
  exists out, add [IntData Examples.vector; IntData Examples.B] = Raise (ValueError "add: shapes differ")
    /\ add [FloatData Examples.other; IntData Examples.vector] = Ok out
    /\ dtype out <> vt_int
    /\ add [IntData Examples.vector; FloatData Examples.other]
       = Ok (FloatData (mk_data [5%nat]
               (map (fun kv => (kv.1, of_int kv.2)) (records Examples.vector)
                ++ records Examples.other)))
    /\ to_int (of_int (- 2 ^ 53)) = Some (- 2 ^ 53).
Proof.
  destruct add_concatenates_and_promotes as (Hok & Hraise & Hmixed & Hexact & _).
  destruct (Hok (FloatData Examples.other) [IntData Examples.vector])
    as (out & Hout & _ & Hdtype & _).
  { intros y Hy. apply elem_of_cons in Hy as [-> | Hy]; [reflexivity|].
    apply list_elem_of_singleton in Hy. by subst. }
  exists out. split; [|split; [|split; [|split]]].
  - apply (Hraise (IntData Examples.vector) [IntData Examples.B] (IntData Examples.B)).
    + apply elem_of_cons. right. by left.
    + discriminate.
  - exact Hout.
  - intros Hint. pose proof (proj1 Hdtype Hint (FloatData Examples.other)) as Hf.
    discriminate Hf. by left.
  - apply (Hmixed Examples.vector Examples.other). reflexivity.
  - apply Hexact. vm_compute. discriminate.
Defined.

Lemma along_axis_leaves {V} i (l : list (option (data V))) :
  along_axis leaves i (map Leaf l) = imap (fun j d => ([(i + j)%nat], d)) l.
Proof.
  revert i. induction l as [|d l IH]; intros i; [done|].
  cbn [map along_axis leaves app imap]. rewrite Nat.add_0_r. simpl. f_equal.
  rewrite IH. apply imap_ext. intros j x _. simpl. do 2 f_equal. lia.
Qed.

Lemma le_foldr_max x (xs : list nat) : x ∈ xs -> (x <= foldr Nat.max 0 xs)%nat.
Proof.
  induction xs as [|y xs IH]; intros Hx; [by apply elem_of_nil in Hx|].
  simpl. apply elem_of_cons in Hx as [-> | Hx]; [lia|]. specialize (IH Hx). lia.
Qed.

Lemma block_absent_leaf {V} (l : list (option (data V))) :
  None ∈ l -> exists e, block (Nested (map Leaf l)) = Raise e.
Proof.
  intros Hin. apply list_elem_of_lookup in Hin as [p Hp].
  apply (block_empty_group (Nested (map Leaf l)) 0 p).
  - cbn [leaves]. rewrite along_axis_leaves. destruct l as [|d l]; [done|]. simpl. lia.
  - cbn [leaves]. rewrite along_axis_leaves. unfold npositions.
    apply (le_foldr_max (S p)). apply list_elem_of_fmap.
    exists ([p], None). split; [done|]. apply list_elem_of_lookup. exists p.
    by rewrite list_lookup_imap, Hp.
  - cbn [leaves]. rewrite along_axis_leaves. unfold group_extents.
    apply flat_map_nil. intros [pos [d|]] Hpd; [|done]. simpl.
    apply list_elem_of_lookup in Hpd as [j Hj]. rewrite list_lookup_imap in Hj.
    destruct (l !! j) as [d'|] eqn:Ej; [|done]. simpl in Hj. simplify_eq.
    rewrite decide_False; [done|]. simpl. intros ?; simplify_eq.
Qed.

(** C6. [block] over a sequence of three present leaves of extents 5, 3
    and 3 returns a collection of extent 11 holding the records of the
    leaves in traversal order, each leaf's records in their order, the
    indices shifted by 0, 5 and 8; a structure with a group that has no
    present leaf, such as a sequence with an absent leaf, is refused with
    an error instead of a result. *)
Theorem block_offsets_and_missing_leaves :
  (forall (V : Type) (A B C : data V),
     extents A = [5%nat] -> extents B = [3%nat] -> extents C = [3%nat] ->
     block (Nested [Leaf (Some A); Leaf (Some B); Leaf (Some C)])
     = Ok (mk_data [11%nat]
             (records A ++ map (shift0 5) (records B) ++ map (shift0 8) (records C))))
  /\ (forall (V : Type) (s : structure V) k p,
        (k < depth (leaves s))%nat -> (p < npositions (leaves s) k)%nat ->
        group_extents (leaves s) k p = [] ->
        exists e, block s = Raise e)
  /\ (forall (V : Type) (l : list (option (data V))),
        None ∈ l -> exists e, block (Nested (map Leaf l)) = Raise e)
  /\ block (Nested [Leaf (Some Examples.vector); Leaf (Some Examples.B);
                         Leaf (Some Examples.B)])
     = Ok Examples.vector_block.
Proof.
  split; [|split; [|split]].
  - intros V A B C HA HB HC. by rewrite (block_three A B C 5 3 3).
  - intros V s k p. apply block_empty_group.
  - intros V l Hin. apply block_absent_leaf. exact Hin.
  - reflexivity.
Qed.

(** The leaves of [test_block], and the same sequence with [B] absent. *)
Lemma block_offsets_and_missing_leaves_witness :
  block (Nested [Leaf (Some Examples.vector); Leaf (Some Examples.B);
                      Leaf (Some Examples.B)])
  = Ok (mk_data [11%nat]
          (records Examples.vector ++ map (shift0 5) (records Examples.B)
           ++ map (shift0 8) (records Examples.B)))
  /\ (exists e, block (Nested [Leaf (Some Examples.vector); Leaf None;
                                    Leaf (Some Examples.B)]) = Raise e)
  /\ (exists e, block (Nested (map Leaf [Some Examples.vector; None;
                                              Some Examples.B])) = Raise e).
Proof.
  destruct block_offsets_and_missing_leaves as (Hthree & Hgroup & Habsent & _).
  split; [|split].
  - apply (Hthree Z Examples.vector Examples.B Examples.B); reflexivity.
  - apply (Hgroup Z (Nested [Leaf (Some Examples.vector); Leaf None;
                             Leaf (Some Examples.B)]) 0%nat 1%nat);
      [simpl; lia | vm_compute; lia | reflexivity].
  - apply (Habsent Z [Some Examples.vector; None; Some Examples.B]).
    apply elem_of_cons. right. by left.
Defined.

End merge_claims.

Module integral_claims.

Import sample.Integral.

Lemma is_Integral_built `{FC : FunctionCollaborator} items shp a :
  __init__ items shp = Ok a -> is_Integral a.
Proof. intros H. by exists items, shp. Qed.

(** C7. For Integrals [a] and [b], [a - b] is [a + (-b)].  On operands of
    equal shape the sum is an Integral of that shape whose term map merges
    theirs: a Sample of both operands carries the sum of the two terms, as
    the constructor leaves it (simplified, dropped when zero), and a Sample
    of one operand keeps that operand's term.  The difference is then
    defined as well. *)
Theorem sub_is_add_neg_and_add_merges `{FC : FunctionCollaborator} :
  (forall a b : t, __sub__ a b = Py.bind (__neg__ b) (fun nb => __add__ a nb))
  /\ ((forall f, fshape (simplified f) = fshape f) ->
      (forall f, simplified (simplified f) = simplified f) ->
      (forall f g, fshape f = fshape g -> fshape (fadd f g) = fshape f) ->
      forall a b : t, is_Integral a -> is_Integral b -> shape a = shape b ->
        exists c, __add__ a b = Ok c /\ shape c = shape a /\ is_Integral c /\
          forall s, dict_get s (_integrands c)
            = match dict_get s (_integrands a), dict_get s (_integrands b) with
              | Some f, Some g => keep (simplified (fadd f g))
              | Some f, None => Some f
              | None, Some g => Some g
              | None, None => None
              end)
  /\ ((forall f, fshape (simplified f) = fshape f) ->
      (forall f g, fshape f = fshape g -> fshape (fadd f g) = fshape f) ->
      (forall f, fshape (fneg f) = fshape f) ->
      forall a b : t, is_Integral a -> is_Integral b -> shape a = shape b ->
        exists nb c, __neg__ b = Ok nb /\ __add__ a nb = Ok c /\ __sub__ a b = Ok c).
Proof.
  split; [|split].
  - reflexivity.
  - intros Hss Hidem Hfs a b Ha Hb Hshape.
    destruct (add_spec Hss Hfs a b Ha Hb Hshape) as (c & Hc & Hsc & Hlook).
    exists c. split; [done|]. split; [done|]. split.
    { unfold __add__ in Hc. rewrite bool_decide_eq_true_2 in Hc by done.
      by eapply is_Integral_built. }
    intros s. rewrite Hlook.
    destruct (dict_get s (_integrands a)) as [f|] eqn:EA;
      destruct (dict_get s (_integrands b)) as [g|] eqn:EB; simpl; try done.
    + by apply (constructed_term a s f Hidem Ha EA).
    + by apply (constructed_term b s g Hidem Hb EB).
  - intros Hss Hfs Hneg a b Ha Hb Hshape.
    destruct (neg_spec Hss b Hneg Hb) as (nb & Hnb & Hsnb & Hinb & _).
    destruct (add_spec Hss Hfs a nb Ha Hinb) as (c & Hc & _); [congruence|].
    exists nb, c. split; [done|]. split; [done|]. unfold __sub__. by rewrite Hnb.
Qed.

(** The sum of [int_f1] and [int_f1_both] and the difference of [int_f1]
    with itself, whose only term cancels. *)
Lemma sub_is_add_neg_and_add_merges_witness :
  (exists c : t (FC := Toy.functions),
     __add__ Examples.int_f1 Examples.int_f1_both = Ok c
     /\ dict_get Toy.one_element (_integrands c) = Some Examples.f1
     /\ dict_get Toy.two_elements (_integrands c)
        = keep (@simplified Toy.functions (@fadd Toy.functions Examples.f1 Examples.f1)))
  /\ exists nb c : t (FC := Toy.functions), __neg__ Examples.int_f1 = Ok nb
       /\ __add__ Examples.int_f1 nb = Ok c
       /\ __sub__ Examples.int_f1 Examples.int_f1 = Ok c.
Proof.
  destruct (sub_is_add_neg_and_add_merges (FC := Toy.functions)) as (_ & Hadd & Hsub).
  split.
  - destruct (Hadd ltac:(done) ltac:(done) ltac:(done)
                Examples.int_f1 Examples.int_f1_both
                is_Integral_int_f1 is_Integral_int_f1_both eq_refl)
      as (c & Hc & _ & _ & Hlook).
    exists c. split; [exact Hc|]. split.
    + exact (Hlook Toy.one_element).
    + exact (Hlook Toy.two_elements).
  - exact (Hsub ltac:(done) ltac:(done) ltac:(done) Examples.int_f1 Examples.int_f1
             is_Integral_int_f1 is_Integral_int_f1 eq_refl).
Defined.

Lemma remove_dups_singleton {A} `{EqDecision A} (l : list A) x :
  x ∈ l -> (forall y, y ∈ l -> y = x) -> remove_dups l = [x].
Proof.
  intros Hx Hall.
  assert (Hnd := NoDup_remove_dups l).
  destruct (remove_dups l) as [|a [|b r]] eqn:E.
  - rewrite (proj1 (remove_dups_nil l) E) in Hx. by apply elem_of_nil in Hx.
  - f_equal. apply Hall. apply elem_of_remove_dups. rewrite E. by left.
  - exfalso. assert (Ha : a = x).
    { apply Hall, elem_of_remove_dups. rewrite E. by left. }
    assert (Hb : b = x).
    { apply Hall, elem_of_remove_dups. rewrite E. right. by left. }
    subst. apply NoDup_cons in Hnd as [Hnin _]. apply Hnin. by left.
Qed.

Section shapes.

Context `{FC : FunctionCollaborator}.

Lemma elem_of_argshapes self name shp :
  shp ∈ argshapes self name <->
  exists func, occurrence self name func /\ argshape_of func = shp.
Proof.
  unfold argshapes, occurrence, argshape_of.
  rewrite elem_of_remove_dups, list_elem_of_In, in_flat_map. split.
  - intros (func & Hin & Hx). exists func.
    destruct (argument_name func) as [n|]; [|done].
    case_decide; [|done]. subst. destruct Hx as [<- | []].
    split; [|done]. split; [by apply list_elem_of_In | done].
  - intros (func & [Hin Hname] & <-). exists func. split; [by apply list_elem_of_In|].
    rewrite Hname, decide_True by done. by left.
Qed.

Lemma argshapes_agree self name func :
  occurrence self name func ->
  (forall func', occurrence self name func' -> argshape_of func' = argshape_of func) ->
  argshapes self name = [argshape_of func].
Proof.
  intros Hocc Hall. unfold argshapes.
  apply remove_dups_singleton.
  - apply list_elem_of_In, in_flat_map. destruct Hocc as [Hin Hname]. exists func.
    split; [by apply list_elem_of_In|]. rewrite Hname, decide_True by done. by left.
  - intros y Hy.
    assert (Hy' : y ∈ argshapes self name) by (unfold argshapes; by apply elem_of_remove_dups).
    apply elem_of_argshapes in Hy' as (func' & Hocc' & <-). by apply Hall.
Qed.

Lemma argshapes_disagree self name func func' :
  occurrence self name func -> occurrence self name func' ->
  argshape_of func <> argshape_of func' ->
  exists x y l, argshapes self name = x :: y :: l.
Proof.
  intros H1 H2 Hne.
  assert (E1 : argshape_of func ∈ argshapes self name) by (apply elem_of_argshapes; eauto).
  assert (E2 : argshape_of func' ∈ argshapes self name) by (apply elem_of_argshapes; eauto).
  destruct (argshapes self name) as [|x [|y l]]; [by apply elem_of_nil in E1 | | by eauto].
  apply list_elem_of_singleton in E1. apply list_elem_of_singleton in E2. congruence.
Qed.

End shapes.

(** C8, as stated, fails: in [int_inconsistent] the variable [u] occurs
    with argument shapes [(3,)] and [(4,)]; [contains] does not return
    [True] then, the assertion of [_argshape] fails. *)
Lemma contains_raises_on_inconsistent_shapes :
  is_Integral Examples.int_inconsistent
  /\ occurs Examples.int_inconsistent "u"
  /\ contains Examples.int_inconsistent "u"
     = Raise (AssertionError "inconsistent shapes for argument")
  /\ contains Examples.int_inconsistent "u" <> Ok true.
Proof.
  split; [|split; [|split]].
  - by exists [(Toy.two_elements, Examples.f2); (Toy.one_element, Examples.g2)], [3; 3]%nat.
  - exists (Toy.argument "u" [3%nat] 0). split; [|reflexivity].
    vm_compute. right. by left.
  - reflexivity.
  - discriminate.
Qed.

(** C8, amended.  [_argshape] raises [KeyError(name)] exactly when the
    named free variable occurs in no term, and [contains] returns [False]
    in exactly that case.  [contains] returns [True], and [_argshape] the
    shape, when the variable occurs and all its occurrences agree on the
    argument shape; when two occurrences disagree, the assertion of
    [_argshape] fails and [contains] lets the [AssertionError] through. *)
Theorem contains_characterised `{FC : FunctionCollaborator} (self : t) (name : string) :
  (_argshape self name = Raise (KeyError name) <-> ~ occurs self name)
  /\ (contains self name = Ok false <-> ~ occurs self name)
  /\ (forall func, occurrence self name func ->
        (forall func', occurrence self name func' -> argshape_of func' = argshape_of func) ->
        _argshape self name = Ok (argshape_of func) /\ contains self name = Ok true)
  /\ (forall func func', occurrence self name func -> occurrence self name func' ->
        argshape_of func <> argshape_of func' ->
        _argshape self name = Raise (AssertionError "inconsistent shapes for argument")
        /\ contains self name = Raise (AssertionError "inconsistent shapes for argument")).
Proof.
  pose proof (argshape_cases self name) as Hcases.
  pose proof (argshapes_nil self name) as Hnil.
  split; [|split; [|split]].
  - destruct (argshapes self name) as [|x [|y l]]; destruct Hcases as [-> _].
    + split; [intros _; by apply Hnil | done].
    + split; [done | intros Hno; by apply Hnil in Hno].
    + split; [done | intros Hno; by apply Hnil in Hno].
  - destruct (argshapes self name) as [|x [|y l]]; destruct Hcases as [_ ->].
    + split; [intros _; by apply Hnil | done].
    + split; [done | intros Hno; by apply Hnil in Hno].
    + split; [done | intros Hno; by apply Hnil in Hno].
  - intros func Hocc Hall. rewrite (argshapes_agree self name func Hocc Hall) in Hcases.
    exact Hcases.
  - intros func func' H1 H2 Hne.
    destruct (argshapes_disagree self name func func' H1 H2 Hne) as (x & y & l & E).
    rewrite E in Hcases. exact Hcases.
Qed.

(** In [int_f2] the variable [u] occurs once, with shape [(3,)]; [v] does
    not occur. *)
Lemma contains_characterised_witness :
  (_argshape Examples.int_f2 "u" = Ok [3%nat] /\ contains Examples.int_f2 "u" = Ok true)
  /\ contains Examples.int_f2 "v" = Ok false
  /\ contains Examples.int_inconsistent "u"
     = Raise (AssertionError "inconsistent shapes for argument").
Proof.
  split; [|split].
  - apply (proj1 (proj2 (proj2 (contains_characterised Examples.int_f2 "u")))
             (Toy.argument "u" [3%nat] 0)).
    + split; [|reflexivity]. vm_compute. right. by left.
    + intros func' [Hin Hname]. vm_compute in Hin.
      apply elem_of_cons in Hin as [-> | Hin]; [discriminate Hname|].
      apply list_elem_of_singleton in Hin. by subst.
  - apply (proj1 (proj2 (contains_characterised Examples.int_f2 "v"))).
    intros (func & Hin & Hname). vm_compute in Hin.
    apply elem_of_cons in Hin as [-> | Hin]; [discriminate Hname|].
    apply list_elem_of_singleton in Hin. subst. discriminate Hname.
  - apply (proj2 (proj2 (proj2 (contains_characterised Examples.int_inconsistent "u")))
             (Toy.argument "u" [3%nat] 0) (Toy.argument "u" [4%nat] 0)).
    + split; [|reflexivity]. vm_compute. right. by left.
    + split; [|reflexivity]. vm_compute. do 3 right. by left.
    + discriminate.
Defined.

End integral_claims.

Module eval_claims.

Import sample.

(** C9. [_convert] selects the representation by rank: rank 0 gives the
    dense array of shape [()], a single value; rank 1 the dense vector of
    the declared length; rank 2 what the matrix backend makes of the
    data; rank 3 and higher the sparse data deduplicated first and pruned
    after. *)
Theorem convert_selects_by_rank `{MC : MatrixCollaborator}
    (chunksize : nat) (data : sparse.t) (inplace : bool) :
  (sparse.ndim data = 0%nat ->
     _convert chunksize data inplace = Array (sparse.toarray chunksize data)
     /\ sparse.dense_shape (sparse.toarray chunksize data) = []
     /\ sparse.dense_size (sparse.toarray chunksize data) = 1%nat)
  /\ (forall n, sparse.shape data = [n] ->
     _convert chunksize data inplace = Array (sparse.toarray chunksize data)
     /\ sparse.dense_shape (sparse.toarray chunksize data) = [n]
     /\ sparse.dense_size (sparse.toarray chunksize data) = n)
  /\ (sparse.ndim data = 2%nat ->
     _convert chunksize data inplace = BackendMatrix (fromsparse data inplace))
  /\ ((3 <= sparse.ndim data)%nat ->
     _convert chunksize data inplace
     = SparseData (sparse.prune (sparse.dedup chunksize data inplace) true)).
Proof.
  unfold _convert. split; [|split; [|split]].
  - intros H0. rewrite H0. cbn [Nat.ltb Nat.leb]. split; [done|].
    rewrite toarray_shape, toarray_size. unfold sparse.ndim in H0.
    destruct (sparse.shape data); [done | done].
  - intros n Hn. unfold sparse.ndim. rewrite Hn. cbn [length Nat.ltb Nat.leb]. split; [done|].
    rewrite toarray_shape, toarray_size, Hn. split; [done | apply length_coords_1].
  - intros H2. by rewrite H2.
  - intros H3. destruct (sparse.ndim data) as [|[|[|n]]]; [lia | lia | lia | done].
Qed.

(** A scalar, the vector of the tests, a matrix and a rank-3 collection
    whose duplicates cancel. *)
Lemma convert_selects_by_rank_witness :
  _convert (MC := Toy.matrices) 3 (sparse.IntData (sparse.mk_data [] [([], 3); ([], 4)])) true
  = Array (sparse.IntArray (sparse.mk_ndarray [] [7]))
  /\ _convert (MC := Toy.matrices) 3 (sparse.IntData Examples.vector) true
     = Array (sparse.IntArray (sparse.mk_ndarray [5%nat] [60; 40; 80; 0; 30]))
  /\ _convert (MC := Toy.matrices) 3 (sparse.IntData (sparse.mk_data [2; 2]%nat [])) true
     = BackendMatrix (MC := Toy.matrices) (sparse.IntData (sparse.mk_data [2; 2]%nat []))
  /\ _convert (MC := Toy.matrices) 3 (sparse.IntData Examples.cube) true
     = SparseData (sparse.IntData (sparse.mk_data [2; 2; 2]%nat [([0; 1; 1]%nat, 7)])).
Proof.
  split; [|split; [|split]].
  - apply (proj1 (convert_selects_by_rank (MC := Toy.matrices) 3
             (sparse.IntData (sparse.mk_data [] [([], 3); ([], 4)])) true)).
    reflexivity.
  - apply (proj1 (proj2 (convert_selects_by_rank (MC := Toy.matrices) 3
             (sparse.IntData Examples.vector) true)) 5%nat).
    reflexivity.
  - apply (proj1 (proj2 (proj2 (convert_selects_by_rank (MC := Toy.matrices) 3
             (sparse.IntData (sparse.mk_data [2; 2]%nat [])) true)))).
    reflexivity.
  - apply (proj2 (proj2 (proj2 (convert_selects_by_rank (MC := Toy.matrices) 3
             (sparse.IntData Examples.cube) true)))).
    vm_compute. lia.
Defined.

(** C10. [eval_integrals_sparse] seeds the result list of every Integral
    with the empty collection of its declared shape and appends the
    per-Sample contributions behind it.  When no assembly of the call
    overflows it returns exactly one sparse result per Integral, of the
    declared shape, and for an Integral without terms the empty collection
    of that shape; a call on Integrals without terms never fails. *)
Theorem eval_integrals_sparse_seeded `{FC : FunctionCollaborator}
    (integrals : list Integral.t) (arguments : EvalArgs) (tr : list event) :
  seeded integrals (seed integrals)
  /\ (Forall is_Integral integrals ->
      (forall n f, fshape (prepare_eval n f) = fshape f) ->
      no_wrap_all integrals arguments ->
      exists retvals results tr',
        Traced.for_each (visit integrals arguments) (gather (obligations integrals))
                        (seed integrals) tr = (Ok retvals, tr')
        /\ seeded integrals retvals
        /\ eval_integrals_sparse integrals arguments tr = (Ok results, tr')
        /\ length results = length integrals
        /\ forall i integral, integrals !! i = Some integral ->
             exists r, results !! i = Some r
               /\ sparse.shape r = Integral.shape integral
               /\ (Integral._integrands integral = [] ->
                     r = sparse.empty (Integral.shape integral)))
  /\ (Forall (fun integral => Integral._integrands integral = []) integrals ->
      eval_integrals_sparse integrals arguments tr
      = (Ok (map (fun integral => sparse.empty (Integral.shape integral)) integrals), tr)).
Proof.
  split; [apply seeded_seed|]. split.
  - intros Hint Hprep Hnw.
    destruct (collect_ok integrals arguments tr Hint Hprep Hnw) as (retvals & tr' & Hrun & Hseed).
    destruct (add_all_ok integrals retvals Hseed) as (results & Hadd & Hlen & Hres).
    exists retvals, results, tr'. split; [done|]. split; [done|]. split; [|done].
    unfold eval_integrals_sparse, Traced.bind. rewrite Hrun. unfold Traced.lift.
    by rewrite Hadd.
  - apply eval_integrals_sparse_empty.
Qed.

(** Three Integrals over two Samples, the second one left without terms
    by its constructor. *)
Lemma eval_integrals_sparse_seeded_witness :
  (exists results tr',
     eval_integrals_sparse (FC := Toy.functions)
       [Examples.int_f1; Examples.int_zero; Examples.int_f1_both] tt [] = (Ok results, tr')
     /\ length results = 3%nat
     /\ results !! 1%nat = Some (sparse.empty [2%nat]))
  /\ eval_integrals_sparse (FC := Toy.functions) [Examples.int_zero] tt []
     = (Ok [sparse.empty [2%nat]], []).
Proof.
  destruct (eval_integrals_sparse_seeded (FC := Toy.functions)
              [Examples.int_f1; Examples.int_zero; Examples.int_f1_both] tt [])
    as (_ & Hrun & _).
  destruct (eval_integrals_sparse_seeded (FC := Toy.functions) [Examples.int_zero] tt [])
    as (_ & _ & Hempty).
  split.
  - destruct Hrun as (retvals & results & tr' & _ & _ & Hres & Hlen & Hshape).
    + repeat constructor.
      * apply is_Integral_int_f1.
      * apply is_Integral_int_zero.
      * apply is_Integral_int_f1_both.
    + done.
    + intros s iints Hin. vm_compute in Hin.
      apply elem_of_cons in Hin as [Heq | Hin].
      * injection Heq as -> ->. intros i. destruct i as [|[|[|i]]]; reflexivity.
      * apply list_elem_of_singleton in Hin. injection Hin as -> ->.
        intros i. destruct i as [|[|[|i]]]; reflexivity.
    + exists results, tr'. split; [exact Hres|]. split; [exact Hlen|].
      destruct (Hshape 1%nat Examples.int_zero eq_refl) as (r & Hr & _ & Hzero).
      rewrite Hr. f_equal. by apply Hzero.
  - apply Hempty. by repeat constructor.
Defined.

End eval_claims.

(** * The content of an assembly *)

Module assembly_content.

Import sample Assembly.

Lemma for_each_indexed {A St} (body : St -> A -> result St) (I : nat -> St -> Prop) xs acc :
  I 0%nat acc ->
  (forall k x acc, xs !! k = Some x -> I k acc ->
     exists acc', body acc x = Ok acc' /\ I (S k) acc') ->
  exists st, Py.for_each body xs acc = Ok st /\ I (length xs) st.
Proof.
  revert I acc. induction xs as [|x xs IH]; intros I acc H0 Hstep; simpl.
  - by exists acc.
  - destruct (Hstep 0%nat x acc eq_refl H0) as (acc' & -> & H1). simpl.
    apply (IH (fun k => I (S k))); [done|].
    intros k y a Hy Ha. by apply (Hstep (S k)).
Qed.

Lemma traced_for_each_emit {A St} (ev : A -> event) (step : St -> A -> result St) xs acc st tr :
  Py.for_each step xs acc = Ok st ->
  Traced.for_each (fun acc x => Traced.emit (ev x) ;;; Traced.lift (step acc x)) xs acc tr
  = (Ok st, tr ++ map ev xs).
Proof.
  revert acc tr. induction xs as [|x xs IH]; intros acc tr H; simpl in *.
  - rewrite app_nil_r. unfold Traced.ret. congruence.
  - unfold Traced.bind at 1. unfold Traced.bind at 1. unfold Traced.emit, Traced.lift.
    destruct (step acc x) as [acc'|e]; simpl in H; [|done].
    rewrite (IH _ _ H). by rewrite <- app_assoc.
Qed.

Lemma length_flat_map_zsum {A B} (f : A -> list B) (g : A -> Z) l :
  (forall x, Z.of_nat (length (f x)) = g x) ->
  Z.of_nat (length (flat_map f l)) = zsum (map g l).
Proof.
  intros Hfg. induction l as [|x l IH]; simpl; [done|].
  rewrite length_app, Nat2Z.inj_add, IH, Hfg. done.
Qed.

Lemma patch_lookup {A} (start : nat) (new buf : list A) p :
  (start + length new <= length buf)%nat ->
  (take start buf ++ new ++ drop (start + length new) buf) !! p
  = if decide (start <= p < start + length new)%nat then new !! (p - start)%nat
    else buf !! p.
Proof.
  intros Hl.
  assert (Ht : length (take start buf) = start) by (rewrite length_take; lia).
  destruct (decide (p < start)%nat) as [Hp|Hp].
  - rewrite lookup_app_l by lia. rewrite lookup_take_lt by lia.
    rewrite decide_False by lia. done.
  - rewrite lookup_app_r by lia. rewrite Ht.
    destruct (decide (p < start + length new)%nat) as [Hq|Hq].
    + rewrite lookup_app_l by lia. rewrite decide_True by lia. done.
    + rewrite lookup_app_r by lia. rewrite lookup_drop.
      rewrite decide_False by lia. f_equal. lia.
Qed.

Section content.

Context `{FC : FunctionCollaborator}.

Variables (self : Sample) (arguments : EvalArgs) (bs : list (nat * Block)).

Lemma write_slice_at (start : nat) (new buf : list record) :
  (start + length new <= length buf)%nat ->
  write_slice (Z.of_nat start) (Z.of_nat (start + length new)) new buf
  = Ok (take start buf ++ new ++ drop (start + length new) buf).
Proof.
  intros Hl. unfold write_slice.
  rewrite (Z.min_l (Z.of_nat start)) by lia.
  rewrite (Z.min_l (Z.of_nat (start + length new))) by lia.
  rewrite Z.max_r by lia.
  replace (Z.of_nat (start + length new) - Z.of_nat start) with (Z.of_nat (length new)) by lia.
  rewrite Z.eqb_refl. by rewrite !Nat2Z.id.
Qed.

Lemma length_block_prefix b e :
  (e <= nelems self)%nat ->
  Z.of_nat (length (flat_map (fun e => local_records b self e arguments) (seq 0 e)))
  = zsum (take e (block_counts self arguments b)).
Proof.
  intros He. unfold block_counts.
  rewrite <- fmap_take, take_seq, Nat.min_l by done.
  apply length_flat_map_zsum. intros x. apply length_local_records.
Qed.

Lemma length_block_records b :
  Z.of_nat (length (block_records self arguments b)) = zsum (block_counts self arguments b).
Proof.
  unfold block_records, block_counts.
  apply length_flat_map_zsum. intros x. apply length_local_records.
Qed.

Lemma length_func_records bs' i :
  Z.of_nat (length (func_records self arguments bs' i)) = func_count self bs' arguments i.
Proof.
  unfold func_records, func_count.
  apply length_flat_map_zsum. intros [f b]. simpl.
  destruct (decide (f = i)); [apply length_block_records | done].
Qed.

(** Where the records of block [j] on element [e] lie in the records of
    their function. *)
Lemma func_records_split j i b e :
  bs !! j = Some (i, b) -> (e < nelems self)%nat ->
  exists rest,
    func_records self arguments bs i
    = (func_records self arguments (take j bs) i ++ flat_map (fun e => local_records b self e arguments) (seq 0 e))
      ++ local_records b self e arguments ++ rest.
Proof.
  intros Hj He.
  exists (flat_map (fun e => local_records b self e arguments) (seq (S e) (nelems self - S e))
          ++ func_records self arguments (drop (S j) bs) i).
  transitivity (func_records self arguments (take j bs ++ (i, b) :: drop (S j) bs) i).
  { by rewrite take_drop_middle. }
  unfold func_records at 1. rewrite flat_map_app. cbn [flat_map fst snd].
  rewrite decide_True by done.
  fold (func_records self arguments (take j bs) i).
  fold (func_records self arguments (drop (S j) bs) i).
  unfold block_records.
  replace (seq 0 (nelems self)) with (seq 0 e ++ e :: seq (S e) (nelems self - S e)).
  2:{ change (e :: seq (S e) (nelems self - S e)) with (seq e (S (nelems self - S e))).
      replace e with (0 + e)%nat at 2 by lia. rewrite <- seq_app. f_equal. lia. }
  rewrite flat_map_app. cbn [flat_map].
  by rewrite <- !app_assoc.
Qed.

Lemma flat_map_position {A B} (f : A -> list B) l p :
  (p < length (flat_map f l))%nat ->
  exists k x, l !! k = Some x /\
    (length (flat_map f (take k l)) <= p < length (flat_map f (take k l)) + length (f x))%nat.
Proof.
  induction l as [|x l IH] using rev_ind; simpl; [lia|].
  rewrite flat_map_app, length_app. simpl. rewrite app_nil_r. intros Hp.
  destruct (decide (p < length (flat_map f l))%nat) as [Hlt|Hge].
  - destruct (IH Hlt) as (k & y & Hk & Hrange).
    exists k, y. split.
    + by rewrite lookup_app_l by (by eapply lookup_lt_Some).
    + rewrite take_app_le by (apply Nat.lt_le_incl; by eapply lookup_lt_Some). done.
  - exists (length l), x. split.
    + by rewrite list_lookup_middle.
    + rewrite take_app_length. lia.
Qed.

(** Every record of a function lies in the slot of one of its blocks on
    one element. *)
Lemma func_records_covered i p :
  (p < length (func_records self arguments bs i))%nat ->
  exists j b e, bs !! j = Some (i, b) /\ (e < nelems self)%nat /\
    (length (func_records self arguments (take j bs) i)
       + length (flat_map (fun e => local_records b self e arguments) (seq 0 e)) <= p
     < length (func_records self arguments (take j bs) i)
       + length (flat_map (fun e => local_records b self e arguments) (seq 0 e))
       + length (local_records b self e arguments))%nat.
Proof.
  intros Hp. unfold func_records in Hp.
  destruct (flat_map_position _ _ _ Hp) as (j & [i' b] & Hj & Hrange).
  cbn [fst snd] in Hrange.
  destruct (decide (i' = i)) as [->|Hne]; [|simpl in Hrange; lia].
  fold (func_records self arguments (take j bs) i) in Hrange.
  set (base := length (func_records self arguments (take j bs) i)) in *.
  assert (Hq : (p - base < length (block_records self arguments b))%nat) by lia.
  unfold block_records in Hq.
  destruct (flat_map_position _ _ _ Hq) as (e & x & He & Hr).
  apply lookup_seq in He as [-> He]. simpl in Hr.
  rewrite take_seq, Nat.min_l in Hr by lia.
  exists j, b, e. split; [done|]. split; [done|]. lia.
Qed.

Section fill.

Variables (offsets : list (list Z)) (nfuncs : nat).

Hypothesis Hidx : Forall (fun f => (f < nfuncs)%nat) (map fst bs).

Hypothesis Hslots : forall j i b e,
  bs !! j = Some (i, b) -> (e < nelems self)%nat ->
  exists row, offsets !! j = Some row /\
    row !! e = Some (Z.of_nat (length (func_records self arguments (take j bs) i)
                       + length (flat_map (fun e => local_records b self e arguments) (seq 0 e)))) /\
    row !! S e = Some (Z.of_nat (length (func_records self arguments (take j bs) i)
                       + length (flat_map (fun e => local_records b self e arguments) (seq 0 e))
                       + length (local_records b self e arguments))).

(** One turn of the inner loop writes the slot of block [m] on element
    [k] and leaves what the earlier turns wrote. *)
Lemma fill_block_written k m i b datas :
  (k < nelems self)%nat -> bs !! m = Some (i, b) ->
  length datas = nfuncs ->
  (forall i buf, datas !! i = Some buf -> length buf = length (func_records self arguments bs i)) ->
  (forall j i b e p buf, bs !! j = Some (i, b) ->
     (e < k \/ e = k /\ j < m)%nat -> (e < nelems self)%nat ->
     (length (func_records self arguments (take j bs) i)
        + length (flat_map (fun e => local_records b self e arguments) (seq 0 e)) <= p
      < length (func_records self arguments (take j bs) i)
        + length (flat_map (fun e => local_records b self e arguments) (seq 0 e))
        + length (local_records b self e arguments))%nat ->
     datas !! i = Some buf -> buf !! p = func_records self arguments bs i !! p) ->
  exists datas', fill_block self arguments offsets k datas (m, (i, b)) = Ok datas' /\
    length datas' = nfuncs /\
    (forall i buf, datas' !! i = Some buf ->
       length buf = length (func_records self arguments bs i)) /\
    (forall j i b e p buf, bs !! j = Some (i, b) ->
       (e < k \/ e = k /\ j < S m)%nat -> (e < nelems self)%nat ->
       (length (func_records self arguments (take j bs) i)
          + length (flat_map (fun e => local_records b self e arguments) (seq 0 e)) <= p
        < length (func_records self arguments (take j bs) i)
          + length (flat_map (fun e => local_records b self e arguments) (seq 0 e))
          + length (local_records b self e arguments))%nat ->
       datas' !! i = Some buf -> buf !! p = func_records self arguments bs i !! p).
Proof.
  intros Hk Hm Hlen Hlens Hinv.
  destruct (Hslots m i b k Hm Hk) as (row & Hrow & Hstart & Hstop).
  assert (Hi : (i < nfuncs)%nat).
  { eapply Forall_lookup_1 in Hidx; [exact Hidx|]. by rewrite list_lookup_fmap, Hm. }
  destruct (lookup_lt_is_Some_2 datas i) as [buf Hbuf]; [lia|].
  destruct (func_records_split m i b k Hm Hk) as (rest & Hsplit).
  set (pos := (length (func_records self arguments (take m bs) i)
               + length (flat_map (fun e => local_records b self e arguments) (seq 0 k)))%nat) in *.
  set (new := local_records b self k arguments) in *.
  assert (Hfit : (pos + length new <= length buf)%nat).
  { rewrite (Hlens i buf Hbuf), Hsplit. rewrite !length_app. fold pos. lia. }
  unfold fill_block. cbn [fst snd]. rewrite Hrow, Hbuf, Hstart, Hstop.
  fold new. rewrite write_slice_at by done. cbn [Py.bind].
  eexists. split; [reflexivity|].
  split; [by rewrite length_insert|].
  split.
  - intros i' buf' Hb'.
    destruct (decide (i' = i)) as [->|Hne].
    + rewrite list_lookup_insert_eq in Hb' by lia. simplify_eq.
      rewrite !length_app, length_take, length_drop.
      rewrite <- (Hlens i buf Hbuf). lia.
    + rewrite list_lookup_insert_ne in Hb' by done. by apply Hlens.
  - intros j i' b' e p buf' Hj Hdone He Hp Hb'.
    destruct (decide (i' = i)) as [->|Hne].
    + rewrite list_lookup_insert_eq in Hb' by lia. simplify_eq.
      rewrite patch_lookup by done.
      destruct (decide (pos <= p < pos + length new)%nat) as [Hin|Hout].
      * rewrite Hsplit.
        rewrite lookup_app_r by (rewrite length_app; fold pos; lia).
        rewrite length_app. fold pos.
        rewrite lookup_app_l by lia. done.
      * apply (Hinv j i b' e p buf Hj); try done.
        destruct Hdone as [Hlt|[-> Hjm]]; [by left|].
        destruct (decide (j = m)) as [->|Hjne]; [|right; lia].
        rewrite Hm in Hj. simplify_eq. fold pos in Hp. fold new in Hp. lia.
    + rewrite list_lookup_insert_ne in Hb' by done.
      apply (Hinv j i' b' e p buf' Hj); try done.
      destruct Hdone as [Hlt|[-> Hjm]]; [by left|].
      destruct (decide (j = m)) as [->|Hjne]; [|right; lia].
      rewrite Hm in Hj. simplify_eq.
Qed.

(** The two loops write every slot. *)
Lemma fill_loops datas :
  length datas = nfuncs ->
  (forall i buf, datas !! i = Some buf -> length buf = length (func_records self arguments bs i)) ->
  Py.for_each
    (fun datas ielem =>
       Py.for_each (fill_block self arguments offsets ielem) (enumerate bs) datas)
    (seq 0 (nelems self)) datas
  = Ok (map (func_records self arguments bs) (seq 0 nfuncs)).
Proof.
  intros Hlen Hlens.
  pose proof fill_block_written as Hturn.
  destruct (for_each_indexed
    (fun datas ielem =>
       Py.for_each (fill_block self arguments offsets ielem) (enumerate bs) datas)
    (fun k datas =>
       length datas = nfuncs /\
       (forall i buf, datas !! i = Some buf ->
          length buf = length (func_records self arguments bs i)) /\
       (forall j i b e p buf, bs !! j = Some (i, b) ->
          (e < k)%nat -> (e < nelems self)%nat ->
          (length (func_records self arguments (take j bs) i)
             + length (flat_map (fun e => local_records b self e arguments) (seq 0 e)) <= p
           < length (func_records self arguments (take j bs) i)
             + length (flat_map (fun e => local_records b self e arguments) (seq 0 e))
             + length (local_records b self e arguments))%nat ->
          datas !! i = Some buf -> buf !! p = func_records self arguments bs i !! p))
    (seq 0 (nelems self)) datas) as (st & Hst & Hl & Hls & Hw).
  - split; [done|]. split; [done|]. intros; lia.
  - intros k x acc Hx (Hl & Hls & Hw).
    apply lookup_seq in Hx as [-> Hk]. simpl.
    destruct (for_each_indexed (fill_block self arguments offsets k)
      (fun m datas =>
         length datas = nfuncs /\
         (forall i buf, datas !! i = Some buf ->
            length buf = length (func_records self arguments bs i)) /\
         (forall j i b e p buf, bs !! j = Some (i, b) ->
            (e < k \/ e = k /\ j < m)%nat -> (e < nelems self)%nat ->
            (length (func_records self arguments (take j bs) i)
               + length (flat_map (fun e => local_records b self e arguments) (seq 0 e)) <= p
             < length (func_records self arguments (take j bs) i)
               + length (flat_map (fun e => local_records b self e arguments) (seq 0 e))
               + length (local_records b self e arguments))%nat ->
            datas !! i = Some buf -> buf !! p = func_records self arguments bs i !! p))
      (enumerate bs) acc) as (st & Hst & Hl' & Hls' & Hw').
    + split; [done|]. split; [done|].
      intros j i b e p buf Hj [Hlt|[_ ?]] He Hp Hb; [|lia]. by eapply Hw.
    + intros m x acc' Hx (Hl' & Hls' & Hw').
      rewrite enumerate_lookup in Hx.
      destruct (bs !! m) as [[i b]|] eqn:Hm; [|done]. simpl in Hx. simplify_eq.
      by apply Hturn.
    + exists st. split; [done|]. split; [done|]. split; [done|].
      intros j i b e p buf Hj He Hen Hp Hb.
      apply (Hw' j i b e p buf Hj); try done.
      rewrite enumerate_length.
      destruct (decide (e = k)) as [->|]; [right|left; lia].
      split; [done|]. by eapply lookup_lt_Some.
  - rewrite Hst. f_equal. rewrite length_seq in Hw.
    apply list_eq. intros i.
    rewrite list_lookup_fmap.
    destruct (decide (i < nfuncs)%nat) as [Hi|Hi].
    + rewrite lookup_seq_lt by done. simpl.
      destruct (lookup_lt_is_Some_2 st i) as [buf Hbuf]; [lia|].
      rewrite Hbuf. f_equal.
      apply list_eq. intros p.
      destruct (decide (p < length (func_records self arguments bs i))%nat) as [Hp|Hp].
      * destruct (func_records_covered i p Hp) as (j & b & e & Hj & He & Hrange).
        by apply (Hw j i b e p buf).
      * rewrite (lookup_ge_None_2 (func_records self arguments bs i)) by lia.
        apply lookup_ge_None_2. rewrite (Hls i buf Hbuf). lia.
    + rewrite lookup_seq_ge by lia. simpl. apply lookup_ge_None_2. lia.
Qed.

End fill.

End content.

Section planned.

Context `{FC : FunctionCollaborator}.

Variables (self : Sample) (arguments : EvalArgs) (bs : list (nat * Block)) (nfuncs : nat).

Hypothesis Hnw : forall i, func_count self bs arguments i < U64.modulus.

Lemma base_func_count j i :
  func_total (take j (size_table self bs arguments)) (take j (map fst bs)) i
  = func_count self (take j bs) arguments i.
Proof.
  rewrite size_table_exact by done.
  rewrite <- !fmap_take.
  rewrite (func_total_map (fun b => 0 :: block_counts self arguments b)).
  reflexivity.
Qed.

Lemma planned_slots st j i b e :
  planned (size_table self bs arguments) (map fst bs) nfuncs (length (map fst bs)) st ->
  bs !! j = Some (i, b) -> (e < nelems self)%nat ->
  exists row, st.1 !! j = Some row /\
    row !! e = Some (Z.of_nat (length (func_records self arguments (take j bs) i)
                       + length (flat_map (fun e => local_records b self e arguments) (seq 0 e)))) /\
    row !! S e = Some (Z.of_nat (length (func_records self arguments (take j bs) i)
                       + length (flat_map (fun e => local_records b self e arguments) (seq 0 e))
                       + length (local_records b self e arguments))).
Proof.
  intros [I1 I2 I3 I4 I5] Hj He.
  set (counts := block_counts self arguments b).
  assert (Hr : size_table self bs arguments !! j = Some (0 :: counts)).
  { rewrite size_table_exact by done. by rewrite list_lookup_fmap, Hj. }
  assert (Hf : map fst bs !! j = Some i) by (by rewrite list_lookup_fmap, Hj).
  assert (Hk : (j < length (map fst bs))%nat) by (by eapply lookup_lt_Some).
  destruct (I5 j i counts Hk Hf Hr) as [Hrow Hsum].
  rewrite base_func_count in Hrow, Hsum.
  rewrite <- length_func_records in Hrow, Hsum.
  set (base := length (func_records self arguments (take j bs) i)) in *.
  assert (Hc0 : Forall (fun y => 0 <= y) counts) by apply block_counts_nonneg.
  destruct (cumsum_from_exact (Z.of_nat base) counts (Nat2Z.is_nonneg base) Hc0 Hsum) as (_ & _ & Hentries).
  assert (Hlc : length counts = nelems self).
  { unfold counts, block_counts. by rewrite length_map, length_seq. }
  assert (Hce : counts !! e = Some (block_size b self e arguments)).
  { unfold counts, block_counts. rewrite list_lookup_fmap, lookup_seq_lt by done. done. }
  pose proof (length_block_prefix self arguments b e (Nat.lt_le_incl _ _ He)) as Hpre.
  pose proof (sum_take_S counts e _ Hce) as HS.
  pose proof (length_local_records b self e arguments) as Hlr.
  fold counts in Hpre.
  eexists. split; [exact Hrow|]. split.
  - destruct e as [|e].
    + cbn. f_equal. lia.
    + change ((Z.of_nat base :: U64.cumsum_from (Z.of_nat base) counts) !! S e)
        with (U64.cumsum_from (Z.of_nat base) counts !! e).
      rewrite Hentries by lia. f_equal. lia.
  - change ((Z.of_nat base :: U64.cumsum_from (Z.of_nat base) counts) !! S e)
      with (U64.cumsum_from (Z.of_nat base) counts !! e).
    rewrite Hentries by lia. f_equal. lia.
Qed.

Lemma planned_nvals_exact st :
  Forall (fun f => (f < nfuncs)%nat) (map fst bs) ->
  planned (size_table self bs arguments) (map fst bs) nfuncs (length (map fst bs)) st ->
  st.2 = map (fun i => func_count self bs arguments i) (seq 0 nfuncs).
Proof.
  intros Hidx [I1 I2 I3 I4 I5].
  apply list_eq. intros i. rewrite list_lookup_fmap.
  destruct (decide (i < nfuncs)%nat) as [Hi|Hi].
  - destruct (I4 i Hi) as [-> _]. rewrite lookup_seq_lt by done. simpl. f_equal.
    rewrite firstn_all.
    replace (length (map fst bs)) with (length (size_table self bs arguments))
      by (unfold size_table; by rewrite !length_map).
    rewrite firstn_all. by apply func_total_size_table.
  - rewrite lookup_seq_ge by lia. apply lookup_ge_None_2. lia.
Qed.

End planned.

Section main.

Context `{FC : FunctionCollaborator}.

Lemma zip_with_seq_imap {A B C} (f : A -> B -> C) (g : nat -> B) (l : list A) :
  zip_with f l (map g (seq 0 (length l))) = imap (fun i a => f a (g i)) l.
Proof.
  apply list_eq. intros i. rewrite lookup_zip_with, list_lookup_imap, list_lookup_fmap.
  destruct (l !! i) as [a|] eqn:Ha; simpl; [|done].
  rewrite lookup_seq_lt by (by eapply lookup_lt_Some). done.
Qed.

(** An assembly whose counters do not wrap returns, for every function,
    the records of its blocks, and asks for exactly its evaluations and
    buffers. *)
Lemma integrate_sparse_spec self funcs arguments tr :
  no_wrap self funcs arguments ->
  integrate_sparse self funcs arguments tr
  = (Ok (assembled self funcs arguments), tr ++ requests self funcs arguments).
Proof.
  intros Hnw. unfold no_wrap in Hnw. unfold integrate_sparse, assembled, requests.
  set (funcs' := _prepare_funcs self funcs) in *.
  set (bs := all_blocks funcs') in *.
  unfold Traced.bind at 1. rewrite size_pass_spec.
  unfold Traced.bind at 1. unfold Traced.lift at 1.
  assert (Hidx : Forall (fun f => (f < length funcs')%nat) (map fst bs)).
  { apply Forall_map, Forall_forall. intros [i b] Hib. simpl.
    by eapply all_blocks_index. }
  destruct (offset_pass_ok (size_table self bs arguments) (map fst bs) (length funcs'))
    as ([t nv] & -> & Hpl).
  - unfold size_table. by rewrite !length_map.
  - apply size_table_count_rows.
  - done.
  - intros i. rewrite func_total_size_table by done. apply Hnw.
  - pose proof (planned_nvals_exact self arguments bs (length funcs') Hnw (t, nv) Hidx Hpl) as Hnv.
    cbn [fst snd] in Hnv. subst nv.
    unfold Traced.bind at 1. rewrite allocate_spec. cbn [snd fst].
    unfold Traced.bind at 1. unfold fill.
    rewrite (traced_for_each_emit (fun e => BlockEval self e (length bs))
               (fun datas ielem =>
                  Py.for_each (fill_block self arguments t ielem) (enumerate bs) datas)
               _ _ (map (func_records self arguments bs) (seq 0 (length funcs')))).
    + unfold Traced.ret. f_equal.
      * f_equal. apply zip_with_seq_imap.
      * rewrite <- !app_assoc. do 2 f_equal. f_equal.
        apply list_eq. intros i.
        rewrite list_lookup_fmap, enumerate_lookup, list_lookup_fmap, list_lookup_imap.
        destruct (decide (i < length funcs')%nat) as [Hi|Hi].
        -- rewrite lookup_seq_lt by done. simpl.
           destruct (lookup_lt_is_Some_2 funcs' i Hi) as [f Hf]. rewrite Hf. simpl.
           unfold alloc_event. simpl. by rewrite Hf.
        -- rewrite lookup_seq_ge by lia. simpl.
           by rewrite (lookup_ge_None_2 funcs') by lia.
    + apply (fill_loops self arguments bs t (length funcs') Hidx).
      * intros j i b e Hj He.
        exact (planned_slots self arguments bs (length funcs') Hnw (t, _) j i b e Hpl Hj He).
      * by rewrite length_map, enumerate_length, length_map, length_seq.
      * intros i buf Hbuf.
        rewrite list_lookup_fmap, enumerate_lookup, list_lookup_fmap in Hbuf.
        destruct (decide (i < length funcs')%nat) as [Hi|Hi].
        -- rewrite lookup_seq_lt in Hbuf by done. simpl in Hbuf. simplify_eq.
           unfold fresh_buffer. simpl. rewrite length_replicate.
           rewrite <- length_func_records. lia.
        -- rewrite lookup_seq_ge in Hbuf by lia. done.
Qed.

End main.

End assembly_content.

Import assembly_content.

(** * Further properties of the assembly and of its callers *)

Module assembly_more.

Import sample Assembly.

(** X1: when no cumulative count wraps, [Sample.integrate_sparse] returns
    one collection per function, of the function's shape, whose records
    are exactly those of the function's blocks: block after block, within
    a block element after element, within an element the entries of the
    local tensor in row-major order.  No slot of the uninitialized buffers
    is left unwritten and none is written with anything else. *)
Theorem integrate_sparse_returns_block_records `{FC : FunctionCollaborator} self funcs arguments tr :
  no_wrap self funcs arguments ->
  exists datas tr',
    integrate_sparse self funcs arguments tr = (Ok datas, tr')
    /\ length datas = length funcs
    /\ forall i func, funcs !! i = Some func ->
         datas !! i
         = Some (sparse.FloatData
                   (sparse.mk_data (fshape (prepare_eval (ndims self) func))
                      (func_records self arguments
                         (all_blocks (_prepare_funcs self funcs)) i))).
Proof.
  intros Hnw. rewrite (integrate_sparse_spec self funcs arguments tr Hnw).
  eexists _, _. split; [reflexivity|]. unfold assembled. split.
  - unfold _prepare_funcs. by rewrite length_imap, length_map.
  - intros i func Hf. rewrite list_lookup_imap.
    assert (Hf' : _prepare_funcs self funcs !! i = Some (prepare_eval (ndims self) func)).
    { unfold _prepare_funcs. by rewrite list_lookup_fmap, Hf. }
    by rewrite Hf'.
Qed.

Lemma integrate_sparse_returns_block_records_witness :
  exists datas tr',
    integrate_sparse (FC := Toy.functions) Toy.two_elements [Examples.f1] tt []
    = (Ok datas, tr')
    /\ length datas = 1%nat
    /\ forall i (func : Toy.func), [Examples.f1] !! i = Some func ->
         datas !! i
         = Some (sparse.FloatData
                   (sparse.mk_data (@fshape Toy.functions (@prepare_eval Toy.functions (ndims Toy.two_elements) func))
                      (func_records (FC := Toy.functions) Toy.two_elements tt
                         (all_blocks (_prepare_funcs (FC := Toy.functions) Toy.two_elements [Examples.f1])) i))).
Proof.
  apply (integrate_sparse_returns_block_records (FC := Toy.functions)
           Toy.two_elements [Examples.f1] tt []).
  intros i. destruct i as [|[|i]]; reflexivity.
Defined.

(** X2: when no cumulative count wraps, the requests of
    [Sample.integrate_sparse] are, in this order: one stacked size
    evaluation per element (none when there is no block), one shared
    buffer per function, of exactly as many records as the function's
    blocks contribute over all elements, and one evaluation of all blocks
    per element. *)
Theorem integrate_sparse_requests `{FC : FunctionCollaborator} self funcs arguments tr :
  no_wrap self funcs arguments ->
  let funcs' := _prepare_funcs self funcs in
  let bs := all_blocks funcs' in
  exists datas,
    integrate_sparse self funcs arguments tr
    = (Ok datas,
       tr ++ size_events self bs
          ++ imap (fun i func => ShEmpty (func_count self bs arguments i) (fshape func)) funcs'
          ++ map (fun e => BlockEval self e (length bs)) (seq 0 (nelems self))).
Proof.
  intros Hnw. simpl. rewrite (integrate_sparse_spec self funcs arguments tr Hnw).
  eexists. reflexivity.
Qed.

Lemma integrate_sparse_requests_witness :
  exists datas,
    integrate_sparse (FC := Toy.functions) Toy.two_elements [Examples.f1; Examples.f2] tt []
    = (Ok datas,
       [SizeEval Toy.two_elements 0 3; SizeEval Toy.two_elements 1 3;
        ShEmpty 8 [4%nat]; ShEmpty 6 [3; 3]%nat;
        BlockEval Toy.two_elements 0 3; BlockEval Toy.two_elements 1 3]).
Proof.
  apply (integrate_sparse_requests (FC := Toy.functions)
           Toy.two_elements [Examples.f1; Examples.f2] tt []).
  intros i. destruct i as [|[|[|i]]]; reflexivity.
Defined.

Lemma shape_prune_dedup chunk (d : sparse.t) inplace inplace' :
  sparse.shape (sparse.prune (sparse.dedup chunk d inplace) inplace') = sparse.shape d.
Proof. by destruct d. Qed.

Lemma convert_kind `{FC : FunctionCollaborator} `{MC : MatrixCollaborator}
    chunksize (d : sparse.t) inplace :
  match _convert chunksize d inplace with
  | Array a => (sparse.ndim d < 2)%nat /\ sparse.dense_shape a = sparse.shape d
  | BackendMatrix m => sparse.ndim d = 2%nat /\ m = fromsparse d inplace
  | SparseData d' => (2 < sparse.ndim d)%nat /\ sparse.shape d' = sparse.shape d
  end.
Proof.
  unfold _convert.
  destruct (sparse.ndim d <? 2)%nat eqn:E1.
  - apply Nat.ltb_lt in E1. split; [done|]. apply toarray_shape.
  - apply Nat.ltb_ge in E1.
    destruct (sparse.ndim d =? 2)%nat eqn:E2.
    + apply Nat.eqb_eq in E2. done.
    + apply Nat.eqb_neq in E2. split; [lia|]. apply shape_prune_dedup.
Qed.

(** X3: when no cumulative count wraps, [Sample.integrate] returns one
    object per function, whose kind follows from the rank of the
    (prepared) function alone: a dense array of the function's shape
    below rank 2, a matrix of the backend at rank 2, sparse data of the
    function's shape above. *)
Theorem integrate_converts_by_rank `{FC : FunctionCollaborator} `{MC : MatrixCollaborator}
    chunksize self funcs arguments tr :
  no_wrap self funcs arguments ->
  exists results tr',
    integrate chunksize self funcs arguments tr = (Ok results, tr')
    /\ length results = length funcs
    /\ forall i func, funcs !! i = Some func ->
         exists r, results !! i = Some r /\
           match r with
           | Array a =>
               (length (fshape (prepare_eval (ndims self) func)) < 2)%nat
               /\ sparse.dense_shape a = fshape (prepare_eval (ndims self) func)
           | BackendMatrix _ => length (fshape (prepare_eval (ndims self) func)) = 2%nat
           | SparseData d =>
               (2 < length (fshape (prepare_eval (ndims self) func)))%nat
               /\ sparse.shape d = fshape (prepare_eval (ndims self) func)
           end.
Proof.
  intros Hnw.
  destruct (integrate_sparse_ok self funcs arguments tr Hnw)
    as (datas & tr' & Hrun & Hlen & Hshape).
  unfold integrate, Traced.bind. rewrite Hrun. unfold Traced.ret.
  eexists _, _. split; [reflexivity|]. split; [by rewrite length_map|].
  intros i func Hf. destruct (Hshape i func Hf) as (d & Hd & Hs).
  exists (_convert chunksize d true). split; [by rewrite list_lookup_fmap, Hd|].
  pose proof (convert_kind chunksize d true) as Hk.
  unfold sparse.ndim in Hk. rewrite Hs in Hk.
  destruct (_convert chunksize d true); tauto.
Qed.

Lemma integrate_converts_by_rank_witness :
  exists results tr',
    integrate (FC := Toy.functions) (MC := Toy.matrices) 3 Toy.two_elements
              [Examples.f1; Examples.f2] tt [] = (Ok results, tr')
    /\ length results = 2%nat
    /\ forall i (func : Toy.func), [Examples.f1; Examples.f2] !! i = Some func ->
         exists r, results !! i = Some r /\
           match r with
           | Array a =>
               (length (@fshape Toy.functions func) < 2)%nat
               /\ sparse.dense_shape a = @fshape Toy.functions func
           | BackendMatrix _ => length (@fshape Toy.functions func) = 2%nat
           | SparseData d =>
               (2 < length (@fshape Toy.functions func))%nat
               /\ sparse.shape d = @fshape Toy.functions func
           end.
Proof.
  apply (integrate_converts_by_rank (FC := Toy.functions) (MC := Toy.matrices) 3
           Toy.two_elements [Examples.f1; Examples.f2] tt []).
  intros i. destruct i as [|[|[|i]]]; reflexivity.
Defined.

(** X4: [eval_integrals] on well-formed Integrals, none of whose
    assemblies wraps a counter, returns one object per Integral, in the
    order of the arguments, whose kind follows from the Integral's declared
    shape alone: a dense array of that shape below rank 2, a matrix of the
    backend at rank 2, sparse data of that shape above. *)
Theorem eval_integrals_converts_by_rank `{FC : FunctionCollaborator}
    `{MC : MatrixCollaborator} chunksize integrals arguments tr :
  Forall is_Integral integrals ->
  (forall n f, fshape (prepare_eval n f) = fshape f) ->
  no_wrap_all integrals arguments ->
  exists results tr',
    eval_integrals chunksize integrals arguments tr = (Ok results, tr')
    /\ length results = length integrals
    /\ forall i integral, integrals !! i = Some integral ->
         exists r, results !! i = Some r /\
           match r with
           | Array a =>
               (Integral.ndim integral < 2)%nat
               /\ sparse.dense_shape a = Integral.shape integral
           | BackendMatrix _ => Integral.ndim integral = 2%nat
           | SparseData d =>
               (2 < Integral.ndim integral)%nat
               /\ sparse.shape d = Integral.shape integral
           end.
Proof.
  intros Hint Hprep Hnw.
  destruct (collect_ok integrals arguments tr Hint Hprep Hnw) as (retvals & tr' & Hloop & Hseed).
  destruct (add_all_ok integrals retvals Hseed) as (datas & Hadd & Hlen & Hshape).
  unfold eval_integrals, eval_integrals_sparse, Traced.bind.
  rewrite Hloop. unfold Traced.lift. rewrite Hadd. unfold Traced.ret.
  eexists _, _. split; [reflexivity|]. split; [by rewrite length_map|].
  intros i integral Hi. destruct (Hshape i integral Hi) as (d & Hd & Hs & _).
  exists (_convert chunksize d true). split; [by rewrite list_lookup_fmap, Hd|].
  pose proof (convert_kind chunksize d true) as Hk.
  unfold sparse.ndim in Hk. rewrite Hs in Hk. unfold Integral.ndim.
  destruct (_convert chunksize d true); tauto.
Qed.

Lemma eval_integrals_converts_by_rank_witness :
  exists results tr',
    eval_integrals (FC := Toy.functions) (MC := Toy.matrices) 3
      [Examples.int_f1; Examples.int_f2; Examples.int_zero] tt [] = (Ok results, tr')
    /\ length results = 3%nat
    /\ forall i integral,
         [Examples.int_f1; Examples.int_f2; Examples.int_zero] !! i = Some integral ->
         exists r, results !! i = Some r /\
           match r with
           | Array a =>
               (Integral.ndim integral < 2)%nat
               /\ sparse.dense_shape a = Integral.shape integral
           | BackendMatrix _ => Integral.ndim integral = 2%nat
           | SparseData d =>
               (2 < Integral.ndim integral)%nat
               /\ sparse.shape d = Integral.shape integral
           end.
Proof.
  apply (eval_integrals_converts_by_rank (FC := Toy.functions) (MC := Toy.matrices) 3
           [Examples.int_f1; Examples.int_f2; Examples.int_zero] tt []).
  - repeat constructor.
    + by exists [(Toy.two_elements, Examples.f1)], [4%nat].
    + by exists [(Toy.two_elements, Examples.f2)], [3; 3]%nat.
    + by exists [(Toy.one_element, Examples.zero)], [2%nat].
  - done.
  - intros s iints Hin. vm_compute in Hin.
    apply list_elem_of_singleton in Hin. injection Hin as -> ->.
    intros i. destruct i as [|[|[|i]]]; reflexivity.
Defined.

End assembly_more.

Module postponed_single.

Import sample Assembly.

Lemma integral_built `{FC : FunctionCollaborator} self func :
  fshape (simplified func) = fshape func ->
  IntegralMethods.integral self func
  = Ok (Integral.mk (if iszero (simplified func) then [] else [(self, simplified func)])
                    (fshape func)).
Proof.
  intros Hs. unfold IntegralMethods.integral, Integral.__init__, Integral.frozendict.
  cbn [foldl Integral.dict_set fst snd forallb].
  rewrite bool_decide_eq_true_2 by done. cbn [andb].
  f_equal. f_equal. unfold Integral.dict. rewrite filter_cons, filter_nil. cbn [snd].
  destruct (iszero (simplified func)); by case_decide.
Qed.

Lemma eval_single `{FC : FunctionCollaborator} self f shp arguments tr :
  fshape (prepare_eval (ndims self) f) = shp ->
  no_wrap self [f] arguments ->
  exists d tr',
    integrate_sparse self [f] arguments tr = (Ok [d], tr')
    /\ sparse.shape d = shp
    /\ eval_integrals_sparse [Integral.mk [(self, f)] shp] arguments tr = (Ok [d], tr').
Proof.
  intros Hshape Hnw.
  pose proof (integrate_sparse_spec self [f] arguments tr Hnw) as Hrun.
  unfold assembled in Hrun. cbn [_prepare_funcs map imap] in Hrun.
  rewrite Hshape in Hrun.
  eexists _, _. split; [exact Hrun|]. split; [done|].
  unfold eval_integrals_sparse, obligations, gather, seed, enumerate.
  cbn [imap flat_map map app Integral._integrands Integral.shape fst snd foldl gather_item
       Traced.for_each].
  unfold Traced.bind at 1. unfold Traced.bind at 1. unfold visit.
  cbn [fst snd map].
  unfold Traced.bind at 1. unfold Traced.lift at 1.
  unfold integrand_of. cbn [lookup list_lookup Integral._integrands Integral.dict_get].
  rewrite decide_True by done. cbn [sequence Py.bind].
  unfold Traced.bind at 1. rewrite Hrun.
  unfold Traced.lift, Traced.ret.
  cbn [zip zip_with for_each append_to fst snd lookup list_lookup Py.bind list_insert insert app
       map sequence].
  unfold sparse.add.
  cbn [forallb sparse.shape sparse.empty sparse.extents].
  rewrite !bool_decide_eq_true_2 by done.
  cbn [andb sparse.result_type foldr sparse.vt_join sparse.dtype sparse.empty flat_map
       sparse.as_float sparse.records app Py.bind].
  rewrite app_nil_r. reflexivity.
Qed.

(** X5: [sample.integral(func).eval(arguments)] against
    [sample.integrate([func'], arguments)] for the simplified integrand
    [func']: when [func'] is not identically zero both return the same
    object and make the same requests; when it is, the postponed integral
    has no term and its evaluation returns the conversion of the empty
    collection of the integrand's shape without a single request. *)
Theorem integral_eval_is_integrate `{FC : FunctionCollaborator} `{MC : MatrixCollaborator}
    chunksize self func arguments tr :
  fshape (simplified func) = fshape func ->
  (forall n f, fshape (prepare_eval n f) = fshape f) ->
  no_wrap self [simplified func] arguments ->
  exists integral,
    IntegralMethods.integral self func = Ok integral /\
    if iszero (simplified func)
    then IntegralMethods.eval chunksize integral arguments tr
         = (Ok (_convert chunksize (sparse.empty (fshape func)) true), tr)
    else exists r tr',
         IntegralMethods.eval chunksize integral arguments tr = (Ok r, tr')
         /\ integrate chunksize self [simplified func] arguments tr = (Ok [r], tr').
Proof.
  intros Hs Hprep Hnw.
  eexists. split; [by apply integral_built|].
  unfold IntegralMethods.eval, eval_integrals, integrate.
  destruct (iszero (simplified func)).
  - unfold Traced.bind at 1. unfold Traced.bind at 1.
    rewrite eval_integrals_sparse_empty by (by repeat constructor).
    reflexivity.
  - destruct (eval_single self (simplified func) (fshape func) arguments tr)
      as (d & tr' & Hrun & _ & Heval); [by rewrite Hprep | done |].
    exists (_convert chunksize d true), tr'.
    unfold Traced.bind. rewrite Heval, Hrun. done.
Qed.

Lemma integral_eval_is_integrate_witness :
  exists integral,
    IntegralMethods.integral (FC := Toy.functions) Toy.two_elements Examples.f1 = Ok integral /\
    exists r tr',
      IntegralMethods.eval (FC := Toy.functions) (MC := Toy.matrices) 3 integral tt []
      = (Ok r, tr')
      /\ integrate (FC := Toy.functions) (MC := Toy.matrices) 3 Toy.two_elements
                   [Examples.f1] tt [] = (Ok [r], tr').
Proof.
  apply (integral_eval_is_integrate (FC := Toy.functions) (MC := Toy.matrices) 3
           Toy.two_elements Examples.f1 tt []).
  - reflexivity.
  - reflexivity.
  - intros i. destruct i as [|[|i]]; reflexivity.
Defined.

End postponed_single.

(** * The remaining methods of [Integral] *)

Module integral_methods.

Import sample.Integral IntegralMethods.

Section facts.

Context `{FA : FunctionAlgebra}.

Lemma keys_map_integrands (h : Func -> Func) (a : t) :
  keys (map_integrands h a) = keys (_integrands a).
Proof. unfold keys, map_integrands. rewrite map_map. done. Qed.

(** A method that rebuilds an Integral from its terms taken through [h]. *)
Lemma map_integrands_spec (h : Func -> Func) shp' (a : t) :
  is_Integral a ->
  (forall s f, dict_get s (_integrands a) = Some f -> fshape (simplified (h f)) = shp') ->
  exists c, __init__ (map_integrands h a) shp' = Ok c /\ shape c = shp' /\ is_Integral c /\
    forall s, dict_get s (_integrands c) = constructed (h <$> dict_get s (_integrands a)).
Proof.
  intros Ha Hshape. destruct (is_Integral_inv a Ha) as [Hnd _].
  destruct (init_lookup (map_integrands h a) shp') as (c & Hc & Hsc & Hlook).
  - by rewrite keys_map_integrands.
  - intros k g Hk. unfold map_integrands in Hk. rewrite dict_get_map_values in Hk.
    destruct (dict_get k (_integrands a)) as [f|] eqn:E; [|done].
    simpl in Hk. simplify_eq. by eapply Hshape.
  - exists c. split; [done|]. split; [done|]. split.
    + by eexists _, _.
    + intros s. rewrite Hlook. unfold map_integrands. by rewrite dict_get_map_values.
Qed.

Lemma dict_set_fresh k f (d : dict) :
  k ∉ keys d -> dict_set k f d = d ++ [(k, f)].
Proof.
  unfold keys. induction d as [|[k' f'] d IH]; simpl; intros Hk; [done|].
  rewrite decide_False by (intros ->; apply Hk; left).
  f_equal. apply IH. intros Hin. apply Hk. by right.
Qed.

Lemma foldl_dict_set_fresh (h : Func -> Func) (items acc : dict) :
  NoDup (keys acc ++ keys items) ->
  foldl (fun d kv => dict_set kv.1 (h kv.2) d) acc items
  = acc ++ map (fun kv => (kv.1, h kv.2)) items.
Proof.
  unfold keys. revert acc. induction items as [|[k f] items IH]; intros acc Hnd; simpl.
  - by rewrite app_nil_r.
  - simpl in Hnd. rewrite dict_set_fresh.
    + rewrite IH.
      * by rewrite <- app_assoc.
      * rewrite map_app. simpl. by rewrite <- app_assoc.
    + apply NoDup_app in Hnd as (_ & Hdisj & _).
      intros Hin. apply (Hdisj k Hin). left.
Qed.

Lemma filter_all {A} (P : A -> Prop) `{!forall x, Decision (P x)} (l : list A) :
  Forall P l -> filter P l = l.
Proof.
  induction 1 as [|x l Hx _ IH]; [done|]. rewrite filter_cons_True by done. by rewrite IH.
Qed.

(** The constructor leaves the terms of an Integral as they are. *)
Lemma init_of_integral (a : t) :
  (forall f, simplified (simplified f) = simplified f) ->
  is_Integral a -> __init__ (_integrands a) (shape a) = Ok a.
Proof.
  intros Hidem Ha. destruct (is_Integral_inv a Ha) as [Hnd Hterms].
  assert (Hfd : frozendict (_integrands a) = _integrands a).
  { unfold frozendict. rewrite foldl_dict_set_fresh by (simpl; done). simpl.
    rewrite <- (map_id (_integrands a)) at 2. apply map_ext_in.
    intros [k f] Hin. apply list_elem_of_In in Hin.
    destruct (Hterms k f Hin) as (_ & _ & f0 & ->). simpl. by rewrite Hidem. }
  rewrite init_ok.
  - rewrite Hfd. destruct a as [d shp]. simpl in *. f_equal. f_equal.
    unfold dict in *. apply filter_all. apply Forall_forall. intros [k f] Hin.
    by destruct (Hterms k f Hin) as (_ & ? & _).
  - rewrite Hfd. intros k f Hin. by destruct (Hterms k f Hin) as (? & _).
Qed.

Lemma foldl_add_term_fresh (items acc : dict) :
  NoDup (keys acc ++ keys items) ->
  foldl add_term acc items = acc ++ items.
Proof.
  unfold keys. revert acc. induction items as [|[k f] items IH]; intros acc Hnd; simpl.
  - by rewrite app_nil_r.
  - simpl in Hnd.
    assert (Hk : k ∉ keys acc).
    { apply NoDup_app in Hnd as (_ & Hdisj & _). intros Hin. apply (Hdisj k Hin). left. }
    unfold add_term at 2. cbn [fst snd].
    rewrite (proj2 (dict_get_None k acc) Hk), dict_set_fresh by done.
    rewrite IH.
    + by rewrite <- app_assoc.
    + rewrite map_app. simpl. by rewrite <- app_assoc.
Qed.

End facts.

(** X9: an Integral without terms is a two-sided identity of [+]: added
    to a well-formed Integral [a] of its shape, from either side, it gives
    back [a] itself (the simplifier being idempotent). *)
Theorem add_empty_is_identity `{FC : FunctionCollaborator} (a : t) :
  (forall f, simplified (simplified f) = simplified f) ->
  is_Integral a ->
  __add__ a (mk [] (shape a)) = Ok a /\ __add__ (mk [] (shape a)) a = Ok a.
Proof.
  intros Hidem Ha. unfold __add__. cbn [shape _integrands foldl].
  rewrite bool_decide_eq_true_2 by done. split.
  - by apply init_of_integral.
  - rewrite foldl_add_term_fresh.
    + by apply init_of_integral.
    + simpl. by destruct (is_Integral_inv a Ha).
Qed.

Lemma add_empty_is_identity_witness :
  __add__ (FC := Toy.functions) Examples.int_f1_both (mk [] [4%nat]) = Ok Examples.int_f1_both
  /\ __add__ (FC := Toy.functions) (mk [] [4%nat]) Examples.int_f1_both
     = Ok Examples.int_f1_both.
Proof.
  apply (add_empty_is_identity (FC := Toy.functions) Examples.int_f1_both).
  - reflexivity.
  - by exists [(Toy.one_element, Examples.f1); (Toy.two_elements, Examples.f1)], [4%nat].
Defined.

(** X6: [Integral.derivative] to a target that occurs in no term raises
    [KeyError] instead of returning a zero Integral; so it does on every
    Integral without terms.  To a target that occurs under one argument
    shape it returns a well-formed Integral of shape [self.shape + argshape] whose
    terms are the derivatives of the terms, on their Samples, as the
    constructor leaves them; it adds no Sample. *)
Theorem derivative_of_integral `{FA : FunctionAlgebra} (a : t) (target : string) :
  (~ occurs a target -> derivative a target = Raise (KeyError target))
  /\ (dependencies [] = [] -> _integrands a = [] ->
      derivative a target = Raise (KeyError target))
  /\ (forall argshape,
        is_Integral a -> _argshape a target = Ok argshape ->
        (forall s f, dict_get s (_integrands a) = Some f ->
           fshape (simplified (fderivative f target argshape)) = fshape f ++ argshape) ->
        exists d, derivative a target = Ok d
          /\ shape d = shape a ++ argshape
          /\ is_Integral d
          /\ forall s, dict_get s (_integrands d)
               = constructed ((fun f => fderivative f target argshape)
                                <$> dict_get s (_integrands a))).
Proof.
  assert (Hno : ~ occurs a target -> derivative a target = Raise (KeyError target)).
  { intros Hocc. apply argshapes_nil in Hocc.
    pose proof (argshape_cases a target) as Hc. rewrite Hocc in Hc.
    unfold derivative. by rewrite (proj1 Hc). }
  split; [done|]. split.
  - intros Hdeps Hempty. apply Hno. intros (func & Hin & _).
    rewrite Hempty in Hin. simpl in Hin. rewrite Hdeps in Hin.
    by apply not_elem_of_nil in Hin.
  - intros argshape Ha Harg Hshape. unfold derivative. rewrite Harg. cbn [Py.bind].
    destruct (is_Integral_inv a Ha) as [Hnd Hterms].
    apply map_integrands_spec; [done|].
    intros s f Hf. rewrite (Hshape s f Hf). f_equal.
    apply dict_get_elem in Hf; [|done]. by destruct (Hterms s f Hf).
Qed.

Lemma derivative_of_integral_witness :
  derivative (FA := ToyAlgebra.algebra) Examples.int_f1 "u" = Raise (KeyError "u")
  /\ derivative (FA := ToyAlgebra.algebra) Examples.int_zero "u" = Raise (KeyError "u")
  /\ exists d, derivative (FA := ToyAlgebra.algebra) Examples.int_f2 "u" = Ok d
       /\ shape d = [3; 3; 3]%nat.
Proof.
  pose proof (derivative_of_integral (FA := ToyAlgebra.algebra) Examples.int_f1 "u") as H1.
  pose proof (derivative_of_integral (FA := ToyAlgebra.algebra) Examples.int_zero "u") as H0.
  pose proof (derivative_of_integral (FA := ToyAlgebra.algebra) Examples.int_f2 "u") as H2.
  split; [|split].
  - apply (proj1 H1). intros (func & Hin & Hname). vm_compute in Hin.
    apply list_elem_of_singleton in Hin. subst func. discriminate Hname.
  - apply (proj1 (proj2 H0)); reflexivity.
  - destruct (proj2 (proj2 H2) [3%nat]) as (d & Hd & Hs & _).
    + by exists [(Toy.two_elements, Examples.f2)], [3; 3]%nat.
    + reflexivity.
    + intros s f Hf. simpl in Hf. case_decide; [|done]. by simplify_eq.
    + by exists d.
Defined.

(** X7: [Integral.__mul__] (and [__rmul__]) by a number returns a
    well-formed Integral of the same shape whose terms are the products
    of the terms, on their Samples, as the constructor leaves them: a
    product that simplifies to zero loses its Sample, and no Sample is
    added.  [__truediv__] by [c] is [__mul__] by [1/c], and fails as the
    computation of [1/c] fails, before any term is touched. *)
Theorem mul_scales_terms `{FA : FunctionAlgebra} (a : t) (c : Number) :
  is_Integral a ->
  (forall s f, dict_get s (_integrands a) = Some f ->
     fshape (simplified (fmul f c)) = fshape f) ->
  (exists r, __mul__ a c = Ok r /\ __rmul__ a c = Ok r
     /\ shape r = shape a /\ is_Integral r
     /\ (forall s, dict_get s (_integrands r)
           = constructed ((fun f => fmul f c) <$> dict_get s (_integrands a)))
     /\ (forall c', reciprocal c' = Ok c -> __truediv__ a c' = Ok r))
  /\ (forall c' e, reciprocal c' = Raise e -> __truediv__ a c' = Raise e).
Proof.
  intros Ha Hshape. split.
  - destruct (is_Integral_inv a Ha) as [Hnd Hterms].
    destruct (map_integrands_spec (fun f => fmul f c) (shape a) a Ha)
      as (r & Hr & Hs & Hi & Hlook).
    + intros s f Hf. rewrite (Hshape s f Hf).
      apply dict_get_elem in Hf; [|done]. by destruct (Hterms s f Hf).
    + exists r. unfold __rmul__, __mul__. repeat split; try done.
      intros c' Hc'. unfold __truediv__. by rewrite Hc'.
  - intros c' e Hc'. unfold __truediv__. by rewrite Hc'.
Qed.

Lemma mul_scales_terms_witness :
  (exists r, __mul__ (FA := ToyAlgebra.algebra) Examples.int_f1_both (-1) = Ok r
     /\ __rmul__ (FA := ToyAlgebra.algebra) Examples.int_f1_both (-1) = Ok r
     /\ shape r = [4%nat] /\ is_Integral r
     /\ (forall s, dict_get s (_integrands r)
           = constructed ((fun f => ToyAlgebra.scale f (-1))
                            <$> dict_get s (_integrands Examples.int_f1_both)))
     /\ (forall c', ToyAlgebra.unit_reciprocal c' = Ok (-1) ->
           __truediv__ (FA := ToyAlgebra.algebra) Examples.int_f1_both c' = Ok r))
  /\ (forall c' e, ToyAlgebra.unit_reciprocal c' = Raise e ->
        __truediv__ (FA := ToyAlgebra.algebra) Examples.int_f1_both c' = Raise e).
Proof.
  apply (mul_scales_terms (FA := ToyAlgebra.algebra) Examples.int_f1_both (-1)).
  - by exists [(Toy.one_element, Examples.f1); (Toy.two_elements, Examples.f1)], [4%nat].
  - intros s f Hf. reflexivity.
Defined.

(** X8: the property [Integral.T] returns a well-formed Integral of the
    reversed shape whose terms are the transposed terms, as the
    constructor leaves them; transposing twice restores the shape. *)
Theorem transpose_reverses_shape `{FA : FunctionAlgebra} (a : t) :
  is_Integral a ->
  (forall f, fshape (simplified (transpose f)) = rev (fshape f)) ->
  exists b c, T a = Ok b
    /\ shape b = rev (shape a) /\ is_Integral b
    /\ (forall s, dict_get s (_integrands b)
          = constructed (transpose <$> dict_get s (_integrands a)))
    /\ T b = Ok c /\ shape c = shape a.
Proof.
  intros Ha Hshape. destruct (is_Integral_inv a Ha) as [Hnd Hterms].
  destruct (map_integrands_spec transpose (rev (shape a)) a Ha) as (b & Hb & Hsb & Hib & Hlook).
  { intros s f Hf. rewrite Hshape. f_equal.
    apply dict_get_elem in Hf; [|done]. by destruct (Hterms s f Hf). }
  destruct (is_Integral_inv b Hib) as [Hndb Htermsb].
  destruct (map_integrands_spec transpose (rev (shape b)) b Hib) as (c & Hc & Hsc & _).
  { intros s f Hf. rewrite Hshape. f_equal.
    apply dict_get_elem in Hf; [|done]. by destruct (Htermsb s f Hf). }
  exists b, c. unfold T. repeat split; try done.
  by rewrite Hsc, Hsb, rev_involutive.
Qed.

Lemma transpose_reverses_shape_witness :
  exists b c, T (FA := ToyAlgebra.algebra) Examples.int_f2 = Ok b
    /\ shape b = rev (shape Examples.int_f2) /\ is_Integral b
    /\ (forall s, dict_get s (_integrands b)
          = constructed (ToyAlgebra.transposed <$> dict_get s (_integrands Examples.int_f2)))
    /\ T (FA := ToyAlgebra.algebra) b = Ok c /\ shape c = shape Examples.int_f2.
Proof.
  apply (transpose_reverses_shape (FA := ToyAlgebra.algebra) Examples.int_f2).
  - by exists [(Toy.two_elements, Examples.f2)], [3; 3]%nat.
  - reflexivity.
Defined.

(** X21: the constructor of [Integral] keeps, for every Sample, the last
    integrand given for it, simplified, and drops it when it is identically
    zero; it raises [AssertionError] exactly when one of these integrands
    is not of the declared shape.  An earlier integrand of a Sample that is
    given again is not looked at. *)
Theorem init_keeps_last_integrand `{FC : FunctionCollaborator}
    (items : list (Sample * Func)) (shp : list nat) :
  ((forall k f, dict_get k (rev items) = Some f -> fshape (simplified f) = shp) ->
     exists c, __init__ items shp = Ok c /\ shape c = shp
       /\ NoDup (keys (_integrands c))
       /\ forall s, dict_get s (_integrands c) = constructed (dict_get s (rev items)))
  /\ ((exists k f, dict_get k (rev items) = Some f /\ fshape (simplified f) <> shp) ->
      exists msg, __init__ items shp = Raise (AssertionError msg)).
Proof.
  destruct (frozendict_from_spec simplified items [] (NoDup_nil_2)) as [Hnd Hget].
  fold (frozendict items) in Hnd, Hget. split.
  - intros Hall. rewrite init_ok.
    + eexists. split; [reflexivity|]. split; [done|]. split.
      * simpl. by apply keys_filter.
      * intros s. simpl. rewrite dict_get_filter_nonzero by done. rewrite Hget.
        by destruct (dict_get s (rev items)).
    + intros k f Hin. apply dict_get_elem in Hin; [|done]. rewrite Hget in Hin.
      destruct (dict_get k (rev items)) as [f0|] eqn:E; [|done].
      simpl in Hin. simplify_eq. by eapply Hall.
  - intros (k & f & Hk & Hbad). unfold __init__.
    destruct (forallb _ (frozendict items)) eqn:Hall; [|by eexists].
    exfalso. rewrite forallb_forall in Hall.
    assert (Hin : (k, simplified f) ∈ frozendict items).
    { apply dict_get_elem; [done|]. by rewrite Hget, Hk. }
    apply list_elem_of_In in Hin. specialize (Hall _ Hin). simpl in Hall.
    by apply bool_decide_eq_true_1 in Hall.
Qed.

Lemma init_keeps_last_integrand_witness :
  (exists c, __init__ (FC := Toy.functions)
               [(Toy.two_elements, Examples.f2); (Toy.two_elements, Examples.f1)] [4%nat] = Ok c
     /\ dict_get Toy.two_elements (_integrands c) = Some Examples.f1)
  /\ exists msg, __init__ (FC := Toy.functions)
                   [(Toy.two_elements, Examples.f1); (Toy.two_elements, Examples.f2)] [4%nat]
                 = Raise (AssertionError msg).
Proof.
  split.
  - destruct (proj1 (init_keeps_last_integrand (FC := Toy.functions)
                       [(Toy.two_elements, Examples.f2); (Toy.two_elements, Examples.f1)]
                       [4%nat])) as (c & Hc & _ & _ & Hget).
    + intros k f Hk. simpl in Hk. repeat case_decide; by simplify_eq.
    + exists c. split; [exact Hc|]. rewrite Hget. reflexivity.
  - apply (proj2 (init_keeps_last_integrand (FC := Toy.functions)
                    [(Toy.two_elements, Examples.f1); (Toy.two_elements, Examples.f2)]
                    [4%nat])).
    exists Toy.two_elements, Examples.f2. split; [reflexivity | discriminate].
Defined.

End integral_methods.

(** * Construction and point indices of a [Sample] *)

Module sample_indices.

Import SampleObject.

Lemma int64_wrap_small z : 0 <= z < 2 ^ 63 -> sparse.int64_wrap z = z.
Proof.
  intros Hz. unfold sparse.int64_wrap.
  rewrite Z.mod_small by lia. lia.
Qed.

Lemma cumsum_from_exact64 acc v :
  0 <= acc -> Forall (fun x => 0 <= x) v -> acc + zsum v < 2 ^ 63 ->
  length (cumsum_from acc v) = length v /\
  forall k, (k < length v)%nat ->
    cumsum_from acc v !! k = Some (acc + zsum (take (S k) v)).
Proof.
  intros Hacc Hv. revert acc Hacc.
  induction Hv as [|x v Hx Hv IH]; intros acc Hacc Hsum; simpl in *.
  - split; [done|]. intros; lia.
  - pose proof (zsum_nonneg v Hv) as Hnn.
    rewrite int64_wrap_small by lia.
    destruct (IH (acc + x) ltac:(lia) ltac:(lia)) as [Hl Hk].
    split; [by rewrite Hl|].
    intros [|k] Hlt; simpl.
    + f_equal. lia.
    + rewrite Hk by lia. f_equal. simpl. lia.
Qed.

Lemma getitem_nonneg {A} (a : list A) (k : nat) x :
  a !! k = Some x -> getitem a (Z.of_nat k) = Ok x.
Proof.
  intros Hk. pose proof (lookup_lt_Some _ _ _ Hk) as Hlt. unfold getitem.
  destruct (Z.of_nat k <? 0) eqn:E; [apply Z.ltb_lt in E; lia|].
  rewrite (proj2 (Z.leb_le _ _)) by lia. rewrite (proj2 (Z.ltb_lt _ _)) by lia.
  simpl. by rewrite Nat2Z.id, Hk.
Qed.

Lemma getitem_negative {A} (a : list A) (i : Z) :
  - Z.of_nat (length a) <= i < 0 -> getitem a i = getitem a (i + Z.of_nat (length a)).
Proof.
  intros Hi. unfold getitem.
  rewrite (proj2 (Z.ltb_lt i 0)) by lia.
  destruct (i + Z.of_nat (length a) <? 0) eqn:E; [apply Z.ltb_lt in E; lia|]. done.
Qed.

Lemma getitem_outside {A} (a : list A) (i : Z) :
  i < - Z.of_nat (length a) \/ Z.of_nat (length a) <= i -> getitem a i = Raise IndexError.
Proof.
  intros Hi. unfold getitem.
  destruct (i <? 0) eqn:E.
  - apply Z.ltb_lt in E. rewrite (proj2 (Z.leb_gt _ _)) by lia. done.
  - apply Z.ltb_ge in E. rewrite (proj2 (Z.leb_le _ _)) by lia.
    rewrite (proj2 (Z.ltb_ge _ _)) by lia. done.
Qed.

Lemma length_arange a b : length (arange a b) = Z.to_nat (b - a).
Proof. unfold arange. by rewrite length_map, length_seq. Qed.

Lemma arange_empty a b : b <= a -> arange a b = [].
Proof. intros H. unfold arange. replace (Z.to_nat (b - a)) with 0%nat by lia. done. Qed.

Lemma arange_app a b c : a <= b <= c -> arange a b ++ arange b c = arange a c.
Proof.
  intros H. unfold arange.
  replace (Z.to_nat (c - a)) with (Z.to_nat (b - a) + Z.to_nat (c - b))%nat by lia.
  rewrite seq_app, map_app. f_equal. simpl.
  apply list_eq. intros i. rewrite !list_lookup_fmap.
  destruct (decide (i < Z.to_nat (c - b))%nat).
  - rewrite !lookup_seq_lt by done. simpl. f_equal. lia.
  - rewrite !lookup_seq_ge by lia. done.
Qed.

Lemma lookup_arange a b (j : nat) :
  (j < Z.to_nat (b - a))%nat -> arange a b !! j = Some (a + Z.of_nat j).
Proof. intros H. unfold arange. rewrite list_lookup_fmap, lookup_seq_lt by done. done. Qed.

Lemma sequence_ok_map {A B} (f : A -> result B) (g : A -> B) l :
  (forall x, x ∈ l -> f x = Ok (g x)) -> sequence (map f l) = Ok (map g l).
Proof.
  induction l as [|x l IH]; intros H; simpl; [done|].
  rewrite (H x) by left. simpl. rewrite IH; [done|]. intros y Hy. apply H. by right.
Qed.

Section facts.

Context `{TC : TopologyCollaborator}.

Implicit Types (self : t).

Lemma new_default_inv transforms pts self :
  new transforms pts None = Ok self ->
  cls self = _DefaultIndex /\ points self = pts /\ SampleObject.transforms self = transforms
  /\ nelems self = length (point_counts pts).
Proof.
  unfold new, __init__.
  destruct (1 <=? length transforms)%nat; simpl; [|done].
  destruct (forallb _ transforms) eqn:Hall; simpl; [|done].
  destruct transforms as [|t0 ts]; [done|].
  intros [= <-]. simpl. repeat split.
  simpl in Hall. apply andb_true_iff in Hall as [H0 _].
  by apply Nat.eqb_eq in H0.
Qed.

Lemma offsets_exact self k :
  zsum (map Z.of_nat (point_counts (points self))) < 2 ^ 63 ->
  (k <= length (point_counts (points self)))%nat ->
  offsets self !! k = Some (zsum (take k (map Z.of_nat (point_counts (points self))))).
Proof.
  intros Hsum Hk. unfold offsets.
  set (cz := map Z.of_nat (point_counts (points self))) in *.
  assert (Hnn : Forall (fun x => 0 <= x) (0 :: cz)).
  { constructor; [done|]. apply Forall_map, Forall_forall. intros; simpl; lia. }
  destruct (cumsum_from_exact64 0 (0 :: cz) ltac:(done) Hnn) as [_ Hent].
  { simpl. lia. }
  rewrite Hent.
  - simpl. done.
  - simpl. unfold cz. rewrite length_map. lia.
Qed.

Lemma length_cumsum_from_acc acc v : length (cumsum_from acc v) = length v.
Proof. revert acc. induction v as [|x v IH]; intros acc; simpl; [done|]. by rewrite IH. Qed.

Lemma length_offsets self :
  length (offsets self) = S (length (point_counts (points self))).
Proof. unfold offsets. rewrite length_cumsum_from_acc. simpl. by rewrite length_map. Qed.

Lemma zsum_take_S_nat (counts : list nat) k n :
  counts !! k = Some n ->
  zsum (take (S k) (map Z.of_nat counts)) = zsum (take k (map Z.of_nat counts)) + Z.of_nat n.
Proof.
  intros Hk. apply sum_take_S. by rewrite list_lookup_fmap, Hk.
Qed.

Lemma zsum_take_le_nat (counts : list nat) k :
  0 <= zsum (take k (map Z.of_nat counts)) <= zsum (map Z.of_nat counts).
Proof.
  assert (Hnn : Forall (fun x => 0 <= x) (map Z.of_nat counts)).
  { apply Forall_map, Forall_forall. intros; simpl; lia. }
  split.
  - apply zsum_nonneg. by apply Forall_take.
  - by apply sum_take_le.
Qed.

(** [getindex] of the default index on an element in range. *)
Lemma getindex_default self k n :
  cls self = _DefaultIndex ->
  zsum (map Z.of_nat (point_counts (points self))) < 2 ^ 63 ->
  point_counts (points self) !! k = Some n ->
  getindex self (Z.of_nat k)
  = Ok (arange (zsum (take k (map Z.of_nat (point_counts (points self)))))
               (zsum (take k (map Z.of_nat (point_counts (points self)))) + Z.of_nat n)).
Proof.
  intros Hcls Hsum Hk. pose proof (lookup_lt_Some _ _ _ Hk) as Hlt.
  unfold getindex. rewrite Hcls.
  rewrite (getitem_nonneg _ k _ (offsets_exact self k Hsum ltac:(lia))). simpl.
  replace (Z.of_nat k + 1) with (Z.of_nat (S k)) by lia.
  rewrite (getitem_nonneg _ (S k) _ (offsets_exact self (S k) Hsum ltac:(lia))). simpl.
  by rewrite (zsum_take_S_nat _ k n Hk).
Qed.

Lemma concat_aranges (counts : list nat) :
  concat (imap (fun k n => arange (zsum (take k (map Z.of_nat counts)))
                                  (zsum (take k (map Z.of_nat counts)) + Z.of_nat n)) counts)
  = arange 0 (zsum (map Z.of_nat counts)).
Proof.
  induction counts as [|n counts IH] using rev_ind; [done|].
  rewrite imap_app, concat_app. simpl. rewrite app_nil_r.
  rewrite Nat.add_0_r.
  erewrite imap_ext; [rewrite IH|].
  - rewrite map_app, take_app_length' by (by rewrite length_map).
    rewrite zsum_app. simpl. rewrite Z.add_0_r.
    apply arange_app.
    pose proof (zsum_take_le_nat counts (length counts)) as H.
    rewrite firstn_all2 in H by (rewrite length_map; lia). lia.
  - intros k m Hk. simpl. rewrite map_app.
    rewrite take_app_le by (rewrite length_map; apply Nat.lt_le_incl; by eapply lookup_lt_Some).
    done.
Qed.

End facts.

Lemma default_index_enumerated `{TC : TopologyCollaborator} transforms self :
  new transforms (points self) None = Ok self ->
  zsum (map Z.of_nat (point_counts (points self))) < 2 ^ 63 ->
  exists idx,
    (forall k ix, idx !! k = Some ix ->
       getindex self (Z.of_nat k) = Ok ix
       /\ point_counts (points self) !! k = Some (length ix))
    /\ concat idx = arange 0 (zsum (map Z.of_nat (point_counts (points self)))).
Proof.
  intros Hnew Hsum.
  destruct (new_default_inv _ _ _ Hnew) as (Hcls & _ & _ & Hn).
  set (counts := point_counts (points self)) in *.
  exists (imap (fun k n => arange (zsum (take k (map Z.of_nat counts)))
                                  (zsum (take k (map Z.of_nat counts)) + Z.of_nat n)) counts).
  split; [|apply concat_aranges].
  intros k ix Hk. rewrite list_lookup_imap in Hk.
  destruct (counts !! k) as [n|] eqn:Hkn; [|done]. simpl in Hk. simplify_eq.
  split; [by apply getindex_default|].
  rewrite length_arange. f_equal. lia.
Qed.

(** X10: the default index of a [Sample] numbers its points
    consecutively, element after element: the index arrays of
    [Sample.index], one per element and as long as the element has points,
    concatenate to [0, 1, ..., npoints-1], every point number occurring
    once. *)
Theorem default_index_numbers_points `{TC : TopologyCollaborator} transforms pts self :
  new transforms pts None = Ok self ->
  zsum (map Z.of_nat (point_counts pts)) < 2 ^ 63 ->
  exists idx, index self = Ok idx
    /\ length idx = nelems self
    /\ (forall k ix, idx !! k = Some ix ->
          getindex self (Z.of_nat k) = Ok ix
          /\ point_counts pts !! k = Some (length ix))
    /\ concat idx = arange 0 (zsum (map Z.of_nat (point_counts pts))).
Proof.
  intros Hnew Hsum.
  destruct (new_default_inv _ _ _ Hnew) as (Hcls & Hpts & _ & Hn).
  subst pts.
  set (counts := point_counts (points self)) in *.
  set (g := fun k n => arange (zsum (take k (map Z.of_nat counts)))
                              (zsum (take k (map Z.of_nat counts)) + Z.of_nat n)).
  assert (Hidx : index self = Ok (imap g counts)).
  { unfold index. rewrite Hcls, Hn.
    rewrite (sequence_ok_map _ (fun k => g k (default 0%nat (counts !! k)))).
    - f_equal. apply list_eq. intros k.
      rewrite list_lookup_fmap, list_lookup_imap.
      destruct (counts !! k) as [n|] eqn:Hk.
      + rewrite lookup_seq_lt by (by eapply lookup_lt_Some). simpl. by rewrite Hk.
      + rewrite lookup_seq_ge by (by apply lookup_ge_None). done.
    - intros k Hk. apply elem_of_seq in Hk as [_ Hk]. simpl in Hk.
      destruct (lookup_lt_is_Some_2 counts k Hk) as [n Hkn]. rewrite Hkn. simpl.
      by apply getindex_default. }
  exists (imap g counts). split; [done|]. split; [by rewrite length_imap|]. split.
  - intros k ix Hk. rewrite list_lookup_imap in Hk.
    destruct (counts !! k) as [n|] eqn:Hkn; [|done]. simpl in Hk. simplify_eq.
    split; [by apply getindex_default|].
    unfold g. rewrite length_arange. f_equal. lia.
  - apply concat_aranges.
Qed.

Lemma default_index_numbers_points_witness :
  exists idx, index (TC := ToyTopology.topology)
                (mk (TC := ToyTopology.topology) _DefaultIndex 3 [(3, 2)%nat] [2; 0; 3]%nat 2) = Ok idx
    /\ length idx = 3%nat
    /\ (forall k ix, idx !! k = Some ix ->
          getindex (TC := ToyTopology.topology)
            (mk (TC := ToyTopology.topology) _DefaultIndex 3 [(3, 2)%nat] [2; 0; 3]%nat 2) (Z.of_nat k) = Ok ix
          /\ [2; 0; 3]%nat !! k = Some (length ix))
    /\ concat idx = [0; 1; 2; 3; 4].
Proof.
  apply (default_index_numbers_points (TC := ToyTopology.topology)
           [(3, 2)%nat] [2; 0; 3]%nat); [reflexivity | simpl; lia].
Defined.

(** X11: [getindex] of the default index outside the elements: an element
    number from [nelems] on, or below [-(nelems+1)], raises [IndexError]; a
    negative number [k] from [-(nelems+1)] to [-2] addresses element
    [nelems+1+k], one further than Python's convention for negative
    indices; [-1] yields the empty index. *)
Theorem default_getindex_outside `{TC : TopologyCollaborator} transforms pts self :
  new transforms pts None = Ok self ->
  (forall k, Z.of_nat (nelems self) <= k \/ k < - (Z.of_nat (nelems self) + 1) ->
     getindex self k = Raise IndexError)
  /\ (forall k, - (Z.of_nat (nelems self) + 1) <= k <= -2 ->
        getindex self k = getindex self (k + Z.of_nat (nelems self) + 1))
  /\ (zsum (map Z.of_nat (point_counts pts)) < 2 ^ 63 -> getindex self (-1) = Ok []).
Proof.
  intros Hnew.
  destruct (new_default_inv _ _ _ Hnew) as (Hcls & Hpts & _ & Hn).
  subst pts.
  pose proof (length_offsets self) as Hlo.
  unfold getindex. rewrite Hcls.
  split; [|split].
  - intros k [Hk|Hk].
    + destruct (decide (k = Z.of_nat (nelems self))) as [->|Hne].
      * destruct (lookup_lt_is_Some_2 (offsets self) (nelems self)) as [x Hx]; [lia|].
        rewrite (getitem_nonneg _ _ _ Hx). simpl.
        rewrite getitem_outside by lia. done.
      * rewrite getitem_outside by lia. done.
    + rewrite getitem_outside by lia. done.
  - intros k Hk.
    rewrite (getitem_negative (offsets self) k) by lia.
    rewrite (getitem_negative (offsets self) (k + 1)) by lia.
    rewrite Hlo, Hn.
    replace (k + Z.of_nat (S (length (point_counts (points self)))))
      with (k + Z.of_nat (length (point_counts (points self))) + 1) by lia.
    replace (k + 1 + Z.of_nat (S (length (point_counts (points self)))))
      with (k + Z.of_nat (length (point_counts (points self))) + 1 + 1) by lia.
    done.
  - intros Hsum.
    rewrite (getitem_negative (offsets self) (-1)) by lia.
    replace (-1 + Z.of_nat (length (offsets self)))
      with (Z.of_nat (length (point_counts (points self)))) by lia.
    rewrite (getitem_nonneg _ _ _ (offsets_exact self _ Hsum (le_n _))). simpl.
    change (sparse.int64_wrap (0 + 0)) with 0.
    rewrite arange_empty; [done|].
    apply zsum_take_le_nat.
Qed.

Lemma default_getindex_outside_witness :
  (forall k, Z.of_nat 3 <= k \/ k < - (Z.of_nat 3 + 1) ->
     getindex (TC := ToyTopology.topology)
       (mk (TC := ToyTopology.topology) _DefaultIndex 3 [(3, 2)%nat] [2; 0; 3]%nat 2) k = Raise IndexError)
  /\ (forall k, - (Z.of_nat 3 + 1) <= k <= -2 ->
        getindex (TC := ToyTopology.topology)
          (mk (TC := ToyTopology.topology) _DefaultIndex 3 [(3, 2)%nat] [2; 0; 3]%nat 2) k
        = getindex (TC := ToyTopology.topology)
            (mk (TC := ToyTopology.topology) _DefaultIndex 3 [(3, 2)%nat] [2; 0; 3]%nat 2) (k + Z.of_nat 3 + 1))
  /\ (zsum (map Z.of_nat [2; 0; 3]%nat) < 2 ^ 63 ->
      getindex (TC := ToyTopology.topology)
        (mk (TC := ToyTopology.topology) _DefaultIndex 3 [(3, 2)%nat] [2; 0; 3]%nat 2) (-1) = Ok []).
Proof.
  apply (default_getindex_outside (TC := ToyTopology.topology)
           [(3, 2)%nat] [2; 0; 3]%nat
           (mk (TC := ToyTopology.topology) _DefaultIndex 3 [(3, 2)%nat] [2; 0; 3]%nat 2)).
  reflexivity.
Defined.

(** X12: a [Sample] with a custom index is only built from an index
    that has one array per element, each as long as its element has
    points: an index of another length is refused with a [ValueError]
    naming both lengths, before the transformation chains are looked at.
    On the Sample built, [index] is the given index and [getindex] returns
    its arrays. *)
Theorem custom_index_is_checked `{TC : TopologyCollaborator} transforms pts idx :
  (length idx <> length (point_counts pts) ->
     new transforms pts (Some idx)
     = Raise (ValueError ("expected an `index` with " +:+ decimal (length (point_counts pts))
                          +:+ " items but got " +:+ decimal (length idx))))
  /\ (forall self, new transforms pts (Some idx) = Ok self ->
        cls self = _CustomIndex idx
        /\ nelems self = length idx
        /\ index self = Ok idx
        /\ forall k ix, idx !! k = Some ix ->
             getindex self (Z.of_nat k) = Ok ix
             /\ point_counts pts !! k = Some (length ix)).
Proof.
  unfold new, _CustomIndex__init__, npointsets. split.
  - intros Hne. apply Nat.eqb_neq in Hne. by rewrite Hne.
  - intros self.
    destruct (length idx =? length (point_counts pts))%nat eqn:Hlen; simpl; [|done].
    apply Nat.eqb_eq in Hlen.
    destruct (forallb _ (zip idx (point_counts pts))) eqn:Hall; simpl; [|done].
    unfold __init__, npointsets.
    destruct (1 <=? length transforms)%nat; simpl; [|done].
    destruct (forallb _ transforms) eqn:Hts; simpl; [|done].
    destruct transforms as [|t0 ts]; [done|].
    intros [= <-]. simpl.
    simpl in Hts. apply andb_true_iff in Hts as [H0 _]. apply Nat.eqb_eq in H0.
    split; [done|]. split; [lia|]. split; [done|].
    intros k ix Hk. split.
    + unfold getindex. simpl. by apply getitem_nonneg.
    + destruct (lookup_lt_is_Some_2 (point_counts pts) k) as [n Hn].
      { rewrite <- Hlen. by eapply lookup_lt_Some. }
      rewrite Hn. f_equal.
      rewrite forallb_forall in Hall.
      assert (Hin : In (ix, n) (zip idx (point_counts pts))).
      { apply list_elem_of_In, list_elem_of_lookup. exists k.
        by rewrite lookup_zip_with, Hk, Hn. }
      specialize (Hall _ Hin). simpl in Hall. apply Nat.eqb_eq in Hall. done.
Qed.

Lemma custom_index_is_checked_witness :
  new (TC := ToyTopology.topology) [(2, 1)%nat] [2; 1]%nat (Some [[5; 3]])
  = Raise (ValueError "expected an `index` with 2 items but got 1")
  /\ exists self,
       new (TC := ToyTopology.topology) [(2, 1)%nat] [2; 1]%nat (Some [[5; 3]; [0]]) = Ok self
       /\ index self = Ok [[5; 3]; [0]]
       /\ getindex self 1 = Ok [0].
Proof.
  split.
  - apply (proj1 (custom_index_is_checked (TC := ToyTopology.topology)
                    [(2, 1)%nat] [2; 1]%nat [[5; 3]])).
    simpl. lia.
  - eexists. split; [reflexivity|].
    destruct (proj2 (custom_index_is_checked (TC := ToyTopology.topology)
                       [(2, 1)%nat] [2; 1]%nat [[5; 3]; [0]]) _ eq_refl)
      as (_ & _ & Hidx & Hget).
    split; [exact Hidx|]. exact (proj1 (Hget 1%nat [0] eq_refl)).
Defined.

Lemma mask_any_true mask ix b j :
  mask_any mask ix = Ok b -> j ∈ ix -> getitem mask j = Ok true -> b = true.
Proof.
  unfold mask_any. revert b. induction ix as [|i ix IH]; intros b Hb Hj Hm.
  - by apply not_elem_of_nil in Hj.
  - simpl in Hb. destruct (getitem mask i) as [m|] eqn:Hi; simpl in Hb; [|done].
    destruct (sequence (map (getitem mask) ix)) as [ms|] eqn:Hs; simpl in Hb; [|done].
    injection Hb as <-. simpl.
    apply elem_of_cons in Hj as [->|Hj].
    + rewrite Hi in Hm. injection Hm as ->. done.
    + rewrite (IH (existsb id ms) eq_refl Hj Hm). by destruct m.
Qed.

Lemma selection_loop `{TC : TopologyCollaborator} (self : t) mask es acc sel :
  NoDup es ->
  Py.for_each
    (fun selected ielem =>
       Py.bind (getindex self (Z.of_nat ielem)) (fun indices =>
       Py.bind (mask_any mask indices) (fun marked =>
       Ok (if marked then selected ++ [Z.of_nat ielem] else selected))))
    es acc = Ok sel ->
  exists marked, sel = acc ++ map Z.of_nat marked /\ marked `sublist_of` es
    /\ forall e, e ∈ es ->
         exists ix b, getindex self (Z.of_nat e) = Ok ix /\ mask_any mask ix = Ok b
           /\ (e ∈ marked <-> b = true).
Proof.
  revert acc. induction es as [|e es IH]; intros acc Hnd Hrun; simpl in Hrun.
  - injection Hrun as <-. exists []. split; [by rewrite app_nil_r|]. split; [done|].
    intros e He. by apply not_elem_of_nil in He.
  - apply NoDup_cons in Hnd as [Hne Hnd].
    destruct (getindex self (Z.of_nat e)) as [ix|] eqn:Hix; simpl in Hrun; [|done].
    destruct (mask_any mask ix) as [b|] eqn:Hb; simpl in Hrun; [|done].
    destruct (IH _ Hnd Hrun) as (marked & -> & Hsub & Hall).
    exists (if b then e :: marked else marked). split; [|split].
    + destruct b; [|done]. by rewrite <- app_assoc.
    + destruct b; [by apply sublist_skip | by apply sublist_cons].
    + intros e' He'. apply elem_of_cons in He' as [->|He'].
      * exists ix, b. split; [done|]. split; [done|].
        destruct b; split; try done.
        -- intros _. left.
        -- intros Hin. exfalso. apply Hne. by eapply elem_of_sublist.
      * destruct (Hall e' He') as (ix' & b' & H1 & H2 & H3).
        exists ix', b'. split; [done|]. split; [done|].
        rewrite <- H3. destruct b; [|done].
        rewrite elem_of_cons. split; [|by right].
        intros [->|?]; [done|done].
Qed.

(** X13: [Sample.subset] selects, in increasing order, exactly the
    elements that hold a marked point, and rebuilds the Sample without an
    index, so that the subset of a custom-index Sample has the default
    index.  On a default-index Sample every marked point lies in a selected
    element: no marked point is dropped. *)
Theorem subset_keeps_marked_points `{TC : TopologyCollaborator} (self : t) (mask : list bool) :
  (forall sel, selection self mask = Ok sel ->
     exists marked, sel = map Z.of_nat marked
       /\ marked `sublist_of` seq 0 (nelems self)
       /\ forall e, (e < nelems self)%nat ->
            exists ix b, getindex self (Z.of_nat e) = Ok ix /\ mask_any mask ix = Ok b
              /\ (e ∈ marked <-> b = true))
  /\ (forall s', subset self mask = Ok s' -> cls s' = _DefaultIndex)
  /\ (forall transforms sel j,
        new transforms (points self) None = Ok self ->
        zsum (map Z.of_nat (point_counts (points self))) < 2 ^ 63 ->
        selection self mask = Ok sel -> mask !! j = Some true ->
        Z.of_nat j < zsum (map Z.of_nat (point_counts (points self))) ->
        exists e ix, Z.of_nat e ∈ sel /\ getindex self (Z.of_nat e) = Ok ix
          /\ Z.of_nat j ∈ ix).
Proof.
  assert (Hsel : forall sel, selection self mask = Ok sel ->
     exists marked, sel = map Z.of_nat marked
       /\ marked `sublist_of` seq 0 (nelems self)
       /\ forall e, (e < nelems self)%nat ->
            exists ix b, getindex self (Z.of_nat e) = Ok ix /\ mask_any mask ix = Ok b
              /\ (e ∈ marked <-> b = true)).
  { intros sel Hrun. unfold selection in Hrun.
    destruct (selection_loop self mask _ _ _ (NoDup_seq _ _) Hrun) as (marked & -> & Hsub & Hall).
    exists marked. split; [done|]. split; [done|].
    intros e He. apply Hall. apply elem_of_seq. lia. }
  split; [done|]. split.
  - intros s' Hs'. unfold subset in Hs'.
    destruct (selection self mask) as [sel|]; simpl in Hs'; [|done].
    destruct (sequence _) as [ts|]; simpl in Hs'; [|done].
    destruct (ptake (points self) sel) as [ps|]; simpl in Hs'; [|done].
    by destruct (new_default_inv _ _ _ Hs').
  - intros transforms sel j Hnew Hsum Hrun Hj Hlt.
    destruct (default_index_enumerated transforms self Hnew Hsum) as (idx & Hidx & Hcat).
    assert (Hin : Z.of_nat j ∈ concat idx).
    { rewrite Hcat. apply list_elem_of_lookup. exists j.
      rewrite lookup_arange by lia. done. }
    apply list_elem_of_In, in_concat in Hin as (ix & Hix & Hjix).
    apply list_elem_of_In in Hix. apply list_elem_of_In in Hjix.
    apply list_elem_of_lookup in Hix as [e He].
    destruct (Hidx e ix He) as [Hget He'].
    destruct (Hsel sel Hrun) as (marked & -> & _ & Hall).
    destruct (Hall e) as (ix' & b & Hget' & Hb & Hiff).
    { destruct (new_default_inv _ _ _ Hnew) as (_ & _ & _ & ->). by eapply lookup_lt_Some. }
    rewrite Hget in Hget'. injection Hget' as <-.
    exists e, ix. split; [|done].
    apply list_elem_of_fmap. exists e. split; [done|].
    apply Hiff. eapply mask_any_true; [exact Hb | exact Hjix |].
    by apply getitem_nonneg.
Qed.

End sample_indices.

(** * The command line interface *)

Module cli_facts.

Import cli.

Lemma length_le_width (lines : list str) line :
  line ∈ lines -> (length line <= foldr Nat.max 0 (map length lines))%nat.
Proof.
  induction lines as [|l lines IH]; intros Hin; [by apply not_elem_of_nil in Hin|].
  simpl. apply elem_of_cons in Hin as [->|Hin]; [lia|]. specialize (IH Hin). lia.
Qed.

Lemma length_ljust w s : length (ljust w s) = Nat.max (length s) w.
Proof. unfold ljust. rewrite length_app, length_replicate. lia. Qed.

Lemma mkbox_nonempty (lines : list str) (richoutput : bool) :
  lines <> [] ->
  _mkbox lines richoutput
  = let width := foldr Nat.max 0%nat (map length lines) in
    let '(ul, ur, ll, lr, hh, vv) := frame richoutput in
    Returns (join [10%N]
               ([[ul] ++ replicate (width + 2) hh ++ [ur]]
                ++ map (fun line => [vv] ++ ljust (width + 2) (32%N :: line) ++ [vv]) lines
                ++ [[ll] ++ replicate (width + 2) hh ++ [lr]])).
Proof. by destruct lines. Qed.

(** X14: [_mkbox] draws a rectangle: one row per line between a top and
    a bottom row, all rows of the same length, four more than the longest
    line; a row holds its line after one space, padded with at least one
    space, between two vertical bars.  Without lines it raises
    [ValueError]. *)
Theorem mkbox_is_rectangular (lines : list str) (richoutput : bool) :
  _mkbox [] richoutput = Raises ValueError
  /\ (lines <> [] ->
      exists rows,
        _mkbox lines richoutput = Returns (join [10%N] rows)
        /\ length rows = (length lines + 2)%nat
        /\ Forall (fun row => length row = (foldr Nat.max 0 (map length lines) + 4)%nat) rows
        /\ forall i line, lines !! i = Some line ->
             exists pad, (1 <= pad)%nat
               /\ rows !! S i
                  = Some ([snd (frame richoutput); 32%N] ++ line
                          ++ replicate pad 32%N ++ [snd (frame richoutput)])).
Proof.
  split; [done|]. intros Hne.
  rewrite (mkbox_nonempty lines richoutput Hne). cbv zeta.
  set (width := foldr Nat.max 0%nat (map length lines)).
  destruct (frame richoutput) as [[[[[ul ur] ll] lr] hh] vv] eqn:Ef. cbn [snd].
  eexists. split; [reflexivity|]. split; [|split].
  - rewrite !length_app, length_map. simpl. unfold str in *. lia.
  - apply Forall_app. split; [|apply Forall_app; split].
    + repeat constructor. rewrite !length_app, length_replicate. simpl. lia.
    + apply Forall_map, Forall_forall. intros line Hin. cbv beta.
      rewrite !length_app, length_ljust. simpl.
      pose proof (length_le_width lines line Hin) as Hw. fold width in Hw.
      unfold str in *. lia.
    + repeat constructor. rewrite !length_app, length_replicate. simpl. lia.
  - intros i line Hi.
    assert (Hw : (length line <= width)%nat).
    { apply length_le_width. apply list_elem_of_lookup. by exists i. }
    exists (width + 2 - S (length line))%nat. split; [unfold str in *; lia|].
    change (([[ul] ++ replicate (width + 2) hh ++ [ur]] ++ ?r) !! S i) with (r !! i).
    rewrite lookup_app_l by (rewrite length_map; by eapply lookup_lt_Some).
    unfold str in *. rewrite list_lookup_fmap, Hi. simpl. unfold ljust. simpl.
    by rewrite <- app_assoc.
Qed.

Lemma mkbox_is_rectangular_witness :
  exists rows,
    _mkbox [lit "ab"; lit "c"] false = Returns (join [10%N] rows)
    /\ length rows = 4%nat
    /\ Forall (fun row => length row = 6%nat) rows
    /\ forall i line, [lit "ab"; lit "c"] !! i = Some line ->
         exists pad, (1 <= pad)%nat
           /\ rows !! S i = Some ([124%N; 32%N] ++ line ++ replicate pad 32%N ++ [124%N]).
Proof.
  apply (proj2 (mkbox_is_rectangular [lit "ab"; lit "c"] false)). discriminate.
Defined.

Lemma format_02d_below_60 (n : Z) :
  0 <= n < 60 ->
  format_02d n = [(48 + Z.to_N (n / 10))%N; (48 + Z.to_N (n mod 10))%N].
Proof.
  intros Hn.
  assert (H : forall k : nat, (k < 60)%nat ->
            format_02d (Z.of_nat k)
            = [(48 + Z.to_N (Z.of_nat k / 10))%N; (48 + Z.to_N (Z.of_nat k mod 10))%N]).
  { intros k Hk. do 60 (destruct k as [|k]; [vm_compute; reflexivity|]). lia. }
  rewrite <- (Z2Nat.id n) by lia. apply H. lia.
Qed.

(** X15: a [_timer] prints the whole seconds since its construction as
    [H:MM:SS]: minutes and seconds below 60 and written with two digits,
    the hours in full, the three parts adding up to the elapsed
    seconds. *)
Theorem timer_shows_h_mm_ss (seconds : Z) :
  0 <= seconds ->
  exists h m s,
    0 <= h /\ 0 <= m < 60 /\ 0 <= s < 60 /\ seconds = 3600 * h + 60 * m + s
    /\ _timer__str__ seconds
       = str_of_int h
         ++ [58%N; (48 + Z.to_N (m / 10))%N; (48 + Z.to_N (m mod 10))%N;
             58%N; (48 + Z.to_N (s / 10))%N; (48 + Z.to_N (s mod 10))%N].
Proof.
  intros Hs.
  exists (seconds / 60 / 60), (seconds / 60 mod 60), (seconds mod 60).
  pose proof (Z.mod_pos_bound seconds 60 ltac:(lia)) as Hsec.
  pose proof (Z.mod_pos_bound (seconds / 60) 60 ltac:(lia)) as Hmin.
  pose proof (Z.div_mod seconds 60 ltac:(lia)) as E1.
  pose proof (Z.div_mod (seconds / 60) 60 ltac:(lia)) as E2.
  assert (0 <= seconds / 60) by (apply Z.div_pos; lia).
  assert (0 <= seconds / 60 / 60) by (apply Z.div_pos; lia).
  split; [done|]. split; [done|]. split; [done|]. split; [lia|].
  unfold _timer__str__. cbv zeta.
  rewrite !format_02d_below_60 by done. reflexivity.
Qed.

Lemma timer_shows_h_mm_ss_witness :
  exists h m s,
    0 <= h /\ 0 <= m < 60 /\ 0 <= s < 60 /\ 3725 = 3600 * h + 60 * m + s
    /\ _timer__str__ 3725
       = str_of_int h
         ++ [58%N; (48 + Z.to_N (m / 10))%N; (48 + Z.to_N (m mod 10))%N;
             58%N; (48 + Z.to_N (s / 10))%N; (48 + Z.to_N (s mod 10))%N].
Proof. apply (timer_shows_h_mm_ss 3725). lia. Defined.

Lemma lstrip_dashes c k s : lstrip c (replicate k c ++ s) = lstrip c s.
Proof. induction k as [|k IH]; simpl; [done|]. by rewrite decide_True. Qed.

Lemma lstrip_app c a x b : x <> c -> lstrip c (a ++ x :: b) = lstrip c a ++ x :: b.
Proof.
  intros Hx. induction a as [|y a IH]; simpl.
  - by rewrite decide_False.
  - destruct (decide (y = c)); [done|done].
Qed.

Lemma partition_without sep (s : str) : sep ∉ s -> partition sep s = (s, [], []).
Proof.
  induction s as [|x s IH]; intros Hs; simpl; [done|].
  rewrite decide_False by (intros ->; apply Hs; left).
  rewrite IH; [done|]. intros Hin. apply Hs. by right.
Qed.

Lemma partition_at sep (a b : str) : sep ∉ a -> partition sep (a ++ sep :: b) = (a, [sep], b).
Proof.
  induction a as [|x a IH]; intros Ha; simpl.
  - by rewrite decide_True.
  - rewrite decide_False by (intros ->; apply Ha; left).
    rewrite IH; [done|]. intros Hin. apply Ha. by right.
Qed.

Lemma parse_assignment (repr : str -> str) (Annotation : Type) (types : dict Annotation)
    (strargs : dict str) (k : nat) (name value : str) (w : world) :
  lstrip 45%N name = name -> 61%N ∉ name ->
  parse_arg repr Annotation types strargs (replicate k 45%N ++ name ++ 61%N :: value) w
  = (Returns (dict_set name value strargs), w).
Proof.
  intros Hstrip Heq. unfold parse_arg.
  rewrite lstrip_dashes, lstrip_app, Hstrip by done.
  by rewrite partition_at.
Qed.

(** One turn of the loop over the arguments, in its four cases. *)
Lemma parse_arg_forms (repr : str -> str) (Annotation : Type) (types : dict Annotation)
    (strargs : dict str) (k : nat) (name value : str) (w : world) :
  lstrip 45%N name = name -> 61%N ∉ name ->
  parse_arg repr Annotation types strargs (replicate k 45%N ++ name ++ 61%N :: value) w
  = (Returns (dict_set name value strargs), w)
  /\ (contains name types = true ->
      parse_arg repr Annotation types strargs (replicate k 45%N ++ name) w
      = (Returns (dict_set name (lit "yes") strargs), w))
  /\ (contains name types = true -> contains (lit "no" ++ name) types = false ->
      parse_arg repr Annotation types strargs (replicate k 45%N ++ lit "no" ++ name) w
      = (Returns (dict_set name (lit "no") strargs), w))
  /\ (contains name types = false ->
      startswith (lit "no") name && contains (drop 2 name) types = false ->
      parse_arg repr Annotation types strargs (replicate k 45%N ++ name) w
      = (Raises (SystemExit (Status 2)),
         mk_world (handlers w) (stdin w)
           (log w ++ [Printed (lit "argument " ++ repr name ++ lit " requires a value")]))).
Proof.
  intros Hstrip Heq. split; [by apply parse_assignment|].
  unfold parse_arg. split; [|split].
  - intros Hknown. rewrite lstrip_dashes, Hstrip, partition_without by done.
    by rewrite Hknown.
  - intros Hknown Hno. rewrite lstrip_dashes.
    change (lstrip 45%N (lit "no" ++ name)) with (lit "no" ++ name).
    rewrite partition_without.
    + rewrite Hno. change (startswith (lit "no") (lit "no" ++ name)) with true.
      change (drop 2 (lit "no" ++ name)) with name. by rewrite Hknown.
    + intros Hin. apply elem_of_app in Hin as [Hin|Hin]; [|done].
      vm_compute in Hin. repeat (apply elem_of_cons in Hin as [Hin|Hin]; [done|]).
      by apply not_elem_of_nil in Hin.
  - intros Hunknown Hnot. rewrite lstrip_dashes, Hstrip, partition_without by done.
    rewrite Hunknown, Hnot. reflexivity.
Qed.

Lemma for_each_last {A St} (body : St -> A -> M St) xs x acc w :
  for_each body (xs ++ [x]) acc w
  = match for_each body xs acc w with
    | (Returns s, w1) => body s x w1
    | (Raises e, w1) => (Raises e, w1)
    end.
Proof.
  revert acc w. induction xs as [|y xs IH]; intros acc w; simpl.
  - unfold bind, ret. by destruct (body acc x w) as [[s|e] w1].
  - unfold bind. destruct (body acc y w) as [[s|e] w1]; [apply IH | done].
Qed.

Lemma no_help_read repr Annotation usage defaults presets (types : dict Annotation)
    args strargs w w' :
  run_strargs repr Annotation usage defaults presets types args w = (Returns strargs, w') ->
  (lit "-h" ∉ args) /\ (lit "--help" ∉ args).
Proof.
  unfold run_strargs. intros Hread.
  destruct (bool_decide (lit "-h" ∈ args)) eqn:Eh; [done|].
  destruct (bool_decide (lit "--help" ∈ args)) eqn:Ehelp; [done|].
  split; [by apply bool_decide_eq_false_1 in Eh | by apply bool_decide_eq_false_1 in Ehelp].
Qed.

Lemma run_strargs_last repr Annotation usage defaults presets (types : dict Annotation)
    args arg strargs w w' :
  arg <> lit "-h" -> arg <> lit "--help" ->
  (args = [] -> dict_get arg presets = None) ->
  run_strargs repr Annotation usage defaults presets types args w = (Returns strargs, w') ->
  run_strargs repr Annotation usage defaults presets types (args ++ [arg]) w
  = parse_arg repr Annotation types strargs arg w'.
Proof.
  intros Hh Hhelp Hfirst Hread.
  destruct (no_help_read _ _ _ _ _ _ _ _ _ _ Hread) as [Hnh Hnhelp].
  unfold run_strargs in *.
  rewrite (bool_decide_eq_false_2 (lit "-h" ∈ args)) in Hread by done.
  rewrite (bool_decide_eq_false_2 (lit "--help" ∈ args)) in Hread by done.
  rewrite (bool_decide_eq_false_2 (lit "-h" ∈ args ++ [arg])).
  2:{ intros Hin. apply elem_of_app in Hin as [Hin|Hin]; [done|].
      apply list_elem_of_singleton in Hin. by subst. }
  rewrite (bool_decide_eq_false_2 (lit "--help" ∈ args ++ [arg])).
  2:{ intros Hin. apply elem_of_app in Hin as [Hin|Hin]; [done|].
      apply list_elem_of_singleton in Hin. by subst. }
  cbn [orb] in *. unfold collect_strargs in *.
  destruct args as [|first rest].
  - cbn [app]. rewrite Hfirst by done. unfold ret in Hread. injection Hread as <- <-.
    simpl. unfold bind, ret.
    by destruct (parse_arg repr Annotation types defaults arg w) as [[s|e] w1].
  - cbn [app]. destruct (dict_get first presets) as [preset|].
    + rewrite for_each_last, Hread. done.
    + rewrite app_comm_cons, for_each_last, Hread. done.
Qed.

Lemma not_help_assignment k (name value : str) :
  replicate k 45%N ++ name ++ 61%N :: value <> lit "-h"
  /\ replicate k 45%N ++ name ++ 61%N :: value <> lit "--help".
Proof.
  assert (Hin : 61%N ∈ replicate k 45%N ++ name ++ 61%N :: value).
  { apply elem_of_app. right. apply elem_of_app. right. by left. }
  split; intros Heq; rewrite Heq in Hin; vm_compute in Hin;
    repeat (apply elem_of_cons in Hin as [Hin|Hin]; [done|]);
    by apply not_elem_of_nil in Hin.
Qed.

Lemma not_help_negation k (name : str) :
  replicate k 45%N ++ lit "no" ++ name <> lit "-h"
  /\ replicate k 45%N ++ lit "no" ++ name <> lit "--help".
Proof. split; by destruct k as [|[|[|k]]]. Qed.

(** X16: how [run] reads its command line.  A command line that holds
    [-h] or [--help] anywhere prints the usage and ends the program with
    status 1.  On any other, reading one more argument (that is not a
    preset name in first place) goes as follows.  Leading dashes, in any
    number, are ignored.  [name=value] assigns the value, which may itself
    hold equals signs, to any name.  A bare [name] of a known parameter
    stands for [name=yes], and [noname] for [name=no] unless [noname] is
    itself a parameter.  Any other bare word is reported and ends the
    program with status 2. *)
Theorem flags_are_sugar (repr : str -> str) (Annotation : Type) (usage : str)
    (defaults : dict str) (presets : dict (dict str)) (types : dict Annotation)
    (args : list str) (strargs : dict str) (k : nat) (name value : str) (w w' : world) :
  lstrip 45%N name = name -> 61%N ∉ name ->
  run_strargs repr Annotation usage defaults presets types args w = (Returns strargs, w') ->
  let read arg := run_strargs repr Annotation usage defaults presets types (args ++ [arg]) w in
  let later arg := args = [] -> dict_get arg presets = None in
  let flag := replicate k 45%N ++ name in
  (forall args', lit "-h" ∈ args' \/ lit "--help" ∈ args' ->
     run_strargs repr Annotation usage defaults presets types args' w
     = (Raises (SystemExit (Status 1)),
        mk_world (handlers w) (stdin w) (log w ++ [Printed usage])))
  /\ (later (flag ++ 61%N :: value) ->
      read (flag ++ 61%N :: value) = (Returns (dict_set name value strargs), w'))
  /\ (flag <> lit "-h" -> flag <> lit "--help" -> later flag ->
      contains name types = true ->
      read flag = (Returns (dict_set name (lit "yes") strargs), w'))
  /\ (later (replicate k 45%N ++ lit "no" ++ name) ->
      contains name types = true -> contains (lit "no" ++ name) types = false ->
      read (replicate k 45%N ++ lit "no" ++ name)
      = (Returns (dict_set name (lit "no") strargs), w'))
  /\ (flag <> lit "-h" -> flag <> lit "--help" -> later flag ->
      contains name types = false ->
      startswith (lit "no") name && contains (drop 2 name) types = false ->
      read flag
      = (Raises (SystemExit (Status 2)),
         mk_world (handlers w') (stdin w')
           (log w' ++ [Printed (lit "argument " ++ repr name ++ lit " requires a value")]))).
Proof.
  intros Hstrip Heq Hread read later flag.
  destruct (parse_arg_forms repr Annotation types strargs k name value w' Hstrip Heq)
    as (Hassign & Hyes & Hno & Hbad).
  split; [|split; [|split; [|split]]].
  - intros args' Hhelp. unfold run_strargs.
    destruct Hhelp as [Hin|Hin]; rewrite (bool_decide_eq_true_2 _ Hin);
      [|rewrite orb_true_r]; reflexivity.
  - intros Hlater. subst read flag. cbv beta. rewrite <- app_assoc in *.
    destruct (not_help_assignment k name value) as [H1 H2].
    rewrite (run_strargs_last _ _ _ _ _ _ _ _ _ _ _ H1 H2 Hlater Hread). exact Hassign.
  - intros H1 H2 Hlater Hknown. subst read. cbv beta.
    rewrite (run_strargs_last _ _ _ _ _ _ _ _ _ _ _ H1 H2 Hlater Hread). by apply Hyes.
  - intros Hlater Hknown Hnone. subst read. cbv beta.
    destruct (not_help_negation k name) as [H1 H2].
    rewrite (run_strargs_last _ _ _ _ _ _ _ _ _ _ _ H1 H2 Hlater Hread). by apply Hno.
  - intros H1 H2 Hlater Hunknown Hnot. subst read. cbv beta.
    rewrite (run_strargs_last _ _ _ _ _ _ _ _ _ _ _ H1 H2 Hlater Hread). by apply Hbad.
Qed.

Lemma flags_are_sugar_witness :
  let w := mk_world (fun _ => SIG_DFL) [] [] in
  let read := run_strargs (fun s => s) unit (lit "USAGE: prog") [] [] [(lit "verbose", tt)] in
  read [lit "n=3"; lit "--verbose=4=x"] w
  = (Returns [(lit "n", lit "3"); (lit "verbose", lit "4=x")], w)
  /\ read [lit "n=3"; lit "--verbose"] w
     = (Returns [(lit "n", lit "3"); (lit "verbose", lit "yes")], w)
  /\ read [lit "n=3"; lit "--noverbose"] w
     = (Returns [(lit "n", lit "3"); (lit "verbose", lit "no")], w)
  /\ read [lit "n=3"; lit "--help"] w
     = (Raises (SystemExit (Status 1)),
        mk_world (fun _ => SIG_DFL) [] [Printed (lit "USAGE: prog")]).
Proof.
  intros w read.
  destruct (flags_are_sugar (fun s => s) unit (lit "USAGE: prog") [] [] [(lit "verbose", tt)]
              [lit "n=3"] [(lit "n", lit "3")] 2 (lit "verbose") (lit "4=x") w w)
    as (Hhelp & Hassign & Hyes & Hno & _).
  - reflexivity.
  - vm_compute. intros Hin.
    repeat (apply elem_of_cons in Hin as [Hin|Hin]; [done|]).
    by apply not_elem_of_nil in Hin.
  - reflexivity.
  - split; [|split; [|split]].
    + apply Hassign. discriminate.
    + apply Hyes; [discriminate | discriminate | discriminate | reflexivity].
    + apply Hno; [discriminate | reflexivity | reflexivity].
    + apply (Hhelp [lit "n=3"; lit "--help"]). right. apply elem_of_cons. right. by left.
Defined.

Lemma ask_decisive junk a rest asked :
  Forall (fun x => ~ (x = lit "q" \/ x = lit "c" \/ x = lit "d")) junk ->
  a = lit "q" \/ a = lit "c" \/ a = lit "d" ->
  ask (junk ++ a :: rest) asked
  = (if decide (a = lit "q") then Raises KeyboardInterrupt else Returns a, rest,
     asked ++ replicate (S (length junk)) (Prompted question)).
Proof.
  intros Hjunk Ha. revert asked. induction Hjunk as [|x junk Hx _ IH]; intros asked; simpl.
  - destruct (decide (a = lit "q")); [done|].
    destruct (decide (a = lit "c")); [done|].
    destruct (decide (a = lit "d")); [done|]. tauto.
  - rewrite decide_False by tauto. rewrite decide_False by tauto.
    rewrite decide_False by tauto. rewrite IH. by rewrite <- app_assoc.
Qed.

Lemma ask_eof junk asked :
  Forall (fun x => ~ (x = lit "q" \/ x = lit "c" \/ x = lit "d")) junk ->
  ask junk asked
  = (Raises EOFError, [], asked ++ replicate (S (length junk)) (Prompted question)).
Proof.
  intros Hjunk. revert asked. induction Hjunk as [|x junk Hx _ IH]; intros asked; simpl.
  - done.
  - rewrite decide_False by tauto. rewrite decide_False by tauto.
    rewrite decide_False by tauto. rewrite IH. by rewrite <- app_assoc.
Qed.

Lemma signal_handler_restores {A} s h (body : M A) w :
  (forall w1, handlers (body w1).2 = handlers w1) ->
  (_signal_handler s h body w).1
  = (body (mk_world (fun s' => if decide (s' = s) then h else handlers w s') (stdin w) (log w))).1
  /\ stdin (_signal_handler s h body w).2
     = stdin (body (mk_world (fun s' => if decide (s' = s) then h else handlers w s')
                             (stdin w) (log w))).2
  /\ log (_signal_handler s h body w).2
     = log (body (mk_world (fun s' => if decide (s' = s) then h else handlers w s')
                           (stdin w) (log w))).2
  /\ forall s', handlers (_signal_handler s h body w).2 s' = handlers w s'.
Proof.
  intros Hbody. unfold _signal_handler, bind, signal. simpl.
  set (w1 := mk_world _ _ _).
  specialize (Hbody w1). destruct (body w1) as [o w']. simpl in *.
  repeat split. intros s'. rewrite Hbody. unfold w1. simpl.
  destruct (decide (s' = s)) as [->|]; [|done]. done.
Qed.

(** X17: [_breakpoint] asks until it is answered [q], [c] or [d], one
    question per line read; it then raises [KeyboardInterrupt] on [q],
    returns on [c], and on [d] prints the box and starts the debugger
    before it returns; when the console ends first it raises [EOFError].
    However it ends, the handler of the signal is afterwards the one that
    was installed before. *)
Theorem breakpoint_asks_and_restores (richoutput : bool) (mysignal : N) (w : world) :
  (forall s, handlers (_breakpoint richoutput mysignal w).2 s = handlers w s)
  /\ (forall junk a rest box,
        stdin w = junk ++ a :: rest ->
        Forall (fun x => ~ (x = lit "q" \/ x = lit "c" \/ x = lit "d")) junk ->
        a = lit "q" \/ a = lit "c" \/ a = lit "d" ->
        _mkbox tracing_activated richoutput = Returns box ->
        (_breakpoint richoutput mysignal w).1
        = (if decide (a = lit "q") then Raises KeyboardInterrupt else Returns tt)
        /\ stdin (_breakpoint richoutput mysignal w).2 = rest
        /\ log (_breakpoint richoutput mysignal w).2
           = log w ++ replicate (S (length junk)) (Prompted question)
             ++ (if decide (a = lit "d") then [Printed box; SetTrace] else []))
  /\ (Forall (fun x => ~ (x = lit "q" \/ x = lit "c" \/ x = lit "d")) (stdin w) ->
      (_breakpoint richoutput mysignal w).1 = Raises EOFError).
Proof.
  unfold _breakpoint.
  set (body := bind ask_loop
                 (fun answer =>
                    if decide (answer = lit "d") then
                      bind (of_outcome (_mkbox tracing_activated richoutput)) (fun box =>
                      bind (emit (Printed box)) (fun _ => emit SetTrace))
                    else ret tt)).
  assert (Hbody : forall w1, handlers (body w1).2 = handlers w1).
  { intros w1. unfold body, bind, ask_loop.
    destruct (ask (stdin w1) []) as [[o rest] asked].
    destruct o as [answer|e]; [|done].
    destruct (decide (answer = lit "d")); [|done].
    unfold of_outcome. destruct (_mkbox tracing_activated richoutput); done. }
  destruct (signal_handler_restores mysignal SIG_IGN body w Hbody) as (Ho & Hin & Hlog & Hh).
  split; [done|]. rewrite Ho, Hin, Hlog. clear Ho Hin Hlog Hh Hbody.
  unfold body, bind, ask_loop. cbn [stdin log handlers]. split.
  - intros junk a rest box Hw Hjunk Ha Hbox. rewrite Hw, (ask_decisive junk a rest [] Hjunk Ha).
    destruct (decide (a = lit "q")) as [->|Hq].
    { cbn [fst snd stdin log].
      rewrite decide_False by (intros H; vm_compute in H; discriminate H).
      by rewrite app_nil_r. }
    destruct (decide (a = lit "d")) as [->|Hd].
    + unfold of_outcome, emit. rewrite Hbox. cbn [fst snd stdin log handlers].
      by rewrite <- !app_assoc.
    + cbn [fst snd stdin log ret]. by rewrite app_nil_r.
  - intros Hjunk. rewrite (ask_eof _ [] Hjunk). done.
Qed.

Lemma breakpoint_asks_and_restores_witness :
  (_breakpoint false 2 (mk_world (fun _ => Callable 7) [lit "x"; lit "c"; lit "d"] [])).1
  = Returns tt
  /\ stdin (_breakpoint false 2 (mk_world (fun _ => Callable 7) [lit "x"; lit "c"; lit "d"] [])).2
     = [lit "d"]
  /\ log (_breakpoint false 2 (mk_world (fun _ => Callable 7) [lit "x"; lit "c"; lit "d"] [])).2
     = [Prompted question; Prompted question].
Proof.
  edestruct (proj1 (proj2 (breakpoint_asks_and_restores false 2
               (mk_world (fun _ => Callable 7) [lit "x"; lit "c"; lit "d"] [])))
               [lit "x"] (lit "c") [lit "d"]) as (H1 & H2 & H3).
  - reflexivity.
  - repeat constructor. vm_compute. intros [H|[H|H]]; discriminate H.
  - right. by left.
  - reflexivity.
  - split; [exact H1|]. split; [exact H2 | exact H3].
Defined.

Lemma options_get_set {V} (k k' : str) (v : V) (d : dict V) :
  dict_get k (dict_set k' v d) = if decide (k = k') then Some v else dict_get k d.
Proof.
  induction d as [|[k0 v0] d IH]; simpl.
  - done.
  - destruct (decide (k' = k0)) as [->|Hne]; simpl.
    + destruct (decide (k = k0)); done.
    + destruct (decide (k = k0)) as [->|]; [by rewrite decide_False|]. done.
Qed.

Lemma dict_get_app {V} (k : str) (d1 d2 : dict V) :
  dict_get k (d1 ++ d2)
  = match dict_get k d1 with Some v => Some v | None => dict_get k d2 end.
Proof.
  induction d1 as [|[k1 v1] d1 IH]; simpl; [done|]. by destruct (decide (k = k1)).
Qed.

Lemma dict_get_update {V} (k : str) (d other : dict V) :
  dict_get k (update d other)
  = match dict_get k (rev other) with Some v => Some v | None => dict_get k d end.
Proof.
  unfold update. revert d. induction other as [|[k0 v0] other IH]; intros d; simpl.
  - done.
  - rewrite IH, dict_get_app. destruct (dict_get k (rev other)); [done|].
    simpl. rewrite options_get_set. by destruct (decide (k = k0)).
Qed.

Lemma for_each_assignments (repr : str -> str) (Annotation : Type) (types : dict Annotation)
    (assigns : list (str * str)) (strargs : dict str) (w : world) :
  Forall (fun nv => lstrip 45%N nv.1 = nv.1 /\ 61%N ∉ nv.1) assigns ->
  for_each (parse_arg repr Annotation types)
           (map (fun nv => nv.1 ++ 61%N :: nv.2) assigns) strargs w
  = (Returns (update strargs assigns), w).
Proof.
  intros Hall. revert strargs. induction Hall as [|[n v] assigns [H1 H2] _ IH]; intros strargs.
  - done.
  - pose proof (parse_assignment repr Annotation types strargs 0 n v w H1 H2) as Hp.
    change (replicate 0 45%N ++ n ++ 61%N :: v) with (n ++ 61%N :: v) in Hp.
    cbn [map for_each fst snd]. unfold bind at 1. rewrite Hp.
    apply IH.
Qed.

(** X22: the precedence of the string arguments of [run].  On a command
    line of assignments [name=value], after an optional preset name, the
    value of a parameter is that of the last assignment to it; failing
    that, the value of the preset; failing that, the default of the
    docstring. *)
Theorem command_line_precedence (repr : str -> str) (Annotation : Type)
    (defaults : dict str) (presets : dict (dict str)) (types : dict Annotation)
    (assigns : list (str * str)) (w : world) :
  Forall (fun nv => lstrip 45%N nv.1 = nv.1 /\ 61%N ∉ nv.1) assigns ->
  (forall first preset, dict_get first presets = Some preset ->
     exists d,
       collect_strargs repr Annotation defaults presets types
         (first :: map (fun nv => nv.1 ++ 61%N :: nv.2) assigns) w = (Returns d, w)
       /\ forall n, dict_get n d
            = match dict_get n (rev assigns) with
              | Some v => Some v
              | None =>
                  match dict_get n (rev preset) with
                  | Some v => Some v
                  | None => dict_get n defaults
                  end
              end)
  /\ ((forall first, head (map (fun nv => nv.1 ++ 61%N :: nv.2) assigns) = Some first ->
         dict_get first presets = None) ->
      exists d,
        collect_strargs repr Annotation defaults presets types
          (map (fun nv => nv.1 ++ 61%N :: nv.2) assigns) w = (Returns d, w)
        /\ forall n, dict_get n d
             = match dict_get n (rev assigns) with
               | Some v => Some v
               | None => dict_get n defaults
               end).
Proof.
  intros Hall. split.
  - intros first preset Hp. unfold collect_strargs. rewrite Hp.
    rewrite for_each_assignments by done.
    eexists. split; [reflexivity|]. intros n. by rewrite !dict_get_update.
  - intros Hnone. unfold collect_strargs.
    destruct (map (fun nv => nv.1 ++ 61%N :: nv.2) assigns) as [|first rest] eqn:E.
    + destruct assigns; [|done]. by eexists.
    + rewrite (Hnone first eq_refl). rewrite <- E.
      rewrite for_each_assignments by done.
      eexists. split; [reflexivity|]. intros n. by rewrite dict_get_update.
Qed.

Lemma command_line_precedence_witness :
  exists d,
    collect_strargs (fun s => s) unit [(lit "n", lit "1"); (lit "m", lit "2"); (lit "k", lit "3")]
      [(lit "fast", [(lit "n", lit "10"); (lit "m", lit "20")])] []
      [lit "fast"; lit "n=5"; lit "n=7"] (mk_world (fun _ => SIG_DFL) [] [])
    = (Returns d, mk_world (fun _ => SIG_DFL) [] [])
    /\ dict_get (lit "n") d = Some (lit "7")
    /\ dict_get (lit "m") d = Some (lit "20")
    /\ dict_get (lit "k") d = Some (lit "3").
Proof.
  assert (Hclean : Forall (fun nv : str * str => lstrip 45%N nv.1 = nv.1 /\ 61%N ∉ nv.1)
                          [(lit "n", lit "5"); (lit "n", lit "7")]).
  { repeat constructor; try reflexivity;
      (vm_compute; intros Hin; repeat (apply elem_of_cons in Hin as [Hin|Hin]; [done|]);
       by apply not_elem_of_nil in Hin). }
  destruct (proj1 (command_line_precedence (fun s => s) unit
              [(lit "n", lit "1"); (lit "m", lit "2"); (lit "k", lit "3")]
              [(lit "fast", [(lit "n", lit "10"); (lit "m", lit "20")])] []
              [(lit "n", lit "5"); (lit "n", lit "7")] (mk_world (fun _ => SIG_DFL) [] [])
              Hclean)
              (lit "fast") [(lit "n", lit "10"); (lit "m", lit "20")] eq_refl)
    as (d & Hd & Hget).
  exists d. split; [exact Hd|]. rewrite !Hget. repeat split; reflexivity.
Defined.

Lemma last_cons_some {A} (x : A) l :
  last (x :: l) = match last l with Some y => Some y | None => Some x end.
Proof.
  destruct l as [|y l]; [done|]. change (last (x :: y :: l)) with (last (y :: l)).
  destruct (last (y :: l)) eqn:E; [done|]. by apply last_None in E.
Qed.

Lemma funcnames_last {Function : Type} (__name__ : Function -> str)
    (functions : list Function) (acc : dict Function) (name : str) :
  dict_get name (foldl (fun d func => dict_set (__name__ func) func d) acc functions)
  = match last (filter (fun func => __name__ func = name) functions) with
    | Some func => Some func
    | None => dict_get name acc
    end.
Proof.
  revert acc. induction functions as [|f functions IH]; intros acc; simpl; [done|].
  rewrite IH, options_get_set. rewrite filter_cons.
  destruct (decide (__name__ f = name)) as [Hf|Hf].
  - rewrite last_cons_some. rewrite decide_True by done.
    by destruct (last (filter _ functions)).
  - rewrite decide_False by done. done.
Qed.

Lemma elem_of_keys_set {V} (k n : str) (v : V) (d : dict V) :
  n ∈ map fst (dict_set k v d) <-> n = k \/ n ∈ map fst d.
Proof.
  induction d as [|[k' v'] d IH]; simpl.
  - rewrite list_elem_of_singleton. split; [by left|]. intros [->|H]; [done|].
    by apply elem_of_nil in H.
  - destruct (decide (k = k')) as [->|Hk]; simpl.
    + rewrite !elem_of_cons. tauto.
    + rewrite !elem_of_cons, IH. tauto.
Qed.

Lemma NoDup_keys_set {V} (k : str) (v : V) (d : dict V) :
  NoDup (map fst d) -> NoDup (map fst (dict_set k v d)).
Proof.
  induction d as [|[k' v'] d IH]; simpl; intros Hd.
  - apply NoDup_singleton.
  - apply NoDup_cons in Hd as [Hk' Hd].
    destruct (decide (k = k')) as [->|Hk]; simpl.
    + by apply NoDup_cons.
    + apply NoDup_cons. split; [|by apply IH].
      rewrite elem_of_keys_set. intros [->|H]; done.
Qed.

Lemma funcnames_keys {Function : Type} (__name__ : Function -> str)
    (functions : list Function) (acc : dict Function) :
  NoDup (map fst acc) ->
  NoDup (map fst (foldl (fun d func => dict_set (__name__ func) func d) acc functions))
  /\ forall n, n ∈ map fst (foldl (fun d func => dict_set (__name__ func) func d) acc functions)
       <-> n ∈ map fst acc \/ exists f, f ∈ functions /\ __name__ f = n.
Proof.
  revert acc. induction functions as [|f functions IH]; intros acc Hacc; simpl.
  - split; [done|]. intros n. split; [by left|]. intros [H|(f & Hf & _)]; [done|].
    by apply elem_of_nil in Hf.
  - destruct (IH (dict_set (__name__ f) f acc)) as [Hnd Hin]; [by apply NoDup_keys_set|].
    split; [done|]. intros n. rewrite Hin, elem_of_keys_set. split.
    + intros [[->|H]|(g & Hg & Hn)].
      * right. exists f. split; [by left|done].
      * by left.
      * right. exists g. split; [by right|done].
    + intros [H|(g & Hg & Hn)]; [left; by right|].
      apply elem_of_cons in Hg as [->|Hg].
      * left. by left.
      * right. by exists g.
Qed.

(** X23: [choose], given at least one function.  Without an argument
    after the program name, or with [-h] or [--help] in its place, it
    prints the usage, which lists every function name once, and ends the
    program with status 1.  Otherwise it runs the function whose name is
    the first argument after the program name, with that argument removed
    from the command line; of several functions of that name it runs the
    last.  A name of no function is reported, together with the names to
    choose from, and ends the program with status 2. *)
Theorem choose_runs_named_function (repr : str -> str) {Function : Type}
    (__name__ : Function -> str) (run : Function -> list str -> bool -> M unit)
    (functions : list Function) (prog : str) (loaduserconfig : bool) (w : world) :
  functions <> [] ->
  let names := map fst (funcnames Function __name__ functions) in
  let say line := mk_world (handlers w) (stdin w) (log w ++ [Printed line]) in
  let usage := lit "USAGE: " ++ prog ++ lit " [" ++ join (lit "|") names ++ lit "] (...)" in
  (NoDup names /\ forall n, n ∈ names <-> exists f, f ∈ functions /\ __name__ f = n)
  /\ choose repr Function __name__ run functions [prog] loaduserconfig w
     = (Raises (SystemExit (Status 1)), say usage)
  /\ (forall help rest, help = lit "-h" \/ help = lit "--help" ->
        choose repr Function __name__ run functions (prog :: help :: rest) loaduserconfig w
        = (Raises (SystemExit (Status 1)), say usage))
  /\ (forall funcname rest, funcname <> lit "-h" -> funcname <> lit "--help" ->
        match last (filter (fun func => __name__ func = funcname) functions) with
        | Some func =>
            choose repr Function __name__ run functions (prog :: funcname :: rest)
                   loaduserconfig w
            = run func (prog :: rest) loaduserconfig w
        | None =>
            choose repr Function __name__ run functions (prog :: funcname :: rest)
                   loaduserconfig w
            = (Raises (SystemExit (Status 2)),
               say (lit "invalid argument " ++ repr funcname ++ lit "; choose from "
                    ++ join (lit ", ") names))
        end).
Proof.
  intros Hne names say usage.
  split; [|split; [|split]].
  - destruct (funcnames_keys __name__ functions []) as [Hnd Hin]; [constructor|].
    split; [exact Hnd|]. intros n. unfold names, funcnames. rewrite Hin.
    split; [|by right]. intros [H|H]; [|done]. cbn in H. by apply elem_of_nil in H.
  - unfold choose. by destruct functions.
  - intros help rest Hhelp. unfold choose. destruct functions as [|f0 fs]; [done|].
    destruct Hhelp as [->| ->]; [by rewrite decide_True|].
    rewrite decide_False by done. by rewrite decide_True.
  - intros funcname rest Hh Hhelp.
    assert (Hget : dict_get funcname (funcnames Function __name__ functions)
                   = last (filter (fun func => __name__ func = funcname) functions)).
    { unfold funcnames. rewrite funcnames_last. cbn [dict_get].
      by destruct (last (filter _ functions)). }
    unfold choose. destruct functions as [|f0 fs] eqn:E; [done|]. rewrite <- E in *.
    rewrite decide_False by done. rewrite decide_False by done.
    rewrite Hget. destruct (last (filter _ functions)); [done|].
    subst names say. rewrite E. reflexivity.
Qed.

Lemma choose_runs_named_function_witness :
  choose (fun s => s) (str * nat) fst (fun func args _ => emit (Printed (join [32%N] args)))
         [(lit "plot", 1%nat); (lit "solve", 2%nat); (lit "plot", 3%nat)]
         [lit "prog"; lit "plot"; lit "n=1"] true (mk_world (fun _ => SIG_DFL) [] [])
  = (Returns tt, mk_world (fun _ => SIG_DFL) [] [Printed (lit "prog n=1")])
  /\ choose (fun s => s) (str * nat) fst (fun func args _ => emit (Printed (join [32%N] args)))
         [(lit "plot", 1%nat); (lit "solve", 2%nat); (lit "plot", 3%nat)]
         [lit "prog"; lit "mesh"] true (mk_world (fun _ => SIG_DFL) [] [])
     = (Raises (SystemExit (Status 2)),
        mk_world (fun _ => SIG_DFL) [] [Printed (lit "invalid argument mesh; choose from plot, solve")])
  /\ choose (fun s => s) (str * nat) fst (fun func args _ => emit (Printed (join [32%N] args)))
         [(lit "plot", 1%nat); (lit "solve", 2%nat); (lit "plot", 3%nat)]
         [lit "prog"; lit "--help"; lit "plot"] true (mk_world (fun _ => SIG_DFL) [] [])
     = (Raises (SystemExit (Status 1)),
        mk_world (fun _ => SIG_DFL) [] [Printed (lit "USAGE: prog [plot|solve] (...)")]).
Proof.
  destruct (choose_runs_named_function (fun s => s) fst
           (fun func args _ => emit (Printed (join [32%N] args)))
           [(lit "plot", 1%nat); (lit "solve", 2%nat); (lit "plot", 3%nat)]
           (lit "prog") true (mk_world (fun _ => SIG_DFL) [] []))
    as (_ & _ & Hhelp & Hrun); [discriminate|].
  split; [|split].
  - apply (Hrun (lit "plot") [lit "n=1"]); discriminate.
  - apply (Hrun (lit "mesh") []); discriminate.
  - apply (Hhelp (lit "--help") [lit "plot"]). by right.
Defined.

End cli_facts.

(** * The lowered array expressions *)

Module lower_facts.

Import lower_ir Lowered.

Lemma slice_to_all {A} (l : list A) : slice_to (Z.of_nat (length l)) l = l.
Proof.
  unfold slice_to. destruct (Z.of_nat (length l) <? 0) eqn:E; [apply Z.ltb_lt in E; lia|].
  rewrite Nat2Z.id. apply firstn_all.
Qed.

Lemma slice_from_past {A} (l : list A) : slice_from (Z.of_nat (length l) + 1) l = [].
Proof.
  unfold slice_from.
  destruct (Z.of_nat (length l) + 1 <? 0) eqn:E; [apply Z.ltb_lt in E; lia|].
  apply drop_ge. lia.
Qed.

Lemma slice_to_within {A} (l t : list A) axis :
  0 <= axis < Z.of_nat (length l) ->
  slice_to axis (l ++ t) = slice_to axis l.
Proof.
  intros H. unfold slice_to. destruct (axis <? 0) eqn:E; [apply Z.ltb_lt in E; lia|].
  apply take_app_le. lia.
Qed.

Lemma slice_from_within {A} (l t : list A) axis :
  0 <= axis < Z.of_nat (length l) ->
  slice_from (axis + 1) (l ++ t) = slice_from (axis + 1) l ++ t.
Proof.
  intros H. unfold slice_from.
  destruct (axis + 1 <? 0) eqn:E; [apply Z.ltb_lt in E; lia|].
  apply drop_app_le. lia.
Qed.

Lemma append_axes_spec (a : Array) (shp : list Z) :
  shape (_append_axes a shp) = shape a ++ shp /\ dtype (_append_axes a shp) = dtype a.
Proof.
  unfold _append_axes. revert a. induction shp as [|n shp IH]; intros a; simpl.
  - by rewrite app_nil_r.
  - destruct (IH (InsertAxis a (Z.of_nat (length (shape a))) n)) as [-> ->]. simpl.
    rewrite slice_to_all, slice_from_past. split; [|done].
    by rewrite <- app_assoc.
Qed.

(** X18: [_append_axes] appends the given extents to the shape of an
    expression, whatever the expression, and keeps its element type. *)
Theorem append_axes_appends (a : Array) (shp : list Z) :
  shape (_append_axes a shp) = shape a ++ shp /\ dtype (_append_axes a shp) = dtype a.
Proof. apply append_axes_spec. Qed.

Lemma filled_ok x shp :
  forallb (fun n => 0 <=? n) shp = true ->
  exists v, filled x shp = Returns v /\ nd_shape v = shp.
Proof. intros H. unfold filled. rewrite H. by eexists. Qed.

Lemma derivative_plain (a var : Array) :
  plain a = true -> forallb (fun n => 0 <=? n) (shape var) = true ->
  exists d, derivative a var = Returns d /\ shape d = shape a ++ shape var
    /\ (trigonometric a = true -> unsupported d = true).
Proof.
  intros Ha Hvar.
  induction a as [s dt | name s dt | value | arg IH axis len | arg IH axis | arg IH
                 | a1 IH1 a2 IH2 | a1 IH1 a2 IH2 | arg IH | arg IH];
    simpl in Ha; try done.
  - destruct (filled_ok (if Argument__eq__ var name s dt then one else zero)
                (s ++ shape var)) as (v & Hv & Hs).
    { rewrite forallb_app. by rewrite Ha, Hvar. }
    exists (Constant v). simpl. unfold ones, zeros.
    destruct (Argument__eq__ var name s dt); rewrite Hv; simpl; by rewrite Hs.
  - destruct (filled_ok zero (nd_shape value ++ shape var)) as (v & Hv & Hs).
    { rewrite forallb_app. by rewrite Ha, Hvar. }
    exists (Constant v). simpl. unfold zeros. rewrite Hv. simpl. by rewrite Hs.
  - apply andb_true_iff in Ha as [Ha Hlt]. apply andb_true_iff in Ha as [Ha Hge].
    apply Z.leb_le in Hge. apply Z.ltb_lt in Hlt.
    destruct (IH Ha) as (d & Hd & Hs & Ht).
    exists (InsertAxis d axis len). simpl. rewrite Hd. simpl. split; [done|].
    rewrite Hs, slice_to_within, slice_from_within by lia.
    split; [|done]. by rewrite <- !app_assoc.
  - apply andb_true_iff in Ha as [Ha Hlt]. apply andb_true_iff in Ha as [Ha Hge].
    apply Z.leb_le in Hge. apply Z.ltb_lt in Hlt.
    destruct (IH Ha) as (d & Hd & Hs & Ht).
    exists (Sum d axis). simpl. rewrite Hd. simpl. split; [done|].
    rewrite Hs, slice_to_within, slice_from_within by lia.
    split; [|done]. by rewrite <- !app_assoc.
  - destruct (IH Ha) as (d & Hd & Hs & Ht).
    exists (Mul (_append_axes (Cos arg) (shape var)) d). simpl. rewrite Hd. simpl.
    unfold Mul__init__.
    destruct (append_axes_spec (Cos arg) (shape var)) as [Hf _]. simpl in Hf.
    rewrite decide_True by (by rewrite Hf, Hs). simpl. by rewrite Hf.
  - destruct (IH Ha) as (d & Hd & Hs & Ht).
    exists (Mul (_append_axes (Neg (Sin arg)) (shape var)) d). simpl. rewrite Hd. simpl.
    unfold Mul__init__.
    destruct (append_axes_spec (Neg (Sin arg)) (shape var)) as [Hf _]. simpl in Hf.
    rewrite decide_True by (by rewrite Hf, Hs). simpl. by rewrite Hf.
Qed.

Lemma derivative_unsupported (a var : Array) :
  unsupported a = true -> exists e, derivative a var = Raises e.
Proof.
  intros Ha. induction a; simpl in Ha; try done; simpl; try (by eexists).
  - destruct (IHa Ha) as [e ->]. by eexists.
  - destruct (IHa Ha) as [e ->]. by eexists.
  - destruct (IHa Ha) as [e ->]. by eexists.
  - destruct (IHa Ha) as [e ->]. by eexists.
Qed.

(** X19: what [derivative] does.  An expression that holds a [Dummy],
    [Neg], [Add] or [Mul] node anywhere is never differentiated: the call
    raises.  An expression built from arguments and constants by [Sin],
    [Cos], and [InsertAxis] and [Sum] at an axis of their argument, is
    differentiated to an expression of shape [self.shape + var.shape];
    when it holds a [Sin] or [Cos] its derivative holds a [Mul], so that
    no second derivative of it exists. *)
Theorem derivative_reach (a var : Array) :
  (unsupported a = true -> exists e, derivative a var = Raises e)
  /\ (plain a = true -> forallb (fun n => 0 <=? n) (shape var) = true ->
      exists d, derivative a var = Returns d
        /\ shape d = shape a ++ shape var
        /\ (trigonometric a = true ->
            forall var', exists e, derivative d var' = Raises e)).
Proof.
  split; [apply derivative_unsupported|].
  intros Ha Hvar. destruct (derivative_plain a var Ha Hvar) as (d & Hd & Hs & Ht).
  exists d. split; [done|]. split; [done|].
  intros Htrig var'. apply derivative_unsupported. by apply Ht.
Qed.

Lemma derivative_reach_witness :
  (exists e, derivative (Add (Argument "x" [2] dfloat) (Argument "x" [2] dfloat))
                        (Argument "x" [2] dfloat) = Raises e)
  /\ exists d, derivative (Sum (Sin (Argument "x" [2; 3] dfloat)) 0) (Argument "x" [2; 3] dfloat)
               = Returns d
       /\ shape d = [3; 2; 3]
       /\ forall var', exists e, derivative d var' = Raises e.
Proof.
  split.
  - apply (proj1 (derivative_reach (Add (Argument "x" [2] dfloat) (Argument "x" [2] dfloat))
                    (Argument "x" [2] dfloat))).
    reflexivity.
  - destruct (proj2 (derivative_reach (Sum (Sin (Argument "x" [2; 3] dfloat)) 0)
                       (Argument "x" [2; 3] dfloat)) eq_refl eq_refl)
      as (d & Hd & Hs & Ht).
    exists d. split; [exact Hd|]. split; [exact Hs|]. exact (Ht eq_refl).
Defined.

Lemma line_ends_app s1 s2 : line_ends (s1 +:+ s2) = (line_ends s1 + line_ends s2)%nat.
Proof. induction s1 as [|c s1 IH]; simpl; [done|]. rewrite IH. lia. Qed.

(** X20: [asciitree] writes one line per node of the expression: with a
    prefix that holds no line end, the text holds as many line ends as the
    expression has nodes. *)
Theorem asciitree_line_per_node (a : Array) (prefix : string) :
  line_ends prefix = 0%nat -> line_ends (asciitree a prefix) = size a.
Proof.
  revert prefix.
  assert (Hname : forall a, line_ends (__name__ a) = 0%nat) by (by intros []).
  assert (Hind : forall prefix, line_ends prefix = 0%nat -> line_ends (prefix +:+ "  ") = 0%nat).
  { intros prefix H. by rewrite line_ends_app, H. }
  induction a; intros prefix Hp; simpl;
    rewrite ?line_ends_app, ?Hp, ?IHa, ?IHa1, ?IHa2 by (by apply Hind);
    simpl; lia.
Qed.

Lemma asciitree_line_per_node_witness :
  line_ends (asciitree (Mul (Sin (Argument "x" [2] dfloat)) (Argument "y" [2] dfloat)) "| ")
  = 4%nat.
Proof.
  apply (asciitree_line_per_node
           (Mul (Sin (Argument "x" [2] dfloat)) (Argument "y" [2] dfloat)) "| ").
  reflexivity.
Defined.

End lower_facts.
